(** * Node feature vectors of the learned node selector (feat.c)

    A shallow embedding of [src/feat.c]: the feature vector structure
    [SCIP_FEAT], its copy and creation, the feature calculation
    [SCIPcalcNodeselFeat] and the two libsvm writers, over an explicit
    memory of structures and value arrays.

    - C [int] is a 32-bit two's complement integer: a [Z] with the
      wrap-around written out; division traps on a zero divisor.
    - [SCIP_Real] is C [double]: the kernel's binary64 floats.
    - Pointers are addresses into a typed memory; [NULL] is address 0.
    - A failed [assert], a division by zero and an access outside an
      allocated array are the failure [None] of the monad [M].
    - The allocator may refuse a request; its answers are an argument of
      [SCIPfeatCreate], which then returns [SCIP_NOMEMORY]. *)

From Stdlib Require Import ZArith Lia Bool List.
From Stdlib Require Import Uint63 PrimFloat SpecFloat FloatOps.
From Stdlib Require FloatAxioms.
From stdpp Require Import base option list gmap.

Set Warnings "-inexact-float".

Open Scope Z_scope.

(** ** Machine integers *)

Module Int.

Definition min_signed : Z := -2147483648.
Definition max_signed : Z := 2147483647.

Definition in_range (z : Z) : Prop := min_signed <= z <= max_signed.

(** The signed 32-bit representative of [z]. *)
Definition wrap (z : Z) : Z := (z + 2147483648) mod 4294967296 - 2147483648.

Definition add (a b : Z) : Z := wrap (a + b).
Definition mul (a b : Z) : Z := wrap (a * b).

(** [a / b] of C: truncation toward zero; no result on a zero divisor or
    on the one overflowing quotient. *)
Definition divs (a b : Z) : option Z :=
  if (b =? 0) || ((a =? min_signed) && (b =? -1)) then None
  else Some (a ÷ b).

End Int.

(** ** Reals *)

Abbreviation SCIP_Real := float.

(** Conversion of an [int] to [double]: exact on the 32-bit range. *)
Definition double_of_int (z : Z) : SCIP_Real :=
  if z <? 0 then (- PrimFloat.of_uint63 (Uint63.of_Z (- z)))%float
  else PrimFloat.of_uint63 (Uint63.of_Z z).

(** Conversion of a [double] to [int]: the fraction is discarded; a value
    that has no [int] gives the sentinel of the conversion instruction. *)
Definition int_of_double (x : SCIP_Real) : Z :=
  match Prim2SF x with
  | S754_zero _ => 0
  | S754_finite s m e =>
      let a := if 0 <=? e then Z.pos m * 2 ^ e else Z.pos m / 2 ^ (- e) in
      let z := if s then - a else a in
      if (Int.min_signed <=? z) && (z <=? Int.max_signed) then z
      else Int.min_signed
  | _ => Int.min_signed
  end.

(** ** Memory

    Structures and value arrays live in separate typed regions, so a store
    into an array never changes a structure.  The stream [out] is the file
    both writers append to. *)

Abbreviation addr := N.

Definition NULL : addr := 0%N.

(** The structure of struct_feat.h, as the fields feat.c reads and
    writes.  [vals] is the address of the value array; [boundtype] is the
    integer value of the [SCIP_BOUNDTYPE] enumerator. *)
Record SCIP_FEAT : Type := mkFeat {
  vals : addr;
  rootlpobj : SCIP_Real;
  sumobjcoeff : SCIP_Real;
  nconstrs : Z;
  maxdepth : Z;
  depth : Z;
  size : Z;
  boundtype : Z
}.

Definition set_vals (x : addr) (f : SCIP_FEAT) : SCIP_FEAT :=
  mkFeat x (rootlpobj f) (sumobjcoeff f) (nconstrs f) (maxdepth f) (depth f) (size f) (boundtype f).
Definition set_rootlpobj (x : SCIP_Real) (f : SCIP_FEAT) : SCIP_FEAT :=
  mkFeat (vals f) x (sumobjcoeff f) (nconstrs f) (maxdepth f) (depth f) (size f) (boundtype f).
Definition set_sumobjcoeff (x : SCIP_Real) (f : SCIP_FEAT) : SCIP_FEAT :=
  mkFeat (vals f) (rootlpobj f) x (nconstrs f) (maxdepth f) (depth f) (size f) (boundtype f).
Definition set_nconstrs (x : Z) (f : SCIP_FEAT) : SCIP_FEAT :=
  mkFeat (vals f) (rootlpobj f) (sumobjcoeff f) x (maxdepth f) (depth f) (size f) (boundtype f).
Definition set_maxdepth (x : Z) (f : SCIP_FEAT) : SCIP_FEAT :=
  mkFeat (vals f) (rootlpobj f) (sumobjcoeff f) (nconstrs f) x (depth f) (size f) (boundtype f).
Definition set_depth (x : Z) (f : SCIP_FEAT) : SCIP_FEAT :=
  mkFeat (vals f) (rootlpobj f) (sumobjcoeff f) (nconstrs f) (maxdepth f) x (size f) (boundtype f).
Definition set_size (x : Z) (f : SCIP_FEAT) : SCIP_FEAT :=
  mkFeat (vals f) (rootlpobj f) (sumobjcoeff f) (nconstrs f) (maxdepth f) (depth f) x (boundtype f).
Definition set_boundtype (x : Z) (f : SCIP_FEAT) : SCIP_FEAT :=
  mkFeat (vals f) (rootlpobj f) (sumobjcoeff f) (nconstrs f) (maxdepth f) (depth f) (size f) x.

(** One call of [SCIPinfoMessage], by its format: ["%d "], ["%d:%f "] and
    the newline. *)
Inductive Msg : Type :=
| MsgLabel (label : Z)
| MsgPair (index : Z) (value : SCIP_Real)
| MsgNewline.

Record Mem : Type := mkMem {
  feats : gmap N SCIP_FEAT;
  reals : gmap N (list SCIP_Real);
  out : list Msg
}.

Definition with_feats (fs : gmap N SCIP_FEAT) (m : Mem) : Mem :=
  mkMem fs (reals m) (out m).
Definition with_reals (rs : gmap N (list SCIP_Real)) (m : Mem) : Mem :=
  mkMem (feats m) rs (out m).
Definition with_out (o : list Msg) (m : Mem) : Mem :=
  mkMem (feats m) (reals m) o.

(** ** The monad of the embedding: state and failure *)

Definition M (A : Type) : Type := Mem -> option (A * Mem).

#[export] Instance M_ret : MRet M := fun A a m => Some (a, m).

#[export] Instance M_bind : MBind M := fun A B k c m =>
  match c m with
  | Some (a, m') => k a m'
  | None => None
  end.

Definition fail {A : Type} : M A := fun _ => None.

(** [assert(b)] *)
Definition assert (b : bool) : M unit :=
  if b then mret tt else fail.

Definition nonnull (p : addr) : bool := negb (p =? NULL)%N.

(** [p->fld] *)
Definition get {A : Type} (fld : SCIP_FEAT -> A) (p : addr) : M A := fun m =>
  if nonnull p then
    match feats m !! p with
    | Some f => Some (fld f, m)
    | None => None
    end
  else None.

(** [p->fld = x] *)
Definition put {A : Type} (upd : A -> SCIP_FEAT -> SCIP_FEAT) (p : addr) (x : A) : M unit :=
  fun m =>
  if nonnull p then
    match feats m !! p with
    | Some f => Some (tt, with_feats (<[p := upd x f]> (feats m)) m)
    | None => None
    end
  else None.

(** [a[i]] for an array at address [a] *)
Definition load_real (a : addr) (i : Z) : M SCIP_Real := fun m =>
  match reals m !! a with
  | Some xs =>
      if 0 <=? i then
        match xs !! Z.to_nat i with
        | Some x => Some (x, m)
        | None => None
        end
      else None
  | None => None
  end.

(** [a[i] = x] for an array at address [a] *)
Definition store_real (a : addr) (i : Z) (x : SCIP_Real) : M unit := fun m =>
  match reals m !! a with
  | Some xs =>
      if (0 <=? i) && (i <? Z.of_nat (length xs)) then
        Some (tt, with_reals (<[a := <[Z.to_nat i := x]> xs]> (reals m)) m)
      else None
  | None => None
  end.

(** [p->vals[i]] and [p->vals[i] = x] *)
Definition get_val (p : addr) (i : Z) : M SCIP_Real :=
  a ← get vals p; load_real a i.

Definition put_val (p : addr) (i : Z) (x : SCIP_Real) : M unit :=
  a ← get vals p; store_real a i x.

(** [SCIPinfoMessage(scip, file, ...)] *)
Definition SCIPinfoMessage (e : Msg) : M unit := fun m =>
  Some (tt, with_out (out m ++ [e]) m).

(** [for( i = 0; i < n; i++ ) body], for a bound [n] the body leaves
    alone; [i] never passes [n], so the increment does not wrap. *)
Fixpoint for_from (i : Z) (count : nat) (body : Z -> M unit) : M unit :=
  match count with
  | O => mret tt
  | S k => body i;; for_from (i + 1) k body
  end.

Definition for_loop (n : Z) (body : Z -> M unit) : M unit :=
  for_from 0 (Z.to_nat n) body.

(** ** Feature vectors *)

(** copy feature vector value *)
Definition SCIPfeatCopy (feat sourcefeat : addr) : M unit :=
  assert (nonnull feat);;
  v ← get vals feat; assert (nonnull v);;
  assert (nonnull sourcefeat);;
  sv ← get vals sourcefeat; assert (nonnull sv);;
  (x ← get maxdepth feat; put set_maxdepth sourcefeat x);;
  (x ← get depth feat; put set_depth sourcefeat x);;
  (x ← get size feat; put set_size sourcefeat x);;
  (x ← get boundtype feat; put set_boundtype sourcefeat x);;
  (x ← get rootlpobj feat; put set_rootlpobj sourcefeat x);;
  (x ← get sumobjcoeff feat; put set_sumobjcoeff sourcefeat x);;
  (x ← get nconstrs feat; put set_nconstrs sourcefeat x);;
  n ← get size feat;
  for_loop n (fun i => x ← get_val feat i; put_val sourcefeat i x).

(** ** Allocation

    The allocator belongs to the solver and is not part of the sources.
    A request is either refused or answered with memory that was not in
    use, whose contents are indeterminate.  An [Allocator] holds the
    answers to the two requests of one [SCIPfeatCreate]: [None] for a
    refusal, otherwise what the memory handed out happens to hold. *)
Record Allocator : Type := mkAllocator {
  block_granted : option SCIP_FEAT;
  array_granted : option (nat -> SCIP_Real)
}.

Inductive SCIP_RETCODE : Type :=
| SCIP_OKAY
| SCIP_NOMEMORY.

(** A non-null address that is not allocated in [m]. *)
Definition fresh_addr {A : Type} (m : gmap N A) : addr :=
  fresh ({[NULL]} ∪ dom m).

(** [SCIPallocBlockMemory(scip, feat)]: the return code and the pointer
    stored in [*feat], which is [NULL] after a refusal. *)
Definition SCIPallocBlockMemory (al : Allocator) : M (SCIP_RETCODE * addr) :=
  fun m =>
  match block_granted al with
  | Some junk =>
      let p := fresh_addr (feats m) in
      Some ((SCIP_OKAY, p), with_feats (<[p := junk]> (feats m)) m)
  | None => Some ((SCIP_NOMEMORY, NULL), m)
  end.

(** [BMSallocMemoryArray(&feat->vals, num)]: the pointer stored in
    [feat->vals], which is [NULL] after a refusal.  The count is converted
    to [size_t], so a negative [num] asks for more than the address space
    holds and is refused. *)
Definition BMSallocMemoryArray (al : Allocator) (feat : addr) (num : Z) : M addr :=
  fun m =>
  match (if num <? 0 then None else array_granted al) with
  | Some junk =>
      let a := fresh_addr (reals m) in
      (put set_vals feat a;; mret a)
        (with_reals (<[a := junk <$> seq 0 (Z.to_nat num)]> (reals m)) m)
  | None => (put set_vals feat NULL;; mret NULL) m
  end.

(** create feature vector and normalizers, initialized to zero.  The
    result is the return code with the pointer the C code leaves in
    [*feat]; the two assertions are on the solver and on the address of
    the caller's pointer, which the embedding does not hold as pointers.
    [SCIP_CALL] and [SCIP_ALLOC] return from the function when their
    request is refused; their error messages do not go to the stream of
    the writers. *)
Definition SCIPfeatCreate (al : Allocator) (size : Z) : M (SCIP_RETCODE * addr) :=
  r ← SCIPallocBlockMemory al;
  match r with
  | (SCIP_NOMEMORY, feat) => mret (SCIP_NOMEMORY, feat)
  | (SCIP_OKAY, feat) =>
      a ← BMSallocMemoryArray al feat size;
      if (a =? NULL)%N then mret (SCIP_NOMEMORY, feat)
      else
        for_loop size (fun i => put_val feat i 0%float);;
        put set_rootlpobj feat 0%float;;
        put set_sumobjcoeff feat 0%float;;
        put set_nconstrs feat 0;;
        put set_maxdepth feat 0;;
        put set_depth feat 0;;
        put set_size feat size;;
        put set_boundtype feat 0;;
        mret (SCIP_OKAY, feat)
  end.

(** [BMSfreeMemoryArray] of the array [a] and [SCIPfreeBlockMemory] of the
    structure [p]. *)
Definition release (p a : addr) : M unit := fun m =>
  Some (tt, mkMem (delete p (feats m)) (delete a (reals m)) (out m)).

(** free feature vector (the C code receives the address of the pointer
    and asserts that the pointer is not [NULL]) *)
Definition SCIPfeatFree (feat : addr) : M unit :=
  assert (nonnull feat);;
  a ← get vals feat;
  release feat a.

Definition SCIPfeatSetRootlpObj (feat : addr) (x : SCIP_Real) : M unit :=
  assert (nonnull feat);; put set_rootlpobj feat x.

Definition SCIPfeatGetVals (feat : addr) : M addr :=
  assert (nonnull feat);; get vals feat.

Definition SCIPfeatGetSize (feat : addr) : M Z :=
  assert (nonnull feat);; get size feat.

Definition SCIPfeatSetSumObjCoeff (feat : addr) (x : SCIP_Real) : M unit :=
  assert (nonnull feat);; put set_sumobjcoeff feat x.

Definition SCIPfeatSetMaxDepth (feat : addr) (x : Z) : M unit :=
  assert (nonnull feat);; put set_maxdepth feat x.

Definition SCIPfeatSetNConstrs (feat : addr) (x : Z) : M unit :=
  assert (nonnull feat);; put set_nconstrs feat x.

(** [(size * 2) * (depth / (maxdepth / 10)) + (size * (int)boundtype)] on
    the fields of one structure. *)
Definition offset_of (f : SCIP_FEAT) : option Z :=
  d ← Int.divs (maxdepth f) 10;
  q ← Int.divs (depth f) d;
  Some (Int.add (Int.mul (Int.mul (size f) 2) q) (Int.mul (size f) (boundtype f))).

Definition lift {A : Type} (o : option A) : M A := fun m =>
  match o with
  | Some a => Some (a, m)
  | None => None
  end.

Definition SCIPfeatGetOffset (feat : addr) : M Z :=
  assert (nonnull feat);;
  sz ← get size feat;
  d ← get depth feat;
  md ← get maxdepth feat;
  t ← lift (Int.divs md 10);
  q ← lift (Int.divs d t);
  bt ← get boundtype feat;
  mret (Int.add (Int.mul (Int.mul sz 2) q) (Int.mul sz bt)).

(** ** The solver state the calculation reads

    feat.c reads the node, the search state and the branching variable
    through accessor functions of the solver; each record holds what the
    accessors of one object return.  Enumerations are C integers. *)

Record SCIP_COL : Type := mkCol {
  col_obj : SCIP_Real;
  col_nnonz : Z
}.

Record SCIP_VAR : Type := mkVar {
  var_branchdirection : Z;
  var_col : SCIP_COL;
  var_sol : bool -> SCIP_Real;
  var_rootsol : SCIP_Real;
  var_pseudocost : SCIP_Real -> SCIP_Real;
  var_avginferences : Z -> SCIP_Real
}.

Record SCIP_BOUNDCHG : Type := mkBoundchg {
  bc_var : SCIP_VAR;
  bc_newbound : SCIP_Real;
  bc_boundchgtype : Z;
  bc_boundtype : Z
}.

(** [boundchgs] is the array [node->domchg->domchgbound.boundchgs]; the
    empty list is the [NULL] array. *)
Record SCIP_NODE : Type := mkNode {
  node_type : Z;
  node_depth : Z;
  node_lowerbound : SCIP_Real;
  node_estimate : SCIP_Real;
  boundchgs : list SCIP_BOUNDCHG
}.

Record SCIP : Type := mkScip {
  scip_lowerboundroot : SCIP_Real;
  scip_lowerbound : SCIP_Real;
  scip_cutoffbound : SCIP_Real;
  scip_nsolsfound : Z;
  scip_hasfocusnodelp : bool
}.

Definition SCIPnodeGetType (node : SCIP_NODE) : Z := node_type node.
Definition SCIPnodeGetDepth (node : SCIP_NODE) : Z := node_depth node.
Definition SCIPnodeGetLowerbound (node : SCIP_NODE) : SCIP_Real := node_lowerbound node.
Definition SCIPnodeGetEstimate (node : SCIP_NODE) : SCIP_Real := node_estimate node.
Definition SCIPgetLowerboundRoot (scip : SCIP) : SCIP_Real := scip_lowerboundroot scip.
Definition SCIPgetLowerbound (scip : SCIP) : SCIP_Real := scip_lowerbound scip.
Definition SCIPgetCutoffbound (scip : SCIP) : SCIP_Real := scip_cutoffbound scip.
Definition SCIPgetNSolsFound (scip : SCIP) : Z := scip_nsolsfound scip.
Definition SCIPtreeHasFocusNodeLP (scip : SCIP) : bool := scip_hasfocusnodelp scip.
Definition SCIPvarGetBranchDirection (v : SCIP_VAR) : Z := var_branchdirection v.
Definition SCIPvarGetCol (v : SCIP_VAR) : SCIP_COL := var_col v.
Definition SCIPcolGetObj (c : SCIP_COL) : SCIP_Real := col_obj c.
Definition SCIPcolGetNNonz (c : SCIP_COL) : Z := col_nnonz c.
Definition SCIPvarGetSol (v : SCIP_VAR) (haslp : bool) : SCIP_Real := var_sol v haslp.
Definition SCIPvarGetRootSol (v : SCIP_VAR) : SCIP_Real := var_rootsol v.
Definition SCIPvarGetPseudocost (v : SCIP_VAR) (delta : SCIP_Real) : SCIP_Real :=
  var_pseudocost v delta.
Definition SCIPvarGetAvgInferences (v : SCIP_VAR) (dir : Z) : SCIP_Real :=
  var_avginferences v dir.

(** Modelled from the spec: the macro [ABS] of scip/def.h is not part of
    the sources; the pseudocost slot divides by the absolute value of the
    objective coefficient. *)
Definition ABS (x : SCIP_Real) : SCIP_Real :=
  if (0 <=? x)%float then x else (- x)%float.

(** The enumerators feat.c uses; their headers (feat.h, scip/type_tree.h,
    scip/type_lp.h, scip/type_var.h) are not part of the sources, so their
    integer values are parameters of the development. *)
Class Enumerators : Type := mkEnumerators {
  SCIP_FEATNODESEL_LOWERBOUND : Z;
  SCIP_FEATNODESEL_ESTIMATE : Z;
  SCIP_FEATNODESEL_RELATIVEBOUND : Z;
  SCIP_FEATNODESEL_TYPE_SIBLING : Z;
  SCIP_FEATNODESEL_TYPE_CHILD : Z;
  SCIP_FEATNODESEL_TYPE_LEAF : Z;
  SCIP_FEATNODESEL_BRANCHVAR_OBJCONSTR : Z;
  SCIP_FEATNODESEL_BRANCHVAR_BOUNDLPDIFF : Z;
  SCIP_FEATNODESEL_BRANCHVAR_ROOTLPDIFF : Z;
  SCIP_FEATNODESEL_BRANCHVAR_PRIO_DOWN : Z;
  SCIP_FEATNODESEL_BRANCHVAR_PRIO_UP : Z;
  SCIP_FEATNODESEL_BRANCHVAR_PSEUDOCOST : Z;
  SCIP_FEATNODESEL_BRANCHVAR_INF : Z;
  SCIP_NODETYPE_SIBLING : Z;
  SCIP_NODETYPE_CHILD : Z;
  SCIP_NODETYPE_LEAF : Z;
  SCIP_BRANCHDIR_DOWNWARDS : Z;
  SCIP_BRANCHDIR_UPWARDS : Z;
  SCIP_BOUNDTYPE_LOWER : Z;
  SCIP_BOUNDCHGTYPE_BRANCHING : Z
}.

Section Calc.

Context {E : Enumerators}.

(** calculate feature values for the node selector of this node *)
Definition SCIPcalcNodeselFeat (scip : SCIP) (node : SCIP_NODE) (feat : addr) : M unit :=
  assert (negb (SCIPnodeGetDepth node =? 0));;
  assert (nonnull feat);;
  md ← get maxdepth feat; assert (negb (md =? 0));;
  match boundchgs node with
  | [] => fail
  | bc0 :: _ =>
    assert (bc_boundchgtype bc0 =? SCIP_BOUNDCHGTYPE_BRANCHING);;
    (* extract necessary information *)
    let nodetype := SCIPnodeGetType node in
    let nodelowerbound := SCIPnodeGetLowerbound node in
    let rootlowerbound := SCIPgetLowerboundRoot scip in
    let rootlowerbound :=
      if (rootlowerbound =? 0)%float then 0.1%float else rootlowerbound in
    let lowerbound := SCIPgetLowerbound scip in
    let cutoffbound := SCIPgetCutoffbound scip in
    let cutoffbound :=
      if SCIPgetNSolsFound scip =? 0
      then (lowerbound + 0.2 * (cutoffbound - lowerbound))%float
      else cutoffbound in
    (* currently only support branching on one variable *)
    let branchvar := bc_var bc0 in
    let branchbound := bc_newbound bc0 in
    let branchdirpreferred := SCIPvarGetBranchDirection branchvar in
    let branchvarcol := SCIPvarGetCol branchvar in
    let varobj := SCIPcolGetObj branchvarcol in
    let varcolsize := SCIPcolGetNNonz branchvarcol in
    let varcolsize :=
      if varcolsize =? 0 then int_of_double 0.1%float else varcolsize in
    let haslp := SCIPtreeHasFocusNodeLP scip in
    let varsol := SCIPvarGetSol branchvar haslp in
    let varrootsol := SCIPvarGetRootSol branchvar in
    put set_depth feat (SCIPnodeGetDepth node);;
    put set_boundtype feat (bc_boundtype bc0);;
    (* calculate features *)
    put_val feat SCIP_FEATNODESEL_LOWERBOUND
      (nodelowerbound / rootlowerbound)%float;;
    put_val feat SCIP_FEATNODESEL_ESTIMATE
      (SCIPnodeGetEstimate node / rootlowerbound)%float;;
    (if negb (cutoffbound - lowerbound =? 0)%float
     then put_val feat SCIP_FEATNODESEL_RELATIVEBOUND
            ((nodelowerbound - lowerbound) / (cutoffbound - lowerbound))%float
     else mret tt);;
    (if nodetype =? SCIP_NODETYPE_SIBLING
     then put_val feat SCIP_FEATNODESEL_TYPE_SIBLING 1%float
     else if nodetype =? SCIP_NODETYPE_CHILD
     then put_val feat SCIP_FEATNODESEL_TYPE_CHILD 1%float
     else if nodetype =? SCIP_NODETYPE_LEAF
     then put_val feat SCIP_FEATNODESEL_TYPE_LEAF 1%float
     else mret tt);;
    put_val feat SCIP_FEATNODESEL_BRANCHVAR_OBJCONSTR
      (varobj / double_of_int varcolsize)%float;;
    put_val feat SCIP_FEATNODESEL_BRANCHVAR_BOUNDLPDIFF
      (branchbound - varsol)%float;;
    put_val feat SCIP_FEATNODESEL_BRANCHVAR_ROOTLPDIFF
      (varrootsol - varsol)%float;;
    (if branchdirpreferred =? SCIP_BRANCHDIR_DOWNWARDS
     then put_val feat SCIP_FEATNODESEL_BRANCHVAR_PRIO_DOWN 1%float
     else if branchdirpreferred =? SCIP_BRANCHDIR_UPWARDS
     then put_val feat SCIP_FEATNODESEL_BRANCHVAR_PRIO_UP 1%float
     else mret tt);;
    put_val feat SCIP_FEATNODESEL_BRANCHVAR_PSEUDOCOST
      (SCIPvarGetPseudocost branchvar (branchbound - varsol) / ABS varobj)%float;;
    bt ← get boundtype feat;
    md ← get maxdepth feat;
    put_val feat SCIP_FEATNODESEL_BRANCHVAR_INF
      (if bt =? SCIP_BOUNDTYPE_LOWER
       then (SCIPvarGetAvgInferences branchvar SCIP_BRANCHDIR_UPWARDS
             / double_of_int md)%float
       else (SCIPvarGetAvgInferences branchvar SCIP_BRANCHDIR_DOWNWARDS
             / double_of_int md)%float)
  end.

End Calc.

(** ** The libsvm writers *)

(** The printed index [i + offset + 1]. *)
Definition libsvm_index (i offset : Z) : Z := Int.add (Int.add i offset) 1.

(** write feature vector diff (feat1 - feat2) in libsvm format *)
Definition SCIPfeatDiffLIBSVMPrint
    (feat1 feat2 : addr) (label : Z) (negate : bool) : M unit :=
  assert (nonnull feat1);;
  assert (nonnull feat2);;
  d1 ← get depth feat1; assert (negb (d1 =? 0));;
  d2 ← get depth feat2; assert (negb (d2 =? 0));;
  s1 ← get size feat1; s2 ← get size feat2; assert (s1 =? s2);;
  let '(feat1, feat2, label) :=
    if negate then (feat2, feat1, Int.mul (-1) label)
    else (feat1, feat2, label) in
  sz ← SCIPfeatGetSize feat1;
  offset1 ← SCIPfeatGetOffset feat1;
  offset2 ← SCIPfeatGetOffset feat2;
  SCIPinfoMessage (MsgLabel label);;
  (if offset1 =? offset2 then
     for_loop sz (fun i =>
       x1 ← get_val feat1 i; x2 ← get_val feat2 i;
       SCIPinfoMessage (MsgPair (libsvm_index i offset1) (x1 - x2)%float))
   else
     (* libsvm requires sorted indices, write smaller indices first *)
     if offset1 <? offset2 then
       (* feat1 *)
       for_loop sz (fun i =>
         x1 ← get_val feat1 i;
         SCIPinfoMessage (MsgPair (libsvm_index i offset1) x1));;
       (* -feat2 *)
       for_loop sz (fun i =>
         x2 ← get_val feat2 i;
         SCIPinfoMessage (MsgPair (libsvm_index i offset2) (- x2)%float))
     else
       (* -feat2 *)
       for_loop sz (fun i =>
         x2 ← get_val feat2 i;
         SCIPinfoMessage (MsgPair (libsvm_index i offset2) (- x2)%float));;
       (* feat1 *)
       for_loop sz (fun i =>
         x1 ← get_val feat1 i;
         SCIPinfoMessage (MsgPair (libsvm_index i offset1) x1)));;
  SCIPinfoMessage MsgNewline.

(** write feature vector in libsvm format *)
Definition SCIPfeatLIBSVMPrint (feat : addr) (label : Z) : M unit :=
  assert (nonnull feat);;
  d ← get depth feat; assert (negb (d =? 0));;
  sz ← SCIPfeatGetSize feat;
  offset ← SCIPfeatGetOffset feat;
  SCIPinfoMessage (MsgLabel label);;
  for_loop sz (fun i =>
    x ← get_val feat i;
    SCIPinfoMessage (MsgPair (libsvm_index i offset) x));;
  SCIPinfoMessage MsgNewline.

(** * Models and predicates of the properties *)

#[export] Instance float_inhabited : Inhabited SCIP_Real := populate 0%float.

(** The formula of the specification, with floor division on [Z]. *)
Definition offset_floor (f : SCIP_FEAT) : Z :=
  size f * 2 * (depth f / (maxdepth f / 10)) + size f * boundtype f.

(** The same expression with the truncating division of C. *)
Definition offset_trunc (f : SCIP_FEAT) : Z :=
  size f * 2 * (depth f ÷ (maxdepth f ÷ 10)) + size f * boundtype f.

(** The pairs of one block: the indices [o+1 .. o+n] against the first
    [n] values. *)
Definition block (o n : Z) (xs : list SCIP_Real) : list Msg :=
  zip_with MsgPair (seqZ (o + 1) n) xs.

(** The pair indices of a stream, in the order written. *)
Definition pair_indices (l : list Msg) : list Z :=
  omap (fun e => match e with MsgPair i _ => Some i | _ => None end) l.

(** Strictly ascending lists of indices. *)
Definition ascending (l : list Z) : Prop :=
  forall i j a b, (i < j)%nat -> l !! i = Some a -> l !! j = Some b -> a < b.

(** The assertions of the difference writer, on the arguments as passed. *)
Definition diff_asserts (p1 p2 : addr) (m : Mem) : bool :=
  nonnull p1 && nonnull p2 &&
  match feats m !! p1, feats m !! p2 with
  | Some f1, Some f2 =>
      negb (depth f1 =? 0) && negb (depth f2 =? 0) && (size f1 =? size f2)
  | _, _ => false
  end.

(** The writer after its assertions and the swap. *)
Definition diff_body (feat1 feat2 : addr) (label : Z) : M unit :=
  sz ← SCIPfeatGetSize feat1;
  offset1 ← SCIPfeatGetOffset feat1;
  offset2 ← SCIPfeatGetOffset feat2;
  SCIPinfoMessage (MsgLabel label);;
  (if offset1 =? offset2 then
     for_loop sz (fun i =>
       x1 ← get_val feat1 i; x2 ← get_val feat2 i;
       SCIPinfoMessage (MsgPair (libsvm_index i offset1) (x1 - x2)%float))
   else
     if offset1 <? offset2 then
       for_loop sz (fun i =>
         x1 ← get_val feat1 i;
         SCIPinfoMessage (MsgPair (libsvm_index i offset1) x1));;
       for_loop sz (fun i =>
         x2 ← get_val feat2 i;
         SCIPinfoMessage (MsgPair (libsvm_index i offset2) (- x2)%float))
     else
       for_loop sz (fun i =>
         x2 ← get_val feat2 i;
         SCIPinfoMessage (MsgPair (libsvm_index i offset2) (- x2)%float));;
       for_loop sz (fun i =>
         x1 ← get_val feat1 i;
         SCIPinfoMessage (MsgPair (libsvm_index i offset1) x1)));;
  SCIPinfoMessage MsgNewline.

(** The pairs of one difference line for offsets [o1] and [o2]. *)
Definition diff_pairs (o1 o2 n : Z) (xs1 xs2 : list SCIP_Real) : list Msg :=
  if o1 =? o2 then block o1 n (zip_with PrimFloat.sub xs1 xs2)
  else if o1 <? o2
       then block o1 n xs1 ++ block o2 n (PrimFloat.opp <$> xs2)
       else block o2 n (PrimFloat.opp <$> xs2) ++ block o1 n xs1.

(** [xs[i] = x] on the value array, and the guarded store. *)
Definition upd (i : Z) (x : SCIP_Real) (xs : list SCIP_Real) : list SCIP_Real :=
  <[Z.to_nat i := x]> xs.

Definition upd_if (c : bool) (i : Z) (x : SCIP_Real) (xs : list SCIP_Real)
  : list SCIP_Real :=
  if c then upd i x xs else xs.

(** The normalizers the calculation derives from the search state. *)
Definition rootlowerbound_normalized (scip : SCIP) : SCIP_Real :=
  if (SCIPgetLowerboundRoot scip =? 0)%float then 0.1%float
  else SCIPgetLowerboundRoot scip.

Definition cutoffbound_adjusted (scip : SCIP) : SCIP_Real :=
  if SCIPgetNSolsFound scip =? 0
  then (SCIPgetLowerbound scip
        + 0.2 * (SCIPgetCutoffbound scip - SCIPgetLowerbound scip))%float
  else SCIPgetCutoffbound scip.

(** The local [int varcolsize] after its guard. *)
Definition varcolsize_guarded (v : SCIP_VAR) : Z :=
  if SCIPcolGetNNonz (SCIPvarGetCol v) =? 0 then int_of_double 0.1%float
  else SCIPcolGetNNonz (SCIPvarGetCol v).

(** ** The feature calculation as a function on the value array *)

Section CalcModel.

Context {E : Enumerators}.

Definition feat_slots : list Z :=
  [ SCIP_FEATNODESEL_LOWERBOUND; SCIP_FEATNODESEL_ESTIMATE;
    SCIP_FEATNODESEL_RELATIVEBOUND; SCIP_FEATNODESEL_TYPE_SIBLING;
    SCIP_FEATNODESEL_TYPE_CHILD; SCIP_FEATNODESEL_TYPE_LEAF;
    SCIP_FEATNODESEL_BRANCHVAR_OBJCONSTR;
    SCIP_FEATNODESEL_BRANCHVAR_BOUNDLPDIFF;
    SCIP_FEATNODESEL_BRANCHVAR_ROOTLPDIFF;
    SCIP_FEATNODESEL_BRANCHVAR_PRIO_DOWN;
    SCIP_FEATNODESEL_BRANCHVAR_PRIO_UP;
    SCIP_FEATNODESEL_BRANCHVAR_PSEUDOCOST;
    SCIP_FEATNODESEL_BRANCHVAR_INF ].

(** The slot identifiers are indices into an array of [n] values. *)
Definition slots_fit (n : nat) : Prop :=
  Forall (fun k => 0 <= k < Z.of_nat n) feat_slots.

(** The enumerators of the slot enumeration are pairwise different. *)
Definition slots_distinct : Prop := NoDup feat_slots.

(** The value array after the calculation, as a function of the array
    before it: the stores of [SCIPcalcNodeselFeat] in program order. *)
Definition calc_vals (scip : SCIP) (node : SCIP_NODE) (bc0 : SCIP_BOUNDCHG)
    (md : Z) (xs : list SCIP_Real) : list SCIP_Real :=
  let ty := SCIPnodeGetType node in
  let lb := SCIPgetLowerbound scip in
  let v := bc_var bc0 in
  let dir := SCIPvarGetBranchDirection v in
  let varobj := SCIPcolGetObj (SCIPvarGetCol v) in
  let varsol := SCIPvarGetSol v (SCIPtreeHasFocusNodeLP scip) in
  let c1 := ty =? SCIP_NODETYPE_SIBLING in
  let c2 := ty =? SCIP_NODETYPE_CHILD in
  let c3 := ty =? SCIP_NODETYPE_LEAF in
  let d1 := dir =? SCIP_BRANCHDIR_DOWNWARDS in
  let d2 := dir =? SCIP_BRANCHDIR_UPWARDS in
  let xs := upd SCIP_FEATNODESEL_LOWERBOUND
    (SCIPnodeGetLowerbound node / rootlowerbound_normalized scip)%float xs in
  let xs := upd SCIP_FEATNODESEL_ESTIMATE
    (SCIPnodeGetEstimate node / rootlowerbound_normalized scip)%float xs in
  let xs := upd_if (negb (cutoffbound_adjusted scip - lb =? 0)%float)
    SCIP_FEATNODESEL_RELATIVEBOUND
    ((SCIPnodeGetLowerbound node - lb) / (cutoffbound_adjusted scip - lb))%float
    xs in
  let xs := upd_if c1 SCIP_FEATNODESEL_TYPE_SIBLING 1%float xs in
  let xs := upd_if (negb c1 && c2) SCIP_FEATNODESEL_TYPE_CHILD 1%float xs in
  let xs := upd_if (negb c1 && negb c2 && c3)
    SCIP_FEATNODESEL_TYPE_LEAF 1%float xs in
  let xs := upd SCIP_FEATNODESEL_BRANCHVAR_OBJCONSTR
    (varobj / double_of_int (varcolsize_guarded v))%float xs in
  let xs := upd SCIP_FEATNODESEL_BRANCHVAR_BOUNDLPDIFF
    (bc_newbound bc0 - varsol)%float xs in
  let xs := upd SCIP_FEATNODESEL_BRANCHVAR_ROOTLPDIFF
    (SCIPvarGetRootSol v - varsol)%float xs in
  let xs := upd_if d1 SCIP_FEATNODESEL_BRANCHVAR_PRIO_DOWN 1%float xs in
  let xs := upd_if (negb d1 && d2)
    SCIP_FEATNODESEL_BRANCHVAR_PRIO_UP 1%float xs in
  let xs := upd SCIP_FEATNODESEL_BRANCHVAR_PSEUDOCOST
    (SCIPvarGetPseudocost v (bc_newbound bc0 - varsol) / ABS varobj)%float xs in
  upd SCIP_FEATNODESEL_BRANCHVAR_INF
    (if bc_boundtype bc0 =? SCIP_BOUNDTYPE_LOWER
     then (SCIPvarGetAvgInferences v SCIP_BRANCHDIR_UPWARDS
           / double_of_int md)%float
     else (SCIPvarGetAvgInferences v SCIP_BRANCHDIR_DOWNWARDS
           / double_of_int md)%float) xs.

(** The input the calculation asserts: a node below the root whose first
    bound change is a branching. *)
Definition node_valid (node : SCIP_NODE) (bc0 : SCIP_BOUNDCHG) : Prop :=
  SCIPnodeGetDepth node <> 0 /\
  head (boundchgs node) = Some bc0 /\
  bc_boundchgtype bc0 = SCIP_BOUNDCHGTYPE_BRANCHING.

End CalcModel.

(** ** Mutations of a vector and separation of two vectors *)

(** What a caller can do to a vector after a copy: the setters, a store
    through [SCIPfeatGetVals], the calculation, and copying another vector
    into it. *)
Inductive Mutation : Type :=
| MutSetRootlpObj (x : SCIP_Real)
| MutSetSumObjCoeff (x : SCIP_Real)
| MutSetMaxDepth (x : Z)
| MutSetNConstrs (x : Z)
| MutStoreVal (i : Z) (x : SCIP_Real)
| MutCalc (scip : SCIP) (node : SCIP_NODE)
| MutCopyFrom (other : addr).

Definition mutate {E : Enumerators} (mu : Mutation) (feat : addr) : M unit :=
  match mu with
  | MutSetRootlpObj x => SCIPfeatSetRootlpObj feat x
  | MutSetSumObjCoeff x => SCIPfeatSetSumObjCoeff feat x
  | MutSetMaxDepth x => SCIPfeatSetMaxDepth feat x
  | MutSetNConstrs x => SCIPfeatSetNConstrs feat x
  | MutStoreVal i x => a ← SCIPfeatGetVals feat; store_real a i x
  | MutCalc scip node => SCIPcalcNodeselFeat scip node feat
  | MutCopyFrom other => SCIPfeatCopy other feat
  end.

(** A vector [q] with the array [b], and a vector [p] with another array
    [a]: [separate] holds of a memory in which the structure of [q] is [G]
    and its array is [Y]; [preserves] says that a computation keeps this. *)
Definition separate (p q a b : addr) (G : option SCIP_FEAT)
    (Y : option (list SCIP_Real)) (m : Mem) : Prop :=
  feats m !! q = G /\ reals m !! b = Y /\
  exists f, feats m !! p = Some f /\ vals f = a.

Definition preserves (p q a b : addr) (G : option SCIP_FEAT)
    (Y : option (list SCIP_Real)) {A : Type} (c : M A) : Prop :=
  forall m r m', separate p q a b G Y m -> c m = Some (r, m') ->
                 separate p q a b G Y m'.

(** A computation that changes no structure and no array and only
    appends to the stream. *)
Definition appends {A : Type} (c : M A) : Prop :=
  forall m r m', c m = Some (r, m') ->
    feats m' = feats m /\ reals m' = reals m /\
    exists l, out m' = out m ++ l.

(** ** Sample inputs *)

(** A vector of the offset scenario and one whose [maxdepth] is below 10. *)
Definition feat_55 : SCIP_FEAT := mkFeat 1%N 0%float 0%float 0 100 25 11 1.
Definition feat_md5 : SCIP_FEAT := mkFeat 1%N 0%float 0%float 0 5 25 11 1.

Definition mem_of (f : SCIP_FEAT) (xs : list SCIP_Real) : Mem :=
  mkMem {[ 1%N := f ]} {[ vals f := xs ]} [].

(** A memory with four computed vectors of size 3: [1] and [2] with the
    offset 15, [3] with the offset 18, and [4], the elementwise difference
    of [1] and [2]. *)
Definition mem_four : Mem :=
  mkMem
    (<[1%N := mkFeat 1%N 0%float 0%float 0 100 25 3 1]>
       (<[2%N := mkFeat 2%N 0%float 0%float 0 100 29 3 1]>
          (<[3%N := mkFeat 3%N 0%float 0%float 0 100 37 3 0]>
             (<[4%N := mkFeat 4%N 0%float 0%float 0 100 25 3 1]> ∅))))
    (<[1%N := [1.5; 2; 0.25]%float]>
       (<[2%N := [0.5; 2; 1]%float]>
          (<[3%N := [4; 5; 6]%float]>
             (<[4%N := zip_with PrimFloat.sub
                         [1.5; 2; 0.25]%float [0.5; 2; 1]%float]> ∅))))
    [].

(** One numbering of the enumerators: the slots in the order of the
    calculation, then node types, branching directions, the lower bound
    type and the branching bound change type. *)
Definition sample_enumerators : Enumerators :=
  mkEnumerators 0 1 2 3 4 5 6 7 8 9 10 11 12 2 3 4 0 1 1 0.

(** A branching variable with objective coefficient 1 whose column has
    [nnonz] nonzero entries. *)
Definition sample_var (nnonz : Z) : SCIP_VAR :=
  mkVar 0 (mkCol 1%float nnonz) (fun _ => 0.5%float) 0.25%float
        (fun delta => delta) (fun _ => 3%float).

Definition sample_boundchg (nnonz : Z) : SCIP_BOUNDCHG :=
  mkBoundchg (sample_var nnonz) 1%float 0 1.

(** A child node at depth 25 with lower bound 12 and estimate 14. *)
Definition sample_node (nnonz : Z) : SCIP_NODE :=
  mkNode 3 25 12%float 14%float [sample_boundchg nnonz].

(** A search with root lower bound 0, lower bound 10, cutoff bound 50 and
    no solution found. *)
Definition sample_scip : SCIP := mkScip 0%float 10%float 50%float 0 true.

(** A vector of 13 slots as [SCIPfeatCreate] and [SCIPfeatSetMaxDepth]
    leave it. *)
Definition sample_feat : SCIP_FEAT := mkFeat 1%N 0%float 0%float 0 100 0 13 0.

Definition sample_mem : Mem := mem_of sample_feat (replicate 13 0%float).

(** The sample node with a branching variable of objective coefficient
    0 and pseudocost 2. *)
Definition zero_objective_boundchg : SCIP_BOUNDCHG :=
  mkBoundchg (mkVar 0 (mkCol 0%float 4) (fun _ => 0.5%float) 0.25%float
                (fun _ => 2%float) (fun _ => 3%float)) 1%float 0 1.

(** The same with the objective coefficient -0. *)
Definition negative_zero_objective_boundchg : SCIP_BOUNDCHG :=
  mkBoundchg (mkVar 0 (mkCol (-0)%float 4) (fun _ => 0.5%float) 0.25%float
                (fun _ => 2%float) (fun _ => 3%float)) 1%float 0 1.

(** An allocator that grants both requests of a creation; the block and
    the array it hands out hold values left by earlier use. *)
Definition sample_junk : SCIP_FEAT := mkFeat 9%N 2.5%float 1%float 3 (-7) 42 5 1.

Definition sample_allocator : Allocator :=
  mkAllocator (Some sample_junk) (Some (fun _ => 7.5%float)).

(** Allocators that refuse the block, and the array only. *)
Definition no_block_allocator : Allocator :=
  mkAllocator None (Some (fun _ => 7.5%float)).

Definition no_array_allocator : Allocator :=
  mkAllocator (Some sample_junk) None.

(** * Lemmas *)

(** ** Integer arithmetic *)

Section IntFacts.

Lemma wrap_id z : Int.in_range z -> Int.wrap z = z.
Proof.
  unfold Int.in_range, Int.wrap, Int.min_signed, Int.max_signed. intros Hz.
  rewrite Z.mod_small by lia. lia.
Qed.

Lemma wrap_range z : Int.in_range (Int.wrap z).
Proof.
  unfold Int.in_range, Int.wrap, Int.min_signed, Int.max_signed.
  pose proof (Z.mod_pos_bound (z + 2147483648) 4294967296 ltac:(lia)). lia.
Qed.

Lemma wrap_eqm z : (Int.wrap z) mod 4294967296 = z mod 4294967296.
Proof.
  unfold Int.wrap.
  replace (z + 2147483648) with (z - (-2147483648)) by lia.
  rewrite Zminus_mod, Zmod_mod, <- Zminus_mod. f_equal. lia.
Qed.

Lemma wrap_congr a b :
  a mod 4294967296 = b mod 4294967296 -> Int.wrap a = Int.wrap b.
Proof.
  unfold Int.wrap. intros H.
  rewrite (Zplus_mod a), (Zplus_mod b), H. reflexivity.
Qed.

Lemma wrap_add_l a b : Int.wrap (Int.wrap a + b) = Int.wrap (a + b).
Proof.
  apply wrap_congr.
  rewrite Zplus_mod, wrap_eqm, <- Zplus_mod. reflexivity.
Qed.

Lemma wrap_add_r a b : Int.wrap (a + Int.wrap b) = Int.wrap (a + b).
Proof.
  rewrite (Z.add_comm a), wrap_add_l. f_equal. lia.
Qed.

Lemma wrap_mul_l a b : Int.wrap (Int.wrap a * b) = Int.wrap (a * b).
Proof.
  apply wrap_congr.
  rewrite Zmult_mod, wrap_eqm, <- Zmult_mod. reflexivity.
Qed.

(** The wrapped sum of wrapped products is the wrapped exact value. *)
Lemma offset_arith sz q bt :
  Int.add (Int.mul (Int.mul sz 2) q) (Int.mul sz bt)
  = Int.wrap (sz * 2 * q + sz * bt).
Proof.
  unfold Int.add, Int.mul.
  rewrite wrap_add_l, wrap_add_r.
  rewrite <- (wrap_add_l (Int.wrap (sz * 2) * q)), wrap_mul_l, wrap_add_l.
  reflexivity.
Qed.

Lemma libsvm_index_exact i o :
  Int.in_range (i + o + 1) -> libsvm_index i o = i + o + 1.
Proof.
  intros H. unfold libsvm_index, Int.add.
  rewrite wrap_add_l. apply wrap_id, H.
Qed.

End IntFacts.

(** ** Running the primitives *)

Section Run.

Lemma run_bind {A B : Type} (c : M A) (k : A -> M B) m a m' :
  c m = Some (a, m') -> (c ≫= k) m = k a m'.
Proof. intros H. unfold mbind, M_bind. rewrite H. reflexivity. Qed.

Lemma run_bind_None {A B : Type} (c : M A) (k : A -> M B) m :
  c m = None -> (c ≫= k) m = None.
Proof. intros H. unfold mbind, M_bind. rewrite H. reflexivity. Qed.

Lemma run_ret {A : Type} (a : A) m : mret (M := M) a m = Some (a, m).
Proof. reflexivity. Qed.

Lemma run_assert b m : b = true -> assert b m = Some (tt, m).
Proof. intros ->. reflexivity. Qed.

Lemma run_get {A : Type} (fld : SCIP_FEAT -> A) p f m :
  nonnull p = true -> feats m !! p = Some f -> get fld p m = Some (fld f, m).
Proof. intros Hp Hf. unfold get. rewrite Hp, Hf. reflexivity. Qed.

Lemma run_put {A : Type} (upd : A -> SCIP_FEAT -> SCIP_FEAT) p x f m :
  nonnull p = true -> feats m !! p = Some f ->
  put upd p x m = Some (tt, with_feats (<[p := upd x f]> (feats m)) m).
Proof. intros Hp Hf. unfold put. rewrite Hp, Hf. reflexivity. Qed.

Lemma run_load_real a i xs x m :
  reals m !! a = Some xs -> 0 <= i -> xs !! Z.to_nat i = Some x ->
  load_real a i m = Some (x, m).
Proof.
  intros Ha Hi Hx. unfold load_real. rewrite Ha.
  destruct (Z.leb_spec 0 i); [|lia]. rewrite Hx. reflexivity.
Qed.

Lemma run_store_real a i x xs m :
  reals m !! a = Some xs -> 0 <= i < Z.of_nat (length xs) ->
  store_real a i x m
  = Some (tt, with_reals (<[a := <[Z.to_nat i := x]> xs]> (reals m)) m).
Proof.
  intros Ha Hi. unfold store_real. rewrite Ha.
  destruct (Z.leb_spec 0 i); [|lia].
  destruct (Z.ltb_spec i (Z.of_nat (length xs))); [|lia]. reflexivity.
Qed.

Lemma run_get_val p i f xs x m :
  nonnull p = true -> feats m !! p = Some f -> reals m !! vals f = Some xs ->
  0 <= i -> xs !! Z.to_nat i = Some x ->
  get_val p i m = Some (x, m).
Proof.
  intros Hp Hf Ha Hi Hx. unfold get_val.
  rewrite (run_bind _ _ _ _ _ (run_get vals p f m Hp Hf)).
  eapply run_load_real; eauto.
Qed.

Lemma run_put_val p i x f xs m :
  nonnull p = true -> feats m !! p = Some f -> reals m !! vals f = Some xs ->
  0 <= i < Z.of_nat (length xs) ->
  put_val p i x m
  = Some (tt, with_reals (<[vals f := <[Z.to_nat i := x]> xs]> (reals m)) m).
Proof.
  intros Hp Hf Ha Hi. unfold put_val.
  rewrite (run_bind _ _ _ _ _ (run_get vals p f m Hp Hf)).
  eapply run_store_real; eauto.
Qed.

(** [SCIPfeatGetOffset] reads one structure and leaves the memory alone. *)
Lemma run_offset p m :
  SCIPfeatGetOffset p m =
  if nonnull p then
    match feats m !! p with
    | Some f => match offset_of f with Some o => Some (o, m) | None => None end
    | None => None
    end
  else None.
Proof.
  unfold SCIPfeatGetOffset, offset_of, get, assert, lift, fail.
  unfold mbind, M_bind, mret, M_ret, option_bind.
  destruct (nonnull p); [|reflexivity].
  destruct (feats m !! p) as [f|] eqn:Hf; cbn; [|reflexivity].
  rewrite !Hf; cbn.
  destruct (Int.divs (maxdepth f) 10) as [t|]; cbn; [|reflexivity].
  destruct (Int.divs (depth f) t) as [q|]; cbn; [|reflexivity].
  rewrite Hf. reflexivity.
Qed.

Lemma run_size p f m :
  nonnull p = true -> feats m !! p = Some f ->
  SCIPfeatGetSize p m = Some (size f, m).
Proof.
  intros Hp Hf. unfold SCIPfeatGetSize.
  rewrite (run_bind _ _ _ _ _ (run_assert _ m Hp)).
  apply run_get; assumption.
Qed.

End Run.

(** ** The offset of a vector *)

Lemma offset_of_wrap f t q :
  Int.divs (maxdepth f) 10 = Some t -> Int.divs (depth f) t = Some q ->
  offset_of f = Some (Int.wrap (offset_trunc f)).
Proof.
  intros Ht Hq. unfold offset_of. rewrite Ht. cbn. rewrite Hq. cbn.
  rewrite offset_arith. unfold offset_trunc.
  unfold Int.divs in Ht, Hq.
  destruct ((10 =? 0) || _); [discriminate|].
  destruct ((t =? 0) || _); [discriminate|].
  congruence.
Qed.

Lemma offset_of_floor f :
  10 <= maxdepth f -> 0 <= depth f -> Int.in_range (offset_floor f) ->
  offset_of f = Some (offset_floor f).
Proof.
  intros Hmd Hd Hr.
  assert (Ht : maxdepth f ÷ 10 = maxdepth f / 10) by (apply Z.quot_div_nonneg; lia).
  assert (Hpos : 0 < maxdepth f / 10) by (apply Z.div_str_pos; lia).
  assert (Hq : depth f ÷ (maxdepth f / 10) = depth f / (maxdepth f / 10))
    by (apply Z.quot_div_nonneg; lia).
  assert (Htr : offset_trunc f = offset_floor f)
    by (unfold offset_trunc, offset_floor; rewrite Ht, Hq; reflexivity).
  rewrite (offset_of_wrap f (maxdepth f / 10) (depth f / (maxdepth f / 10))).
  - rewrite Htr, wrap_id by assumption. reflexivity.
  - unfold Int.divs. cbn. rewrite andb_false_r, Ht. reflexivity.
  - unfold Int.divs.
    destruct (Z.eqb_spec (maxdepth f / 10) 0); [lia|].
    destruct (Z.eqb_spec (maxdepth f / 10) (-1)); [lia|].
    rewrite andb_false_r. cbn. rewrite Hq. reflexivity.
Qed.

(** ** The writers *)

Section Writers.

Lemma with_out_id m : with_out (out m) m = m.
Proof. destruct m; reflexivity. Qed.

(** A loop whose body at [j] appends [e j] to the stream and changes
    nothing else appends [e i, e (i+1), ...]. *)
Lemma run_for_from (body : Z -> M unit) (e : Z -> Msg) m k :
  forall i o,
  (forall j o', i <= j < i + Z.of_nat k ->
     body j (with_out o' m) = Some (tt, with_out (o' ++ [e j]) m)) ->
  for_from i k body (with_out o m)
  = Some (tt, with_out (o ++ (e <$> seqZ i (Z.of_nat k))) m).
Proof.
  induction k as [|k IH]; intros i o Hbody.
  - cbn. rewrite app_nil_r. reflexivity.
  - cbn [for_from].
    rewrite (run_bind _ _ _ _ _ (Hbody i o ltac:(lia))).
    rewrite IH by (intros j o' Hj; apply Hbody; lia).
    rewrite (seqZ_cons i (Z.of_nat (S k))) by lia.
    rewrite fmap_cons, <- app_assoc. cbn [app].
    replace (Z.pred (Z.of_nat (S k))) with (Z.of_nat k) by lia.
    reflexivity.
Qed.

Lemma run_for_loop (body : Z -> M unit) (e : Z -> Msg) m n o :
  (forall j o', 0 <= j < n ->
     body j (with_out o' m) = Some (tt, with_out (o' ++ [e j]) m)) ->
  for_loop n body (with_out o m)
  = Some (tt, with_out (o ++ (e <$> seqZ 0 n)) m).
Proof.
  intros Hbody. unfold for_loop.
  destruct (Z.le_gt_cases n 0) as [Hn|Hn].
  - replace (Z.to_nat n) with 0%nat by lia. cbn.
    rewrite seqZ_nil by lia. cbn. rewrite app_nil_r. reflexivity.
  - rewrite (run_for_from body e) by (intros j o' Hj; apply Hbody; lia).
    rewrite Z2Nat.id by lia. reflexivity.
Qed.

Lemma run_info e o m :
  SCIPinfoMessage e (with_out o m) = Some (tt, with_out (o ++ [e]) m).
Proof. reflexivity. Qed.

Lemma block_length o n xs :
  n <= Z.of_nat (length xs) -> length (block o n xs) = Z.to_nat n.
Proof.
  intros Hn. unfold block.
  rewrite length_zip_with_l; rewrite length_seqZ; lia.
Qed.

Lemma block_lookup o n xs i x :
  Z.of_nat i < n -> xs !! i = Some x ->
  block o n xs !! i = Some (MsgPair (Z.of_nat i + o + 1) x).
Proof.
  intros Hi Hx. unfold block.
  rewrite lookup_zip_with, lookup_seqZ_lt, Hx by lia. cbn.
  do 2 f_equal. lia.
Qed.

(** What a loop over the slots of [xs] emits is a block. *)
Lemma emitted_block (g : SCIP_Real -> SCIP_Real) o n xs :
  n <= Z.of_nat (length xs) -> Int.in_range o -> o + n <= Int.max_signed ->
  (fun j => MsgPair (libsvm_index j o) (g (xs !!! Z.to_nat j))) <$> seqZ 0 n
  = block o n (g <$> xs).
Proof.
  intros Hn Ho Hmax. apply list_eq. intros i.
  unfold block. rewrite list_lookup_fmap, lookup_zip_with, list_lookup_fmap.
  destruct (Z.lt_ge_cases (Z.of_nat i) n) as [Hi|Hi].
  - rewrite !lookup_seqZ_lt by lia. cbn.
    destruct (lookup_lt_is_Some_2 xs i ltac:(lia)) as [x Hx].
    rewrite Hx. cbn.
    replace (Z.to_nat (0 + Z.of_nat i)) with i by lia.
    rewrite (list_lookup_total_correct _ _ _ Hx).
    rewrite libsvm_index_exact
      by (unfold Int.in_range, Int.min_signed, Int.max_signed in *; lia).
    do 2 f_equal. lia.
  - rewrite !lookup_seqZ_ge by lia. reflexivity.
Qed.

Lemma offset_of_range f o : offset_of f = Some o -> Int.in_range o.
Proof.
  unfold offset_of. intros H.
  destruct (Int.divs (maxdepth f) 10) as [t|]; [cbn in H|discriminate].
  destruct (Int.divs (depth f) t) as [q|]; [cbn in H|discriminate].
  injection H as <-. apply wrap_range.
Qed.

Lemma offset_of_run p m f o :
  nonnull p = true -> feats m !! p = Some f ->
  SCIPfeatGetOffset p m = Some (o, m) -> offset_of f = Some o.
Proof.
  intros Hp Hf. rewrite run_offset, Hp, Hf.
  destruct (offset_of f); congruence.
Qed.

Lemma run_offset_Some p m f o :
  nonnull p = true -> feats m !! p = Some f -> offset_of f = Some o ->
  SCIPfeatGetOffset p m = Some (o, m).
Proof. intros Hp Hf Ho. rewrite run_offset, Hp, Hf, Ho. reflexivity. Qed.

(** The body of a one-vector loop. *)
Lemma run_emit_one (g : SCIP_Real -> SCIP_Real) p f xs o m j o' :
  nonnull p = true -> feats m !! p = Some f -> reals m !! vals f = Some xs ->
  0 <= j < Z.of_nat (length xs) ->
  (x ← get_val p j; SCIPinfoMessage (MsgPair (libsvm_index j o) (g x)))
    (with_out o' m)
  = Some (tt, with_out
            (o' ++ [MsgPair (libsvm_index j o) (g (xs !!! Z.to_nat j))]) m).
Proof.
  intros Hp Hf Hxs Hj.
  destruct (lookup_lt_is_Some_2 xs (Z.to_nat j) ltac:(lia)) as [x Hx].
  rewrite (run_bind _ _ _ x (with_out o' m))
    by (eapply run_get_val; eauto; lia).
  rewrite (list_lookup_total_correct _ _ _ Hx). reflexivity.
Qed.

Lemma pair_indices_app l1 l2 :
  pair_indices (l1 ++ l2) = pair_indices l1 ++ pair_indices l2.
Proof. apply omap_app. Qed.

Lemma pair_indices_block o n xs :
  n <= Z.of_nat (length xs) -> pair_indices (block o n xs) = seqZ (o + 1) n.
Proof.
  unfold block, pair_indices. generalize (o + 1). intros s.
  destruct (Z.le_gt_cases n 0) as [Hn|Hn].
  { rewrite seqZ_nil by lia. reflexivity. }
  rewrite <- (Z2Nat.id n) by lia. generalize (Z.to_nat n). clear Hn.
  intros k. revert s xs. induction k as [|k IH]; intros s xs Hk.
  - reflexivity.
  - destruct xs as [|x xs]; [cbn in Hk; lia|].
    rewrite seqZ_cons by lia. cbn [zip_with omap].
    replace (Z.pred (Z.of_nat (S k))) with (Z.of_nat k) by lia.
    cbn. f_equal. apply IH. cbn in Hk. lia.
Qed.

Lemma ascending_seqZ s n : ascending (seqZ s n).
Proof.
  intros i j a b Hij Ha Hb.
  apply lookup_seqZ in Ha, Hb. lia.
Qed.

End Writers.

Lemma run_print_single m p f xs o label :
  nonnull p = true -> feats m !! p = Some f -> depth f <> 0 ->
  reals m !! vals f = Some xs -> size f <= Z.of_nat (length xs) ->
  offset_of f = Some o -> o + size f <= Int.max_signed ->
  SCIPfeatLIBSVMPrint p label m
  = Some (tt, with_out
            (out m ++ MsgLabel label :: block o (size f) xs ++ [MsgNewline]) m).
Proof.
  intros Hp Hf Hd Hxs Hlen Ho Hmax. unfold SCIPfeatLIBSVMPrint.
  rewrite (run_bind _ _ _ _ _ (run_assert _ m Hp)).
  rewrite (run_bind _ _ _ _ _ (run_get depth p f m Hp Hf)).
  rewrite (run_bind _ _ _ tt m)
    by (apply run_assert; destruct (Z.eqb_spec (depth f) 0); [lia|reflexivity]).
  rewrite (run_bind _ _ _ _ _ (run_size p f m Hp Hf)).
  rewrite (run_bind _ _ _ _ _ (run_offset_Some p m f o Hp Hf Ho)).
  rewrite <- (with_out_id m) at 1.
  rewrite (run_bind _ _ _ _ _ (run_info _ _ _)).
  rewrite (run_bind _ _ _ tt
             (with_out ((out m ++ [MsgLabel label])
                        ++ ((fun j => MsgPair (libsvm_index j o)
                                        ((fun x => x) (xs !!! Z.to_nat j)))
                              <$> seqZ 0 (size f))) m)).
  - rewrite run_info.
    rewrite (emitted_block (fun x => x)), list_fmap_id
      by eauto using offset_of_range.
    rewrite <- !app_assoc. reflexivity.
  - apply run_for_loop. intros j o' Hj.
    apply (run_emit_one (fun x => x) p f xs o m j o'); auto. lia.
Qed.

Section PrintDiff.

Lemma diff_asserts_sym p1 p2 m : diff_asserts p1 p2 m = diff_asserts p2 p1 m.
Proof.
  unfold diff_asserts.
  rewrite (andb_comm (nonnull p1)). f_equal.
  destruct (feats m !! p1) as [f1|], (feats m !! p2) as [f2|]; try reflexivity.
  rewrite (Z.eqb_sym (size f1)).
  rewrite (andb_comm (negb (depth f1 =? 0))). reflexivity.
Qed.

Lemma diff_print_unfold p1 p2 label negate m :
  SCIPfeatDiffLIBSVMPrint p1 p2 label negate m =
  if diff_asserts p1 p2 m then
    (if negate then diff_body p2 p1 (Int.mul (-1) label)
     else diff_body p1 p2 label) m
  else None.
Proof.
  unfold SCIPfeatDiffLIBSVMPrint, diff_asserts.
  destruct (nonnull p1) eqn:H1;
    [rewrite (run_bind _ _ _ tt m) by reflexivity
    |rewrite run_bind_None by reflexivity; reflexivity].
  destruct (nonnull p2) eqn:H2;
    [rewrite (run_bind _ _ _ tt m) by reflexivity
    |rewrite run_bind_None by reflexivity; reflexivity].
  cbn [andb].
  destruct (feats m !! p1) as [f1|] eqn:Hf1;
    [rewrite (run_bind _ _ _ _ _ (run_get depth p1 f1 m H1 Hf1))
    |rewrite run_bind_None by (unfold get; rewrite H1, Hf1; reflexivity);
     reflexivity].
  destruct (negb (depth f1 =? 0));
    [rewrite (run_bind _ _ _ tt m) by reflexivity
    |rewrite run_bind_None by reflexivity; destruct (feats m !! p2); reflexivity].
  destruct (feats m !! p2) as [f2|] eqn:Hf2;
    [rewrite (run_bind _ _ _ _ _ (run_get depth p2 f2 m H2 Hf2))
    |rewrite run_bind_None by (unfold get; rewrite H2, Hf2; reflexivity);
     reflexivity].
  cbn [andb].
  destruct (negb (depth f2 =? 0));
    [rewrite (run_bind _ _ _ tt m) by reflexivity
    |rewrite run_bind_None by reflexivity; reflexivity].
  rewrite (run_bind _ _ _ _ _ (run_get size p1 f1 m H1 Hf1)).
  rewrite (run_bind _ _ _ _ _ (run_get size p2 f2 m H2 Hf2)).
  cbn [andb].
  destruct (size f1 =? size f2);
    [rewrite (run_bind _ _ _ tt m) by reflexivity
    |rewrite run_bind_None by reflexivity; reflexivity].
  destruct negate; reflexivity.
Qed.

(** Setting [negate] is swapping the vectors and multiplying the label
    by [-1]. *)
Lemma diff_print_negate p1 p2 label m :
  SCIPfeatDiffLIBSVMPrint p1 p2 label true m
  = SCIPfeatDiffLIBSVMPrint p2 p1 (Int.mul (-1) label) false m.
Proof.
  rewrite !diff_print_unfold, (diff_asserts_sym p1 p2). reflexivity.
Qed.

(** The body of the merged loop. *)
Lemma run_emit_two p1 p2 f1 f2 xs1 xs2 o m j o' :
  nonnull p1 = true -> feats m !! p1 = Some f1 ->
  reals m !! vals f1 = Some xs1 ->
  nonnull p2 = true -> feats m !! p2 = Some f2 ->
  reals m !! vals f2 = Some xs2 ->
  0 <= j < Z.of_nat (length xs1) -> j < Z.of_nat (length xs2) ->
  (x1 ← get_val p1 j; x2 ← get_val p2 j;
   SCIPinfoMessage (MsgPair (libsvm_index j o) (x1 - x2)%float))
    (with_out o' m)
  = Some (tt, with_out
            (o' ++ [MsgPair (libsvm_index j o)
                      (zip_with PrimFloat.sub xs1 xs2 !!! Z.to_nat j)]) m).
Proof.
  intros Hp1 Hf1 Hxs1 Hp2 Hf2 Hxs2 Hj1 Hj2.
  destruct (lookup_lt_is_Some_2 xs1 (Z.to_nat j) ltac:(lia)) as [x1 Hx1].
  destruct (lookup_lt_is_Some_2 xs2 (Z.to_nat j) ltac:(lia)) as [x2 Hx2].
  rewrite (run_bind _ _ _ x1 (with_out o' m))
    by (eapply run_get_val; eauto; lia).
  rewrite (run_bind _ _ _ x2 (with_out o' m))
    by (eapply run_get_val; eauto; lia).
  rewrite (list_lookup_total_correct (zip_with PrimFloat.sub xs1 xs2)
             (Z.to_nat j) (x1 - x2)%float)
    by (rewrite lookup_zip_with, Hx1, Hx2; reflexivity).
  reflexivity.
Qed.

Lemma run_diff_body m p1 p2 f1 f2 xs1 xs2 o1 o2 label :
  nonnull p1 = true -> feats m !! p1 = Some f1 ->
  reals m !! vals f1 = Some xs1 ->
  nonnull p2 = true -> feats m !! p2 = Some f2 ->
  reals m !! vals f2 = Some xs2 ->
  size f1 <= Z.of_nat (length xs1) -> size f1 <= Z.of_nat (length xs2) ->
  offset_of f1 = Some o1 -> offset_of f2 = Some o2 ->
  o1 + size f1 <= Int.max_signed -> o2 + size f1 <= Int.max_signed ->
  diff_body p1 p2 label m
  = Some (tt, with_out
            (out m ++ MsgLabel label
               :: diff_pairs o1 o2 (size f1) xs1 xs2 ++ [MsgNewline]) m).
Proof.
  intros Hp1 Hf1 Hxs1 Hp2 Hf2 Hxs2 Hl1 Hl2 Ho1 Ho2 Hm1 Hm2.
  pose proof (offset_of_range _ _ Ho1) as Hr1.
  pose proof (offset_of_range _ _ Ho2) as Hr2.
  unfold diff_body, diff_pairs.
  rewrite (run_bind _ _ _ _ _ (run_size p1 f1 m Hp1 Hf1)).
  rewrite (run_bind _ _ _ _ _ (run_offset_Some p1 m f1 o1 Hp1 Hf1 Ho1)).
  rewrite (run_bind _ _ _ _ _ (run_offset_Some p2 m f2 o2 Hp2 Hf2 Ho2)).
  rewrite <- (with_out_id m) at 1.
  rewrite (run_bind _ _ _ _ _ (run_info _ _ _)).
  set (o := out m ++ [MsgLabel label]).
  assert (HA : forall o',
    for_loop (size f1) (fun i =>
      x1 ← get_val p1 i;
      SCIPinfoMessage (MsgPair (libsvm_index i o1) x1)) (with_out o' m)
    = Some (tt, with_out (o' ++ block o1 (size f1) xs1) m)).
  { intros o'.
    rewrite <- (list_fmap_id xs1).
    rewrite <- (emitted_block (fun x => x)) by assumption.
    apply run_for_loop. intros j o'' Hj.
    apply (run_emit_one (fun x => x) p1 f1 xs1 o1 m j o''); auto. lia. }
  assert (HB : forall o',
    for_loop (size f1) (fun i =>
      x2 ← get_val p2 i;
      SCIPinfoMessage (MsgPair (libsvm_index i o2) (- x2)%float)) (with_out o' m)
    = Some (tt, with_out (o' ++ block o2 (size f1) (PrimFloat.opp <$> xs2)) m)).
  { intros o'.
    rewrite <- (emitted_block PrimFloat.opp) by assumption.
    apply run_for_loop. intros j o'' Hj.
    apply (run_emit_one PrimFloat.opp p2 f2 xs2 o2 m j o''); auto. lia. }
  destruct (o1 =? o2).
  - rewrite (run_bind _ _ _ tt
      (with_out (o ++ block o1 (size f1) (zip_with PrimFloat.sub xs1 xs2)) m)).
    + rewrite run_info. subst o. rewrite <- !app_assoc. reflexivity.
    + rewrite <- (list_fmap_id (zip_with _ xs1 xs2)).
      rewrite <- (emitted_block (fun x => x))
        by (try assumption; rewrite length_zip_with; lia).
      apply run_for_loop. intros j o'' Hj.
      apply (run_emit_two p1 p2 f1 f2 xs1 xs2 o1 m j o''); auto; lia.
  - destruct (o1 <? o2).
    + rewrite (run_bind _ _ _ tt
        (with_out ((o ++ block o1 (size f1) xs1)
                   ++ block o2 (size f1) (PrimFloat.opp <$> xs2)) m)).
      * rewrite run_info. subst o. rewrite <- !app_assoc. reflexivity.
      * rewrite (run_bind _ _ _ _ _ (HA o)). apply HB.
    + rewrite (run_bind _ _ _ tt
        (with_out ((o ++ block o2 (size f1) (PrimFloat.opp <$> xs2))
                   ++ block o1 (size f1) xs1) m)).
      * rewrite run_info. subst o. rewrite <- !app_assoc. reflexivity.
      * rewrite (run_bind _ _ _ _ _ (HB o)). apply HA.
Qed.

End PrintDiff.

Section DiffFacts.

Lemma neg_label label :
  Int.min_signed < label <= Int.max_signed -> Int.mul (-1) label = - label.
Proof.
  intros H. unfold Int.mul.
  replace (-1 * label) with (- label) by lia.
  apply wrap_id. unfold Int.in_range, Int.min_signed, Int.max_signed in *. lia.
Qed.

Lemma ascending_two_blocks s1 s2 n :
  s1 + n <= s2 -> ascending (seqZ s1 n ++ seqZ s2 n).
Proof.
  intros Hs i j a b Hij Ha Hb.
  apply lookup_app_Some in Ha, Hb. rewrite !length_seqZ in *.
  destruct Ha as [Ha|[Hi Ha]], Hb as [Hb|[Hj Hb]];
    apply lookup_seqZ in Ha, Hb; lia.
Qed.

(** Without overflow the offset is a multiple of the size. *)
Lemma offset_multiple f o :
  offset_of f = Some o -> Int.in_range (offset_trunc f) ->
  exists k, o = size f * k.
Proof.
  intros Ho Hr. unfold offset_of in Ho.
  destruct (Int.divs (maxdepth f) 10) as [t|] eqn:Ht; [cbn in Ho|discriminate].
  destruct (Int.divs (depth f) t) as [q|] eqn:Hq; [cbn in Ho|discriminate].
  pose proof (offset_of_wrap f t q Ht Hq) as Hw.
  unfold offset_of in Hw. rewrite Ht in Hw. cbn in Hw. rewrite Hq in Hw.
  cbn in Hw. rewrite Ho in Hw. injection Hw as ->.
  rewrite wrap_id by assumption.
  exists (2 * (depth f ÷ (maxdepth f ÷ 10)) + boundtype f).
  unfold offset_trunc. lia.
Qed.

Lemma offsets_apart f1 f2 o1 o2 :
  offset_of f1 = Some o1 -> offset_of f2 = Some o2 ->
  Int.in_range (offset_trunc f1) -> Int.in_range (offset_trunc f2) ->
  size f1 = size f2 -> 0 < size f1 -> o1 < o2 -> o1 + size f1 <= o2.
Proof.
  intros Ho1 Ho2 Hr1 Hr2 Hs Hpos Hlt.
  destruct (offset_multiple f1 o1 Ho1 Hr1) as [k1 ->].
  destruct (offset_multiple f2 o2 Ho2 Hr2) as [k2 ->].
  rewrite <- Hs in *.
  assert (Hk : k1 < k2) by (apply (Z.mul_lt_mono_pos_l (size f1)); lia).
  apply Z.le_trans with (size f1 * (k1 + 1)); [lia|].
  apply Z.mul_le_mono_nonneg_l; lia.
Qed.

(** The pair indices of the two blocks of a line with distinct offsets
    ascend across both blocks. *)
Lemma diff_pairs_ascending f1 f2 o1 o2 xs1 xs2 :
  offset_of f1 = Some o1 -> offset_of f2 = Some o2 ->
  Int.in_range (offset_trunc f1) -> Int.in_range (offset_trunc f2) ->
  size f1 = size f2 -> o1 <> o2 ->
  size f1 <= Z.of_nat (length xs1) -> size f1 <= Z.of_nat (length xs2) ->
  ascending (pair_indices (diff_pairs o1 o2 (size f1) xs1 xs2)).
Proof.
  intros Ho1 Ho2 Hr1 Hr2 Hs Hne Hl1 Hl2. unfold diff_pairs.
  destruct (Z.eqb_spec o1 o2); [contradiction|].
  destruct (Z.le_gt_cases (size f1) 0) as [Hn|Hn].
  { unfold block. rewrite !seqZ_nil by lia.
    destruct (o1 <? o2); intros i j a b _ Ha; destruct i; discriminate. }
  destruct (Z.ltb_spec o1 o2) as [Hlt|Hge];
    rewrite pair_indices_app, !pair_indices_block
      by (rewrite ?length_fmap; assumption);
    apply ascending_two_blocks.
  - pose proof (offsets_apart f1 f2 o1 o2 Ho1 Ho2 Hr1 Hr2 Hs Hn Hlt). lia.
  - assert (Hlt : o2 < o1) by lia.
    pose proof (offsets_apart f2 f1 o2 o1 Ho2 Ho1 Hr2 Hr1 (eq_sym Hs)
                  ltac:(lia) Hlt). lia.
Qed.

End DiffFacts.

(** ** The feature calculation *)

Section CalcRun.

Context {E : Enumerators}.

Lemma upd_length i x xs : length (upd i x xs) = length xs.
Proof. apply length_insert. Qed.

Lemma upd_if_length c i x xs : length (upd_if c i x xs) = length xs.
Proof. destruct c; [apply upd_length|reflexivity]. Qed.

Lemma upd_lookup_eq i x xs :
  0 <= i < Z.of_nat (length xs) -> upd i x xs !! Z.to_nat i = Some x.
Proof. intros Hi. apply list_lookup_insert_eq. lia. Qed.

Lemma upd_lookup_ne i j x xs :
  0 <= i -> 0 <= j -> i <> j -> upd i x xs !! Z.to_nat j = xs !! Z.to_nat j.
Proof. intros Hi Hj Hne. apply list_lookup_insert_ne. lia. Qed.

Lemma upd_if_lookup_ne c i j x xs :
  0 <= i -> 0 <= j -> i <> j -> upd_if c i x xs !! Z.to_nat j = xs !! Z.to_nat j.
Proof. destruct c; [apply upd_lookup_ne|reflexivity]. Qed.

(** Side conditions of the stores: the slot is inside the array. *)
Ltac slot_side :=
  repeat first [rewrite upd_length | rewrite upd_if_length];
  try assumption; lia.

Lemma calc_vals_length scip node bc0 md xs :
  length (calc_vals scip node bc0 md xs) = length xs.
Proof.
  unfold calc_vals. cbv zeta.
  repeat first [rewrite upd_length | rewrite upd_if_length]. reflexivity.
Qed.

(** One store into the vector whose structure is [f], on a memory that
    holds the array [xs] for it. *)
Lemma last_put_val F R O p f i x xs :
  nonnull p = true -> F !! p = Some f -> 0 <= i < Z.of_nat (length xs) ->
  put_val p i x (mkMem F (<[vals f := xs]> R) O)
  = Some (tt, mkMem F (<[vals f := upd i x xs]> R) O).
Proof.
  intros Hp Hf Hi.
  rewrite (run_put_val p i x f xs); try assumption.
  - unfold with_reals, upd. cbn. rewrite insert_insert_eq. reflexivity.
  - cbn. apply lookup_insert_eq.
Qed.

Lemma step_put_val {B : Type} F R O p f i x xs (k : unit -> M B) :
  nonnull p = true -> F !! p = Some f -> 0 <= i < Z.of_nat (length xs) ->
  (put_val p i x ≫= k) (mkMem F (<[vals f := xs]> R) O)
  = k tt (mkMem F (<[vals f := upd i x xs]> R) O).
Proof.
  intros Hp Hf Hi. apply run_bind, last_put_val; assumption.
Qed.

Lemma step_put {A B : Type} (u : A -> SCIP_FEAT -> SCIP_FEAT) F R O p f x
    (k : unit -> M B) :
  nonnull p = true ->
  (put u p x ≫= k) (mkMem (<[p := f]> F) R O)
  = k tt (mkMem (<[p := u x f]> F) R O).
Proof.
  intros Hp. apply run_bind.
  rewrite (run_put u p x f) by (try assumption; cbn; apply lookup_insert_eq).
  unfold with_feats. cbn. rewrite insert_insert_eq. reflexivity.
Qed.

Lemma step_get {A B : Type} (fld : SCIP_FEAT -> A) F R O p f (k : A -> M B) :
  nonnull p = true -> F !! p = Some f ->
  (get fld p ≫= k) (mkMem F R O) = k (fld f) (mkMem F R O).
Proof. intros Hp Hf. apply run_bind, run_get; assumption. Qed.

Lemma mem_canonical m p f xs :
  feats m !! p = Some f -> reals m !! vals f = Some xs ->
  m = mkMem (<[p := f]> (feats m)) (<[vals f := xs]> (reals m)) (out m).
Proof.
  intros Hf Hxs. rewrite !insert_id by assumption. destruct m; reflexivity.
Qed.

Lemma step_put_val_if {B : Type} F R O p f (c : bool) i x xs (k : unit -> M B) :
  nonnull p = true -> F !! p = Some f -> 0 <= i < Z.of_nat (length xs) ->
  ((if c then put_val p i x else mret tt) ≫= k) (mkMem F (<[vals f := xs]> R) O)
  = k tt (mkMem F (<[vals f := upd_if c i x xs]> R) O).
Proof.
  intros Hp Hf Hi. destruct c; [apply step_put_val; assumption|reflexivity].
Qed.

Lemma step_put_val_if2 {B : Type} F R O p f (c1 c2 : bool) i1 i2 x xs
    (k : unit -> M B) :
  nonnull p = true -> F !! p = Some f ->
  0 <= i1 < Z.of_nat (length xs) -> 0 <= i2 < Z.of_nat (length xs) ->
  ((if c1 then put_val p i1 x else if c2 then put_val p i2 x else mret tt) ≫= k)
    (mkMem F (<[vals f := xs]> R) O)
  = k tt (mkMem F (<[vals f :=
            upd_if (negb c1 && c2) i2 x (upd_if c1 i1 x xs)]> R) O).
Proof.
  intros Hp Hf Hi1 Hi2.
  destruct c1; [apply step_put_val; assumption|].
  destruct c2; [apply step_put_val; assumption|reflexivity].
Qed.

Lemma step_put_val_if3 {B : Type} F R O p f (c1 c2 c3 : bool) i1 i2 i3 x xs
    (k : unit -> M B) :
  nonnull p = true -> F !! p = Some f ->
  0 <= i1 < Z.of_nat (length xs) -> 0 <= i2 < Z.of_nat (length xs) ->
  0 <= i3 < Z.of_nat (length xs) ->
  ((if c1 then put_val p i1 x else if c2 then put_val p i2 x
    else if c3 then put_val p i3 x else mret tt) ≫= k)
    (mkMem F (<[vals f := xs]> R) O)
  = k tt (mkMem F (<[vals f :=
            upd_if (negb c1 && negb c2 && c3) i3 x
              (upd_if (negb c1 && c2) i2 x (upd_if c1 i1 x xs))]> R) O).
Proof.
  intros Hp Hf Hi1 Hi2 Hi3.
  destruct c1; [apply step_put_val; assumption|].
  destruct c2; [apply step_put_val; assumption|].
  destruct c3; [apply step_put_val; assumption|reflexivity].
Qed.

(** The calculation on a valid node and a vector whose array holds every
    slot: the result and the memory after it. *)
Lemma run_calc scip node bc0 p f xs m :
  nonnull p = true -> feats m !! p = Some f -> reals m !! vals f = Some xs ->
  maxdepth f <> 0 -> node_valid node bc0 -> slots_fit (length xs) ->
  SCIPcalcNodeselFeat scip node p m
  = Some (tt, mkMem
            (<[p := set_boundtype (bc_boundtype bc0)
                      (set_depth (SCIPnodeGetDepth node) f)]> (feats m))
            (<[vals f := calc_vals scip node bc0 (maxdepth f) xs]> (reals m))
            (out m)).
Proof.
  intros Hp Hf Hxs Hmd (Hdepth & Hbc & Hty) Hfit.
  unfold slots_fit, feat_slots in Hfit.
  rewrite !Forall_cons in Hfit. destruct_and!.
  unfold SCIPcalcNodeselFeat.
  rewrite (run_bind _ _ _ tt m)
    by (apply run_assert; destruct (Z.eqb_spec (SCIPnodeGetDepth node) 0);
        [contradiction|reflexivity]).
  rewrite (run_bind _ _ _ _ _ (run_assert _ m Hp)).
  rewrite (run_bind _ _ _ _ _ (run_get maxdepth p f m Hp Hf)).
  rewrite (run_bind _ _ _ tt m)
    by (apply run_assert; destruct (Z.eqb_spec (maxdepth f) 0);
        [contradiction|reflexivity]).
  destruct (boundchgs node) as [|bc l]; [discriminate|].
  injection Hbc as ->.
  rewrite (run_bind _ _ _ tt m)
    by (apply run_assert, Z.eqb_eq; assumption).
  cbv zeta.
  rewrite (mem_canonical m p f xs Hf Hxs) at 1.
  rewrite step_put by assumption.
  rewrite step_put by assumption.
  set (f' := set_boundtype _ _).
  assert (Hf' : <[p := f']> (feats m) !! p = Some f') by apply lookup_insert_eq.
  change (vals f) with (vals f').
  rewrite (step_put_val _ _ _ p f') by (slot_side).
  rewrite (step_put_val _ _ _ p f')
    by (slot_side).
  rewrite (step_put_val_if _ _ _ p f')
    by (slot_side).
  rewrite (step_put_val_if3 _ _ _ p f')
    by (slot_side).
  rewrite (step_put_val _ _ _ p f')
    by (slot_side).
  rewrite (step_put_val _ _ _ p f')
    by (slot_side).
  rewrite (step_put_val _ _ _ p f')
    by (slot_side).
  rewrite (step_put_val_if2 _ _ _ p f')
    by (slot_side).
  rewrite (step_put_val _ _ _ p f')
    by (slot_side).
  rewrite (step_get boundtype _ _ _ p f') by assumption.
  rewrite (step_get maxdepth _ _ _ p f') by assumption.
  rewrite (last_put_val _ _ _ p f')
    by (slot_side).
  reflexivity.
Qed.

End CalcRun.

Section CalcSlots.

Context {E : Enumerators}.

(** Pairwise inequality and range of the slots, as hypotheses for [lia]. *)
Ltac slot_facts Hd Hfit :=
  unfold slots_distinct, feat_slots in Hd;
  rewrite !NoDup_cons, !not_elem_of_cons in Hd;
  unfold slots_fit, feat_slots in Hfit;
  rewrite !Forall_cons in Hfit;
  destruct_and!.

Ltac slot_ne := first [assumption | apply not_eq_sym; assumption].

Ltac slot_skip :=
  repeat first [rewrite upd_lookup_ne by slot_ne
               |rewrite upd_if_lookup_ne by slot_ne].

Ltac slot_in :=
  repeat first [rewrite upd_length | rewrite upd_if_length];
  split; assumption.

Lemma calc_vals_lowerbound scip node bc0 md xs :
  slots_distinct -> slots_fit (length xs) ->
  calc_vals scip node bc0 md xs !! Z.to_nat SCIP_FEATNODESEL_LOWERBOUND
  = Some (SCIPnodeGetLowerbound node / rootlowerbound_normalized scip)%float.
Proof.
  intros Hd Hfit. slot_facts Hd Hfit.
  unfold calc_vals. cbv zeta. slot_skip.
  apply upd_lookup_eq. slot_in.
Qed.

Lemma calc_vals_estimate scip node bc0 md xs :
  slots_distinct -> slots_fit (length xs) ->
  calc_vals scip node bc0 md xs !! Z.to_nat SCIP_FEATNODESEL_ESTIMATE
  = Some (SCIPnodeGetEstimate node / rootlowerbound_normalized scip)%float.
Proof.
  intros Hd Hfit. slot_facts Hd Hfit.
  unfold calc_vals. cbv zeta. slot_skip.
  apply upd_lookup_eq. slot_in.
Qed.

Lemma calc_vals_relativebound scip node bc0 md xs :
  slots_distinct -> slots_fit (length xs) ->
  calc_vals scip node bc0 md xs !! Z.to_nat SCIP_FEATNODESEL_RELATIVEBOUND
  = if negb (cutoffbound_adjusted scip - SCIPgetLowerbound scip =? 0)%float
    then Some ((SCIPnodeGetLowerbound node - SCIPgetLowerbound scip)
               / (cutoffbound_adjusted scip - SCIPgetLowerbound scip))%float
    else xs !! Z.to_nat SCIP_FEATNODESEL_RELATIVEBOUND.
Proof.
  intros Hd Hfit. slot_facts Hd Hfit.
  unfold calc_vals. cbv zeta. slot_skip.
  destruct (negb _); unfold upd_if.
  - apply upd_lookup_eq. slot_in.
  - slot_skip. reflexivity.
Qed.

Lemma calc_vals_objconstr scip node bc0 md xs :
  slots_distinct -> slots_fit (length xs) ->
  calc_vals scip node bc0 md xs !! Z.to_nat SCIP_FEATNODESEL_BRANCHVAR_OBJCONSTR
  = Some (SCIPcolGetObj (SCIPvarGetCol (bc_var bc0))
          / double_of_int (varcolsize_guarded (bc_var bc0)))%float.
Proof.
  intros Hd Hfit. slot_facts Hd Hfit.
  unfold calc_vals. cbv zeta. slot_skip.
  apply upd_lookup_eq. slot_in.
Qed.

End CalcSlots.

Section CalcWitnesses.

Lemma sample_slots_distinct : slots_distinct (E := sample_enumerators).
Proof.
  unfold slots_distinct, feat_slots. cbn.
  apply (bool_decide_unpack _). vm_compute. exact I.
Qed.

Lemma sample_slots_fit : slots_fit (E := sample_enumerators) 13.
Proof.
  unfold slots_fit, feat_slots. cbn.
  repeat (apply Forall_cons; split; [lia|]). apply Forall_nil_2.
Qed.

Lemma sample_node_valid nnonz :
  node_valid (E := sample_enumerators) (sample_node nnonz) (sample_boundchg nnonz).
Proof. repeat split. discriminate. Qed.

End CalcWitnesses.

(** ** Copying a vector *)

Section Separation.

(** A vector [q] with the array [b], and a vector [p] with another array
    [a]: operations on [p] leave the structure and the array of [q] as
    they are. *)
Variables (p q : addr) (a b : addr).
Variables (G : option SCIP_FEAT) (Y : option (list SCIP_Real)).
Hypothesis Hpq : p <> q.
Hypothesis Hab : a <> b.

Local Abbreviation separated := (separate p q a b G Y).
Local Abbreviation preserved := (preserves p q a b G Y).

Lemma preserves_bind {A B : Type} (c : M A) (k : A -> M B) :
  preserved c -> (forall x, preserved (k x)) -> preserved (c ≫= k).
Proof.
  intros Hc Hk m r m' Hm. unfold mbind, M_bind.
  destruct (c m) as [[x m1]|] eqn:Hcm; [|discriminate].
  intros Hr. eapply Hk; [eapply Hc|]; eauto.
Qed.

Lemma preserves_ret {A : Type} (x : A) : preserved (mret x).
Proof. intros m r m' Hm [= _ <-]. exact Hm. Qed.

Lemma preserves_fail {A : Type} : preserved (@fail A).
Proof. intros m r m' _ [=]. Qed.

Lemma preserves_assert c : preserved (assert c).
Proof. destruct c; [apply preserves_ret|apply preserves_fail]. Qed.

Lemma preserves_get {A : Type} (fld : SCIP_FEAT -> A) r : preserved (get fld r).
Proof.
  intros m x m' Hm. unfold get.
  destruct (nonnull r); [|discriminate].
  destruct (feats m !! r); [|discriminate].
  intros [= _ <-]. exact Hm.
Qed.

Lemma preserves_lift {A : Type} (o : option A) : preserved (lift o).
Proof. intros m x m' Hm. destruct o; intros [= _ <-]. exact Hm. Qed.

Lemma preserves_load_real r i : preserved (load_real r i).
Proof.
  intros m x m' Hm. unfold load_real.
  destruct (reals m !! r) as [xs|]; [|discriminate].
  destruct (0 <=? i); [|discriminate].
  destruct (xs !! Z.to_nat i); [|discriminate].
  intros [= _ <-]. exact Hm.
Qed.

Lemma preserves_get_val r i : preserved (get_val r i).
Proof.
  apply preserves_bind; [apply preserves_get|].
  intros x. apply preserves_load_real.
Qed.

Lemma preserves_info e : preserved (SCIPinfoMessage e).
Proof. intros m x m' Hm [= _ <-]. exact Hm. Qed.

(** A store into a field other than [vals]. *)
Lemma preserves_put {A : Type} (u : A -> SCIP_FEAT -> SCIP_FEAT) x :
  (forall f, vals (u x f) = vals f) -> preserved (put u p x).
Proof.
  intros Hu m r m' (Hq & Hb & f & Hf & Hv). unfold put.
  destruct (nonnull p); [|discriminate]. rewrite Hf.
  intros [= _ <-]. repeat split.
  - cbn. rewrite lookup_insert_ne by assumption. exact Hq.
  - exact Hb.
  - exists (u x f). cbn. rewrite lookup_insert_eq, Hu. auto.
Qed.

Lemma preserves_store_real i x : preserved (store_real a i x).
Proof.
  intros m r m' (Hq & Hb & Hf). unfold store_real.
  destruct (reals m !! a) as [xs|]; [|discriminate].
  destruct ((0 <=? i) && _); [|discriminate].
  intros [= _ <-]. repeat split.
  - exact Hq.
  - cbn. rewrite lookup_insert_ne by assumption. exact Hb.
  - exact Hf.
Qed.

Lemma preserves_put_val i x : preserved (put_val p i x).
Proof.
  intros m r m' Hm. pose proof Hm as (_ & _ & f & Hf & Hv).
  unfold put_val, mbind, M_bind, get.
  destruct (nonnull p); [|discriminate]. rewrite Hf, Hv.
  apply preserves_store_real. exact Hm.
Qed.

Lemma preserves_for_from (body : Z -> M unit) n :
  (forall i, preserved (body i)) -> forall i, preserved (for_from i n body).
Proof.
  intros Hbody. induction n as [|n IH]; intros i; cbn [for_from].
  - apply preserves_ret.
  - apply preserves_bind; [apply Hbody|]. intros _. apply IH.
Qed.

End Separation.

Section Copy.

Context {E : Enumerators}.

Ltac pres Hpq Hab :=
  repeat first
    [ apply preserves_ret
    | apply preserves_fail
    | apply preserves_assert
    | apply preserves_get
    | apply preserves_lift
    | apply preserves_get_val
    | apply (preserves_put_val _ _ _ _ _ _ Hab)
    | apply (preserves_store_real _ _ _ _ _ _ Hab)
    | apply (preserves_put _ _ _ _ _ _ Hpq); intros ?; reflexivity
    | apply preserves_bind; [|intros ?]
    | apply preserves_for_from; intros ?
    | match goal with
      | |- preserves _ _ _ _ _ _ (if ?c then _ else _) => destruct c
      | |- preserves _ _ _ _ _ _ (match ?l with [] => _ | _ :: _ => _ end) =>
          destruct l
      end ].

(** No mutation of [p] reaches the structure or the array of [q]. *)
Lemma mutate_preserves p q a b G Y mu :
  p <> q -> a <> b -> preserves p q a b G Y (mutate mu p).
Proof.
  intros Hpq Hab. destruct mu; cbn [mutate].
  - unfold SCIPfeatSetRootlpObj. pres Hpq Hab.
  - unfold SCIPfeatSetSumObjCoeff. pres Hpq Hab.
  - unfold SCIPfeatSetMaxDepth. pres Hpq Hab.
  - unfold SCIPfeatSetNConstrs. pres Hpq Hab.
  - intros m r m' Hm. pose proof Hm as (_ & _ & f & Hf & Hv).
    unfold SCIPfeatGetVals, mbind, M_bind, assert, get.
    destruct (nonnull p); [|discriminate]. cbn. rewrite Hf, Hv.
    apply (preserves_store_real p q a b G Y Hab). exact Hm.
  - unfold SCIPcalcNodeselFeat. cbv zeta. pres Hpq Hab.
  - unfold SCIPfeatCopy, for_loop. pres Hpq Hab.
Qed.

Lemma copy_slot (xs ys : list SCIP_Real) j x :
  xs !! j = Some x -> (j < length ys)%nat ->
  <[j := x]> (take j xs ++ drop j ys) = take (S j) xs ++ drop (S j) ys.
Proof.
  intros Hx Hj.
  assert (Hlen : length (take j xs) = j)
    by (apply length_take_le; apply lookup_lt_Some in Hx; lia).
  destruct (lookup_lt_is_Some_2 ys j Hj) as [y Hy].
  rewrite insert_app_r_alt by lia. rewrite Hlen, Nat.sub_diag.
  rewrite (drop_S ys y j Hy). cbn [insert list_insert].
  rewrite (take_S_r xs j x Hx), <- app_assoc. reflexivity.
Qed.

Lemma step_get_other {A B : Type} (fld : SCIP_FEAT -> A) F R O p q f g
    (k : A -> M B) :
  nonnull p = true -> p <> q -> F !! p = Some f ->
  (get fld p ≫= k) (mkMem (<[q := g]> F) R O)
  = k (fld f) (mkMem (<[q := g]> F) R O).
Proof.
  intros Hp Hpq Hf. apply run_bind, run_get; [assumption|].
  cbn. rewrite lookup_insert_ne by congruence. exact Hf.
Qed.

Lemma step_copy_field {A B : Type} (fld : SCIP_FEAT -> A)
    (u : A -> SCIP_FEAT -> SCIP_FEAT) F R O p q f g (k : unit -> M B) :
  nonnull p = true -> nonnull q = true -> p <> q -> F !! p = Some f ->
  ((x ← get fld p; put u q x) ≫= k) (mkMem (<[q := g]> F) R O)
  = k tt (mkMem (<[q := u (fld f) g]> F) R O).
Proof.
  intros Hp Hq Hpq Hf. apply run_bind.
  rewrite (step_get_other fld F R O p q f g) by assumption.
  rewrite (run_put u q (fld f) g) by (try assumption; cbn; apply lookup_insert_eq).
  unfold with_feats. cbn. rewrite insert_insert_eq. reflexivity.
Qed.

(** The copy loop from slot [i] on: the destination array holds the
    source's first [i] values already. *)
Lemma run_copy_loop p q f g xs ys F R O n :
  nonnull p = true -> nonnull q = true ->
  F !! p = Some f -> F !! q = Some g -> vals f <> vals g ->
  R !! vals f = Some xs ->
  forall i,
  (i + n <= length xs)%nat -> (i + n <= length ys)%nat ->
  for_from (Z.of_nat i) n
    (fun j => x ← get_val p j; put_val q j x)
    (mkMem F (<[vals g := take i xs ++ drop i ys]> R) O)
  = Some (tt, mkMem F (<[vals g := take (i + n) xs ++ drop (i + n) ys]> R) O).
Proof.
  intros Hp Hq Hf Hg Hne Hxs.
  induction n as [|n IH]; intros i Hi1 Hi2; cbn [for_from].
  - rewrite Nat.add_0_r. reflexivity.
  - destruct (lookup_lt_is_Some_2 xs i ltac:(lia)) as [x Hx].
    set (m := mkMem F (<[vals g := take i xs ++ drop i ys]> R) O).
    assert (Hget : get_val p (Z.of_nat i) m = Some (x, m)).
    { apply (run_get_val p (Z.of_nat i) f xs x m); try assumption.
      - cbn. rewrite lookup_insert_ne by congruence. exact Hxs.
      - lia.
      - rewrite Nat2Z.id. exact Hx. }
    assert (Hbody : (x ← get_val p (Z.of_nat i); put_val q (Z.of_nat i) x) m
      = Some (tt, mkMem F (<[vals g := take (S i) xs ++ drop (S i) ys]> R) O)).
    { rewrite (run_bind _ _ _ _ _ Hget). unfold m.
      rewrite (last_put_val F R O q g)
        by (try assumption; rewrite length_app, length_take, length_drop; lia).
      unfold upd. rewrite Nat2Z.id, (copy_slot xs ys i x Hx) by lia.
      reflexivity. }
    rewrite (run_bind _ _ _ _ _ Hbody).
    replace (Z.of_nat i + 1) with (Z.of_nat (S i)) by lia.
    rewrite IH by lia. replace (S i + n)%nat with (i + S n)%nat by lia.
    reflexivity.
Qed.

(** The copy of [feat] into [sourcefeat], for two vectors with their own
    arrays. *)
Lemma run_copy m p q f g xs ys :
  nonnull p = true -> nonnull q = true -> p <> q ->
  feats m !! p = Some f -> feats m !! q = Some g ->
  nonnull (vals f) = true -> nonnull (vals g) = true -> vals f <> vals g ->
  reals m !! vals f = Some xs -> reals m !! vals g = Some ys ->
  size f <= Z.of_nat (length xs) -> size f <= Z.of_nat (length ys) ->
  SCIPfeatCopy p q m
  = Some (tt, mkMem
            (<[q := mkFeat (vals g) (rootlpobj f) (sumobjcoeff f) (nconstrs f)
                      (maxdepth f) (depth f) (size f) (boundtype f)]> (feats m))
            (<[vals g := take (Z.to_nat (size f)) xs
                         ++ drop (Z.to_nat (size f)) ys]> (reals m))
            (out m)).
Proof.
  intros Hp Hq Hpq Hf Hg Hvf Hvg Hne Hxs Hys Hl1 Hl2.
  unfold SCIPfeatCopy.
  rewrite (run_bind _ _ _ _ _ (run_assert _ m Hp)).
  rewrite (run_bind _ _ _ _ _ (run_get vals p f m Hp Hf)).
  rewrite (run_bind _ _ _ _ _ (run_assert _ m Hvf)).
  rewrite (run_bind _ _ _ _ _ (run_assert _ m Hq)).
  rewrite (run_bind _ _ _ _ _ (run_get vals q g m Hq Hg)).
  rewrite (run_bind _ _ _ _ _ (run_assert _ m Hvg)).
  replace m with (mkMem (<[q := g]> (feats m)) (reals m) (out m)) at 1
    by (rewrite insert_id by assumption; destruct m; reflexivity).
  do 7 (rewrite (step_copy_field _ _ _ _ _ p q f) by assumption).
  rewrite (step_get_other _ _ _ _ p q f) by assumption.
  unfold for_loop.
  rewrite <- (insert_id (reals m) (vals g) ys Hys) at 1.
  set (g' := mkFeat (vals g) (rootlpobj f) (sumobjcoeff f) (nconstrs f)
               (maxdepth f) (depth f) (size f) (boundtype f)).
  assert (Hf' : <[q := g']> (feats m) !! p = Some f)
    by (rewrite lookup_insert_ne by congruence; exact Hf).
  assert (Hg' : <[q := g']> (feats m) !! q = Some g')
    by apply lookup_insert_eq.
  exact (run_copy_loop p q f g' xs ys (<[q := g']> (feats m)) (reals m)
           (out m) (Z.to_nat (size f)) Hp Hq Hf' Hg' Hne Hxs 0%nat
           ltac:(lia) ltac:(lia)).
Qed.

End Copy.

Section Create.

Lemma fresh_addr_spec {A : Type} (m : gmap N A) :
  nonnull (fresh_addr m) = true /\ m !! fresh_addr m = None.
Proof.
  unfold fresh_addr.
  pose proof (is_fresh ({[NULL]} ∪ dom m)) as Hfresh.
  split.
  - unfold nonnull. destruct (N.eqb_spec (fresh ({[NULL]} ∪ dom m)) NULL) as [Heq|];
      [|reflexivity].
    exfalso. apply Hfresh. rewrite Heq. set_solver.
  - apply not_elem_of_dom. set_solver.
Qed.

(** The zeroing loop of [SCIPfeatCreate] overwrites whatever the array
    holds. *)
Lemma run_zero_loop p f F R O n : forall k xs,
  nonnull p = true -> F !! p = Some f -> length xs = (k + n)%nat ->
  for_from (Z.of_nat k) n (fun i => put_val p i 0%float)
    (mkMem F (<[vals f := xs]> R) O)
  = Some (tt, mkMem F (<[vals f := take k xs ++ replicate n 0%float]> R) O).
Proof.
  induction n as [|n IH]; intros k xs Hp Hf Hlen.
  - cbn. rewrite app_nil_r, take_ge by lia. reflexivity.
  - cbn [for_from].
    rewrite (step_put_val F R O p f) by (try assumption; lia).
    replace (Z.of_nat k + 1) with (Z.of_nat (S k)) by lia.
    rewrite IH by (try assumption; rewrite upd_length; lia).
    unfold upd. rewrite Nat2Z.id.
    rewrite (take_S_r _ k 0%float) by (apply list_lookup_insert_eq; lia).
    rewrite take_insert_ge by lia.
    rewrite <- app_assoc. reflexivity.
Qed.

(** With both requests granted, a created vector is non-null, new, zero
    in every field and slot whatever the memory handed out held, and has
    an array of its own; what was allocated before is unchanged. *)
Lemma run_create al junk junk' sz m :
  block_granted al = Some junk -> array_granted al = Some junk' -> 0 <= sz ->
  exists p a,
    SCIPfeatCreate al sz m
    = Some ((SCIP_OKAY, p),
            mkMem (<[p := mkFeat a 0%float 0%float 0 0 0 sz 0]> (feats m))
                  (<[a := replicate (Z.to_nat sz) 0%float]> (reals m))
                  (out m)) /\
    nonnull p = true /\ feats m !! p = None /\
    nonnull a = true /\ reals m !! a = None.
Proof.
  intros Hblk Harr Hsz.
  exists (fresh_addr (feats m)), (fresh_addr (reals m)).
  destruct (fresh_addr_spec (feats m)) as [Hp Hfp].
  destruct (fresh_addr_spec (reals m)) as [Ha Hra].
  split; [|repeat split; assumption].
  set (p := fresh_addr (feats m)) in *.
  set (a := fresh_addr (reals m)) in *.
  unfold SCIPfeatCreate.
  assert (Hb : SCIPallocBlockMemory al m
               = Some ((SCIP_OKAY, p), with_feats (<[p := junk]> (feats m)) m))
    by (unfold SCIPallocBlockMemory; rewrite Hblk; reflexivity).
  rewrite (run_bind _ _ _ _ _ Hb).
  assert (Hv : BMSallocMemoryArray al p sz (with_feats (<[p := junk]> (feats m)) m)
               = Some (a, mkMem (<[p := set_vals a junk]> (feats m))
                                (<[vals (set_vals a junk)
                                   := junk' <$> seq 0 (Z.to_nat sz)]> (reals m))
                                (out m))).
  { unfold BMSallocMemoryArray.
    destruct (Z.ltb_spec sz 0) as [|_]; [lia|]. rewrite Harr. cbv zeta.
    change (fresh_addr (reals (with_feats (<[p := junk]> (feats m)) m))) with a.
    unfold with_reals, with_feats. cbn [feats reals out].
    rewrite (step_put set_vals (feats m) _ (out m) p junk a) by exact Hp.
    reflexivity. }
  rewrite (run_bind _ _ _ _ _ Hv).
  replace (a =? NULL)%N with false
    by (symmetry; apply negb_true_iff; exact Ha).
  unfold for_loop.
  assert (Hz := run_zero_loop p (set_vals a junk)
                  (<[p := set_vals a junk]> (feats m)) (reals m) (out m)
                  (Z.to_nat sz) 0 (junk' <$> seq 0 (Z.to_nat sz)) Hp
                  ltac:(apply lookup_insert_eq)
                  ltac:(rewrite length_fmap, length_seq; reflexivity)).
  change (Z.of_nat 0) with 0 in Hz.
  rewrite (run_bind _ _ _ _ _ Hz).
  rewrite take_0, app_nil_l.
  rewrite !step_put by exact Hp.
  reflexivity.
Qed.

(** An allocator that grants both requests; the memory it hands out
    holds other values than zero. *)
Lemma sample_allocator_grants :
  block_granted sample_allocator = Some sample_junk /\
  array_granted sample_allocator = Some (fun _ => 7.5%float).
Proof. split; reflexivity. Qed.

(** The sample vector is a created vector with its [maxdepth] set. *)
Lemma sample_mem_created :
  (r ← SCIPfeatCreate sample_allocator 13;
   SCIPfeatSetMaxDepth r.2 100;; mret r) (mkMem ∅ ∅ [])
  = Some ((SCIP_OKAY, 1%N), sample_mem).
Proof. vm_compute. reflexivity. Qed.

End Create.

(** * The properties of the specification *)

Section Specification.

Context {E : Enumerators}.

(** C1 (the code at a column without nonzero entries): the guard assigns
    0.1 to the [int] variable [varcolsize], which keeps 0, and the
    objective ratio slot receives the objective coefficient divided by 0. *)
Theorem C1_objconstr_zero_column scip node bc0 p f xs m :
  slots_distinct ->
  nonnull p = true -> feats m !! p = Some f -> reals m !! vals f = Some xs ->
  maxdepth f <> 0 -> node_valid node bc0 -> slots_fit (length xs) ->
  SCIPcolGetNNonz (SCIPvarGetCol (bc_var bc0)) = 0 ->
  exists m' ys,
    SCIPcalcNodeselFeat scip node p m = Some (tt, m') /\
    reals m' !! vals f = Some ys /\
    ys !! Z.to_nat SCIP_FEATNODESEL_BRANCHVAR_OBJCONSTR
      = Some (SCIPcolGetObj (SCIPvarGetCol (bc_var bc0)) / 0)%float.
Proof.
  intros Hd Hp Hf Hxs Hmd Hnode Hfit Hz.
  eexists _, _. split; [apply (run_calc scip node bc0 p f xs m); assumption|].
  split; [cbn; apply lookup_insert_eq|].
  rewrite calc_vals_objconstr by assumption.
  unfold varcolsize_guarded. rewrite Hz. reflexivity.
Qed.

(** C2 (amended): for a vector with [maxdepth >= 10] and [depth >= 0]
    whose offset fits an [int], [SCIPfeatGetOffset] returns
    [size*2*(depth / (maxdepth/10)) + size*boundtype] with floor division
    and leaves the memory unchanged; for size 11, depth 25, maxdepth 100
    and bound type 1 it returns 55.  For a [maxdepth] strictly between
    -10 and 10 the divisor [maxdepth / 10] is 0 and [SCIPfeatGetOffset]
    has no result. *)
Theorem C2_offset_formula m p f :
  nonnull p = true -> feats m !! p = Some f ->
  (10 <= maxdepth f -> 0 <= depth f -> Int.in_range (offset_floor f) ->
   SCIPfeatGetOffset p m = Some (offset_floor f, m) /\
   (size f = 11 -> depth f = 25 -> maxdepth f = 100 -> boundtype f = 1 ->
    SCIPfeatGetOffset p m = Some (55, m))) /\
  (-10 < maxdepth f < 10 -> SCIPfeatGetOffset p m = None).
Proof.
  intros Hp Hf. split.
  - intros Hmd Hd Hr.
    assert (H : SCIPfeatGetOffset p m = Some (offset_floor f, m)).
    { rewrite run_offset, Hp, Hf, offset_of_floor by assumption. reflexivity. }
    split; [exact H|].
    intros Hs Hd' Hmd' Hbt. rewrite H. unfold offset_floor.
    rewrite Hs, Hd', Hmd', Hbt. reflexivity.
  - intros Hmd. rewrite run_offset, Hp, Hf.
    unfold offset_of, Int.divs.
    destruct (Z.eqb_spec 10 0) as [|_]; [lia|].
    destruct (Z.eqb_spec 10 (-1)) as [|_]; [lia|].
    rewrite andb_false_r. cbn [orb mbind option_bind].
    replace (maxdepth f ÷ 10) with 0
      by (symmetry; apply Z.quot_small_iff; lia).
    reflexivity.
Qed.

(** C3: on a valid node, with the cutoff bound replaced by
    [lowerbound + 0.2 * (cutoffbound - lowerbound)] when no solution has
    been found, the relative bound slot receives
    [(nodelowerbound - lowerbound) / (cutoff - lowerbound)] when the
    denominator differs from 0 and keeps the value it had (the 0 of a
    created vector) when it equals 0; with lower bound 10, cutoff bound 50
    and no solution the adjusted cutoff is 18. *)
Theorem C3_relative_bound scip node bc0 p f xs m :
  slots_distinct ->
  nonnull p = true -> feats m !! p = Some f -> reals m !! vals f = Some xs ->
  maxdepth f <> 0 -> node_valid node bc0 -> slots_fit (length xs) ->
  let lb := SCIPgetLowerbound scip in
  let cutoff :=
    if SCIPgetNSolsFound scip =? 0
    then (lb + 0.2 * (SCIPgetCutoffbound scip - lb))%float
    else SCIPgetCutoffbound scip in
  exists m' ys,
    SCIPcalcNodeselFeat scip node p m = Some (tt, m') /\
    reals m' !! vals f = Some ys /\
    ((cutoff - lb =? 0)%float = false ->
     ys !! Z.to_nat SCIP_FEATNODESEL_RELATIVEBOUND
       = Some ((SCIPnodeGetLowerbound node - lb) / (cutoff - lb))%float) /\
    ((cutoff - lb =? 0)%float = true ->
     ys !! Z.to_nat SCIP_FEATNODESEL_RELATIVEBOUND
       = xs !! Z.to_nat SCIP_FEATNODESEL_RELATIVEBOUND /\
     (xs !! Z.to_nat SCIP_FEATNODESEL_RELATIVEBOUND = Some 0%float ->
      ys !! Z.to_nat SCIP_FEATNODESEL_RELATIVEBOUND = Some 0%float)) /\
    (SCIPgetNSolsFound scip = 0 -> lb = 10%float ->
     SCIPgetCutoffbound scip = 50%float -> cutoff = 18%float).
Proof.
  intros Hd Hp Hf Hxs Hmd Hnode Hfit lb cutoff.
  eexists _, _. split; [apply (run_calc scip node bc0 p f xs m); assumption|].
  split; [cbn; apply lookup_insert_eq|].
  pose proof (calc_vals_relativebound scip node bc0 (maxdepth f) xs Hd Hfit)
    as Hrel.
  change (cutoffbound_adjusted scip) with cutoff in Hrel.
  change (SCIPgetLowerbound scip) with lb in Hrel.
  split; [|split].
  - intros Hne. rewrite Hrel, Hne. reflexivity.
  - intros Heq. rewrite Hrel, Heq. split; [reflexivity|]. intros H0. exact H0.
  - intros Hn Hlb Hcut. unfold cutoff. fold lb. rewrite Hn, Hlb, Hcut.
    reflexivity.
Qed.

(** C4: on a valid node, the calculation stores the node's lower bound
    divided by the normalized root lower bound in the lower bound slot and
    the node's estimate divided by the same normalizer in the estimate
    slot; the normalizer is 0.1 when the root lower bound equals 0 and the
    root lower bound otherwise, so it never equals 0. *)
Theorem C4_lowerbound_and_estimate_ratios scip node bc0 p f xs m :
  slots_distinct ->
  nonnull p = true -> feats m !! p = Some f -> reals m !! vals f = Some xs ->
  maxdepth f <> 0 -> node_valid node bc0 -> slots_fit (length xs) ->
  let root := SCIPgetLowerboundRoot scip in
  let normalized := if (root =? 0)%float then 0.1%float else root in
  exists m' ys,
    SCIPcalcNodeselFeat scip node p m = Some (tt, m') /\
    reals m' !! vals f = Some ys /\
    ys !! Z.to_nat SCIP_FEATNODESEL_LOWERBOUND
      = Some (SCIPnodeGetLowerbound node / normalized)%float /\
    ys !! Z.to_nat SCIP_FEATNODESEL_ESTIMATE
      = Some (SCIPnodeGetEstimate node / normalized)%float /\
    (normalized =? 0)%float = false.
Proof.
  intros Hd Hp Hf Hxs Hmd Hnode Hfit root normalized.
  eexists _, _. split; [apply (run_calc scip node bc0 p f xs m); assumption|].
  split; [cbn; apply lookup_insert_eq|].
  split; [apply calc_vals_lowerbound; assumption|].
  split; [apply calc_vals_estimate; assumption|].
  unfold normalized. destruct (root =? 0)%float eqn:Hroot; [reflexivity|exact Hroot].
Qed.

(** C5 (amended): on a computed vector of size [n] for which
    [SCIPfeatGetOffset] returns an offset, whose [n] slots are allocated
    (and whose last index [offset + n] fits an [int]), the writer appends
    one line to the stream: the label, then exactly [n] pairs, the pair of
    slot [i] having index [i + offset + 1] and the slot's value, so the
    indices are [offset+1 .. offset+n] in ascending order, then the
    newline; the memory is otherwise unchanged. *)
Theorem C5_print_single_line m p f xs o label :
  nonnull p = true -> feats m !! p = Some f -> depth f <> 0 ->
  reals m !! vals f = Some xs -> size f <= Z.of_nat (length xs) ->
  SCIPfeatGetOffset p m = Some (o, m) -> o + size f <= Int.max_signed ->
  exists pairs,
    SCIPfeatLIBSVMPrint p label m
    = Some (tt, with_out (out m ++ MsgLabel label :: pairs ++ [MsgNewline]) m) /\
    length pairs = Z.to_nat (size f) /\
    (forall i x, Z.of_nat i < size f -> xs !! i = Some x ->
       pairs !! i = Some (MsgPair (Z.of_nat i + o + 1) x)) /\
    pair_indices pairs = seqZ (o + 1) (size f) /\
    ascending (pair_indices pairs).
Proof.
  intros Hp Hf Hd Hxs Hlen Ho Hmax.
  apply (offset_of_run p m f o Hp Hf) in Ho.
  exists (block o (size f) xs). repeat split.
  - apply run_print_single; assumption.
  - apply block_length; assumption.
  - intros i x Hi Hx. apply block_lookup; assumption.
  - apply pair_indices_block; assumption.
  - rewrite pair_indices_block by assumption. apply ascending_seqZ.
Qed.

(** C6: for every label whose negation is an [int], the writer called on
    [(a, b)] with [negate] set does exactly what it does on [(b, a)] with
    the label [-label] and [negate] clear: same result, same stream. *)
Theorem C6_negate_is_swap a b label m :
  Int.min_signed < label <= Int.max_signed ->
  SCIPfeatDiffLIBSVMPrint a b label true m
  = SCIPfeatDiffLIBSVMPrint b a (- label) false m.
Proof.
  intros Hl. rewrite diff_print_negate, neg_label by assumption. reflexivity.
Qed.

(** C7: for computed vectors [a] and [b] of equal size and equal offset,
    and a computed vector [d] of that size and offset whose values are the
    elementwise differences, the difference writer with [negate] clear
    writes what the single writer writes for [d] with the same label:
    slot [i] has index [i + offset + 1] and value [a[i] - b[i]]. *)
Theorem C7_diff_is_single_on_difference
    m a b d fa fb fd xa xb o label :
  nonnull a = true -> feats m !! a = Some fa -> depth fa <> 0 ->
  reals m !! vals fa = Some xa -> size fa <= Z.of_nat (length xa) ->
  nonnull b = true -> feats m !! b = Some fb -> depth fb <> 0 ->
  reals m !! vals fb = Some xb -> size fa <= Z.of_nat (length xb) ->
  size fa = size fb ->
  SCIPfeatGetOffset a m = Some (o, m) -> SCIPfeatGetOffset b m = Some (o, m) ->
  o + size fa <= Int.max_signed ->
  nonnull d = true -> feats m !! d = Some fd -> depth fd <> 0 ->
  size fd = size fa -> SCIPfeatGetOffset d m = Some (o, m) ->
  reals m !! vals fd = Some (zip_with PrimFloat.sub xa xb) ->
  SCIPfeatDiffLIBSVMPrint a b label false m = SCIPfeatLIBSVMPrint d label m /\
  exists pairs,
    SCIPfeatLIBSVMPrint d label m
    = Some (tt, with_out (out m ++ MsgLabel label :: pairs ++ [MsgNewline]) m) /\
    length pairs = Z.to_nat (size fa) /\
    forall i x y, Z.of_nat i < size fa -> xa !! i = Some x -> xb !! i = Some y ->
      pairs !! i = Some (MsgPair (Z.of_nat i + o + 1) (x - y)%float).
Proof.
  intros Ha Hfa Hda Hxa Hla Hb Hfb Hdb Hxb Hlb Hs Hoa Hob Hmax
         Hd Hfd Hdd Hsd Hod Hxd.
  apply (offset_of_run a m fa o Ha Hfa) in Hoa.
  apply (offset_of_run b m fb o Hb Hfb) in Hob.
  apply (offset_of_run d m fd o Hd Hfd) in Hod.
  assert (Hlen : size fa <= Z.of_nat (length (zip_with PrimFloat.sub xa xb)))
    by (rewrite length_zip_with; lia).
  assert (Hsingle := run_print_single m d fd _ o label Hd Hfd Hdd Hxd
                       ltac:(lia) Hod ltac:(lia)).
  rewrite Hsd in Hsingle.
  split.
  - rewrite Hsingle, diff_print_unfold.
    unfold diff_asserts. rewrite Ha, Hb, Hfa, Hfb. cbn [andb].
    destruct (Z.eqb_spec (depth fa) 0); [contradiction|].
    destruct (Z.eqb_spec (depth fb) 0); [contradiction|].
    rewrite (proj2 (Z.eqb_eq _ _) Hs). cbn [negb andb].
    rewrite (run_diff_body m a b fa fb xa xb o o label) by assumption.
    unfold diff_pairs. rewrite Z.eqb_refl. reflexivity.
  - exists (block o (size fa) (zip_with PrimFloat.sub xa xb)).
    split; [exact Hsingle|]. split; [apply block_length; assumption|].
    intros i x y Hi Hx Hy. apply block_lookup; [assumption|].
    rewrite lookup_zip_with, Hx, Hy. reflexivity.
Qed.

(** C8: for computed vectors of equal size and distinct offsets (computed
    without overflow), the difference writer writes the label, two blocks
    and the newline.  The first vector of the subtraction contributes its
    raw values at the indices [i + offset1 + 1], the second its negated
    values at [i + offset2 + 1]; the block with the smaller offset comes
    first, and the indices ascend strictly across both blocks.  With
    [negate] set the arguments are taken in the other order and the label
    is multiplied by [-1]. *)
Theorem C8_diff_two_blocks
    m p1 p2 f1 f2 xs1 xs2 o1 o2 label :
  nonnull p1 = true -> feats m !! p1 = Some f1 -> depth f1 <> 0 ->
  reals m !! vals f1 = Some xs1 -> size f1 <= Z.of_nat (length xs1) ->
  nonnull p2 = true -> feats m !! p2 = Some f2 -> depth f2 <> 0 ->
  reals m !! vals f2 = Some xs2 -> size f1 <= Z.of_nat (length xs2) ->
  size f1 = size f2 ->
  SCIPfeatGetOffset p1 m = Some (o1, m) ->
  SCIPfeatGetOffset p2 m = Some (o2, m) ->
  o1 <> o2 ->
  Int.in_range (offset_trunc f1) -> Int.in_range (offset_trunc f2) ->
  o1 + size f1 <= Int.max_signed -> o2 + size f1 <= Int.max_signed ->
  let raw := block o1 (size f1) xs1 in
  let negated := block o2 (size f1) (PrimFloat.opp <$> xs2) in
  let pairs := if o1 <? o2 then raw ++ negated else negated ++ raw in
  SCIPfeatDiffLIBSVMPrint p1 p2 label false m
  = Some (tt, with_out (out m ++ MsgLabel label :: pairs ++ [MsgNewline]) m) /\
  SCIPfeatDiffLIBSVMPrint p2 p1 label true m
  = Some (tt, with_out
            (out m ++ MsgLabel (Int.mul (-1) label) :: pairs ++ [MsgNewline]) m) /\
  ascending (pair_indices pairs) /\
  (forall i x, Z.of_nat i < size f1 -> xs1 !! i = Some x ->
     raw !! i = Some (MsgPair (Z.of_nat i + o1 + 1) x)) /\
  (forall i x, Z.of_nat i < size f1 -> xs2 !! i = Some x ->
     negated !! i = Some (MsgPair (Z.of_nat i + o2 + 1) (- x)%float)).
Proof.
  intros Hp1 Hf1 Hd1 Hx1 Hl1 Hp2 Hf2 Hd2 Hx2 Hl2 Hs Ho1 Ho2 Hne Hr1 Hr2
         Hm1 Hm2 raw negated pairs.
  apply (offset_of_run p1 m f1 o1 Hp1 Hf1) in Ho1.
  apply (offset_of_run p2 m f2 o2 Hp2 Hf2) in Ho2.
  assert (Hpairs : pairs = diff_pairs o1 o2 (size f1) xs1 xs2).
  { unfold pairs, diff_pairs. destruct (Z.eqb_spec o1 o2); [contradiction|].
    reflexivity. }
  assert (Hasserts : diff_asserts p1 p2 m = true).
  { unfold diff_asserts. rewrite Hp1, Hp2, Hf1, Hf2. cbn [andb].
    destruct (Z.eqb_spec (depth f1) 0); [contradiction|].
    destruct (Z.eqb_spec (depth f2) 0); [contradiction|].
    rewrite (proj2 (Z.eqb_eq _ _) Hs). reflexivity. }
  assert (Hfalse : forall l, SCIPfeatDiffLIBSVMPrint p1 p2 l false m
    = Some (tt, with_out (out m ++ MsgLabel l :: pairs ++ [MsgNewline]) m)).
  { intros l. rewrite diff_print_unfold, Hasserts, Hpairs.
    apply (run_diff_body m p1 p2 f1 f2 xs1 xs2 o1 o2 l); assumption. }
  split; [apply Hfalse|].
  split; [rewrite diff_print_negate; apply Hfalse|].
  split.
  { rewrite Hpairs.
    apply (diff_pairs_ascending f1 f2 o1 o2 xs1 xs2); assumption. }
  split.
  - intros i x Hi Hx. apply block_lookup; assumption.
  - intros i x Hi Hx. apply block_lookup; [assumption|].
    rewrite list_lookup_fmap, Hx. reflexivity.
Qed.

(** C9: for two distinct non-null vectors with allocated arrays of their
    own and of equal size, [SCIPfeatCopy feat sourcefeat] succeeds and
    leaves in the second parameter [sourcefeat] the seven scalar fields
    and every value slot of the first parameter [feat]; the first
    parameter, every other vector and the stream are unchanged, so the
    second parameter alone is written; and no later mutation of the
    first parameter changes the structure or the values of the second. *)
Theorem C9_copy_into_second_parameter m feat sourcefeat f g xs ys :
  nonnull feat = true -> nonnull sourcefeat = true -> feat <> sourcefeat ->
  feats m !! feat = Some f -> feats m !! sourcefeat = Some g ->
  nonnull (vals f) = true -> nonnull (vals g) = true -> vals f <> vals g ->
  reals m !! vals f = Some xs -> reals m !! vals g = Some ys ->
  Z.of_nat (length xs) = size f -> Z.of_nat (length ys) = size g ->
  size f = size g ->
  exists m' g',
    SCIPfeatCopy feat sourcefeat m = Some (tt, m') /\
    feats m' !! sourcefeat = Some g' /\
    maxdepth g' = maxdepth f /\ depth g' = depth f /\ size g' = size f /\
    boundtype g' = boundtype f /\ rootlpobj g' = rootlpobj f /\
    sumobjcoeff g' = sumobjcoeff f /\ nconstrs g' = nconstrs f /\
    vals g' = vals g /\
    reals m' !! vals g = Some xs /\
    feats m' !! feat = Some f /\ reals m' !! vals f = Some xs /\
    (forall r, r <> sourcefeat -> feats m' !! r = feats m !! r) /\
    (forall a, a <> vals g -> reals m' !! a = reals m !! a) /\
    out m' = out m /\
    (forall mu m'', mutate mu feat m' = Some (tt, m'') ->
       feats m'' !! sourcefeat = Some g' /\ reals m'' !! vals g = Some xs).
Proof.
  intros Hp Hq Hpq Hf Hg Hvf Hvg Hne Hxs Hys Hlx Hly Hs.
  pose proof (run_copy m feat sourcefeat f g xs ys Hp Hq Hpq Hf Hg Hvf Hvg Hne
                Hxs Hys ltac:(lia) ltac:(lia)) as Hrun.
  rewrite take_ge, drop_ge, app_nil_r in Hrun by lia.
  eexists _, _. split; [exact Hrun|].
  assert (Hq' : forall F : gmap N SCIP_FEAT, forall x,
            <[sourcefeat := x]> F !! sourcefeat = Some x)
    by (intros; apply lookup_insert_eq).
  split; [cbn; apply Hq'|].
  do 8 (split; [reflexivity|]).
  split; [cbn; apply lookup_insert_eq|].
  split; [cbn; rewrite lookup_insert_ne by congruence; exact Hf|].
  split; [cbn; rewrite lookup_insert_ne by congruence; exact Hxs|].
  split; [intros r Hr; cbn; apply lookup_insert_ne; congruence|].
  split; [intros a Ha; cbn; apply lookup_insert_ne; congruence|].
  split; [reflexivity|].
  intros mu m'' Hmu.
  eapply (mutate_preserves feat sourcefeat (vals f) (vals g) _ _ mu Hpq Hne)
    in Hmu.
  - destruct Hmu as (H1 & H2 & _). split; [exact H1|exact H2].
  - split; [cbn; apply lookup_insert_eq|].
    split; [cbn; apply lookup_insert_eq|].
    exists f. split; [|reflexivity].
    cbn. rewrite lookup_insert_ne by congruence. exact Hf.
Qed.

(** C10: on a valid node, the calculation changes, in the structure of
    the target vector, the fields [depth] and [boundtype] only:
    [rootlpobj], [sumobjcoeff], [nconstrs], [size], [maxdepth] and the
    array address are as before; every other structure, every other array
    and the stream are unchanged. *)
Theorem C10_calc_frame scip node bc0 p f xs m :
  nonnull p = true -> feats m !! p = Some f -> reals m !! vals f = Some xs ->
  maxdepth f <> 0 -> node_valid node bc0 -> slots_fit (length xs) ->
  exists m' f',
    SCIPcalcNodeselFeat scip node p m = Some (tt, m') /\
    feats m' !! p = Some f' /\
    rootlpobj f' = rootlpobj f /\ sumobjcoeff f' = sumobjcoeff f /\
    nconstrs f' = nconstrs f /\ size f' = size f /\
    maxdepth f' = maxdepth f /\ vals f' = vals f /\
    depth f' = SCIPnodeGetDepth node /\ boundtype f' = bc_boundtype bc0 /\
    (forall q, q <> p -> feats m' !! q = feats m !! q) /\
    (forall a, a <> vals f -> reals m' !! a = reals m !! a) /\
    out m' = out m.
Proof.
  intros Hp Hf Hxs Hmd Hnode Hfit.
  eexists _, _. split; [apply (run_calc scip node bc0 p f xs m); assumption|].
  split; [cbn; apply lookup_insert_eq|].
  repeat (split; [reflexivity|]).
  split; [|split; [|reflexivity]].
  - intros q Hq. cbn. apply lookup_insert_ne. congruence.
  - intros a Ha. cbn. apply lookup_insert_ne. congruence.
Qed.

End Specification.

(** ** Counterexample and witnesses on the sample inputs *)

(** The calculation run on the sample inputs with an empty column: the
    objective ratio slot holds infinity, where division by the guard value
    0.1 would give 10. *)
Lemma zero_column_example :
  (SCIPcalcNodeselFeat (E := sample_enumerators)
     sample_scip (sample_node 0) 1%N sample_mem
   ≫= fun r => reals r.2 !! 1%N ≫= fun ys => ys !! 6%nat)
  = Some infinity /\
  (1 / 0.1)%float = 10%float.
Proof. split; vm_compute; reflexivity. Qed.

Lemma C1_objconstr_zero_column_witness :
  exists m' ys,
    SCIPcalcNodeselFeat (E := sample_enumerators)
      sample_scip (sample_node 0) 1%N sample_mem = Some (tt, m') /\
    reals m' !! 1%N = Some ys /\
    ys !! 6%nat = Some infinity.
Proof.
  apply (C1_objconstr_zero_column (E := sample_enumerators)
           sample_scip (sample_node 0) (sample_boundchg 0) 1%N
           sample_feat (replicate 13 0%float) sample_mem).
  - apply sample_slots_distinct.
  - reflexivity.
  - reflexivity.
  - reflexivity.
  - discriminate.
  - apply sample_node_valid.
  - apply sample_slots_fit.
  - reflexivity.
Defined.

(** C2 (as stated, refuted): a vector with the nonzero [maxdepth] 5 has
    the divisor [maxdepth / 10 = 0]; the division [depth / 0] has no result,
    so the offset is not the value of the formula. *)
Lemma C2_offset_nonzero_maxdepth_fails :
  maxdepth feat_md5 <> 0 /\
  SCIPfeatGetOffset 1%N (mem_of feat_md5 []) = None /\
  SCIPfeatGetOffset 1%N (mem_of feat_md5 [])
    <> Some (offset_floor feat_md5, mem_of feat_md5 []).
Proof.
  split; [discriminate|].
  assert (H : SCIPfeatGetOffset 1%N (mem_of feat_md5 []) = None)
    by (rewrite run_offset; reflexivity).
  split; [exact H|]. rewrite H. discriminate.
Qed.

Lemma C2_offset_formula_witness :
  SCIPfeatGetOffset 1%N (mem_of feat_55 []) = Some (55, mem_of feat_55 []) /\
  SCIPfeatGetOffset 1%N (mem_of feat_md5 []) = None.
Proof.
  split.
  - refine (proj2 (proj1 (C2_offset_formula (mem_of feat_55 []) 1%N feat_55 _ _)
                     _ _ _) _ _ _ _);
      try reflexivity; try (vm_compute; intuition discriminate).
  - refine (proj2 (C2_offset_formula (mem_of feat_md5 []) 1%N feat_md5 _ _) _);
      try reflexivity. cbn. lia.
Defined.

Lemma C3_relative_bound_witness :
  exists m' ys,
    SCIPcalcNodeselFeat (E := sample_enumerators)
      sample_scip (sample_node 4) 1%N sample_mem = Some (tt, m') /\
    reals m' !! 1%N = Some ys /\
    ((18 - 10 =? 0)%float = false -> ys !! 2%nat = Some ((12 - 10) / (18 - 10))%float) /\
    ((18 - 10 =? 0)%float = true ->
     ys !! 2%nat = replicate 13 0%float !! 2%nat /\
     (replicate 13 0%float !! 2%nat = Some 0%float -> ys !! 2%nat = Some 0%float)) /\
    (0 = 0 -> 10%float = 10%float -> 50%float = 50%float ->
     (10 + 0.2 * (50 - 10))%float = 18%float).
Proof.
  apply (C3_relative_bound (E := sample_enumerators)
           sample_scip (sample_node 4) (sample_boundchg 4) 1%N
           sample_feat (replicate 13 0%float) sample_mem).
  - apply sample_slots_distinct.
  - reflexivity.
  - reflexivity.
  - reflexivity.
  - discriminate.
  - apply sample_node_valid.
  - apply sample_slots_fit.
Defined.

Lemma C4_lowerbound_and_estimate_ratios_witness :
  exists m' ys,
    SCIPcalcNodeselFeat (E := sample_enumerators)
      sample_scip (sample_node 4) 1%N sample_mem = Some (tt, m') /\
    reals m' !! 1%N = Some ys /\
    ys !! 0%nat = Some 120%float /\
    ys !! 1%nat = Some 140%float /\
    (0.1 =? 0)%float = false.
Proof.
  apply (C4_lowerbound_and_estimate_ratios (E := sample_enumerators)
           sample_scip (sample_node 4) (sample_boundchg 4) 1%N
           sample_feat (replicate 13 0%float) sample_mem).
  - apply sample_slots_distinct.
  - reflexivity.
  - reflexivity.
  - reflexivity.
  - discriminate.
  - apply sample_node_valid.
  - apply sample_slots_fit.
Defined.

(** C5 (as stated, refuted): the calculation accepts every nonzero
    [maxdepth].  The vector it computes with [maxdepth] 5 has a nonzero
    depth and all its 13 slots, and the writer has no result on it: the
    offset divides by [maxdepth / 10 = 0]. *)
Lemma C5_print_computed_vector_fails :
  exists m f xs,
    SCIPcalcNodeselFeat (E := sample_enumerators) sample_scip (sample_node 4)
      1%N (mem_of (set_maxdepth 5 sample_feat) (replicate 13 0%float))
    = Some (tt, m) /\
    feats m !! 1%N = Some f /\ depth f <> 0 /\ size f = 13 /\
    reals m !! vals f = Some xs /\ length xs = 13%nat /\
    SCIPfeatLIBSVMPrint 1%N 1 m = None.
Proof.
  eexists _, _, _.
  split; [vm_compute; reflexivity|].
  split; [vm_compute; reflexivity|].
  split; [discriminate|].
  split; [reflexivity|].
  split; [vm_compute; reflexivity|].
  split; [reflexivity|].
  vm_compute. reflexivity.
Qed.

Lemma C5_print_single_line_witness :
  exists pairs,
    SCIPfeatLIBSVMPrint 1%N 1 mem_four
    = Some (tt, with_out (out mem_four ++ MsgLabel 1 :: pairs ++ [MsgNewline])
                  mem_four) /\
    length pairs = Z.to_nat 3 /\
    (forall i x, Z.of_nat i < 3 -> [1.5; 2; 0.25]%float !! i = Some x ->
       pairs !! i = Some (MsgPair (Z.of_nat i + 15 + 1) x)) /\
    pair_indices pairs = seqZ (15 + 1) 3 /\
    ascending (pair_indices pairs).
Proof.
  apply (C5_print_single_line mem_four 1%N
           (mkFeat 1%N 0%float 0%float 0 100 25 3 1)
           [1.5; 2; 0.25]%float 15 1);
    try reflexivity; try discriminate;
    try (rewrite run_offset; reflexivity).
Defined.

Lemma C6_negate_is_swap_witness :
  SCIPfeatDiffLIBSVMPrint 1%N 3%N 1 true mem_four
  = SCIPfeatDiffLIBSVMPrint 3%N 1%N (-1) false mem_four.
Proof.
  apply (C6_negate_is_swap 1%N 3%N 1 mem_four).
  unfold Int.min_signed, Int.max_signed. lia.
Defined.

Lemma C7_diff_is_single_on_difference_witness :
  SCIPfeatDiffLIBSVMPrint 1%N 2%N 1 false mem_four
  = SCIPfeatLIBSVMPrint 4%N 1 mem_four.
Proof.
  refine (proj1 (C7_diff_is_single_on_difference mem_four 1%N 2%N 4%N
                   (mkFeat 1%N 0%float 0%float 0 100 25 3 1)
                   (mkFeat 2%N 0%float 0%float 0 100 29 3 1)
                   (mkFeat 4%N 0%float 0%float 0 100 25 3 1)
                   [1.5; 2; 0.25]%float [0.5; 2; 1]%float 15 1
                   _ _ _ _ _ _ _ _ _ _ _ _ _ _ _ _ _ _ _ _));
    try reflexivity; try discriminate;
    try (rewrite run_offset; reflexivity);
    vm_compute; discriminate.
Defined.

Lemma C8_diff_two_blocks_witness :
  SCIPfeatDiffLIBSVMPrint 3%N 1%N 1 false mem_four
  = Some (tt, with_out
            [MsgLabel 1;
             MsgPair 16 (-1.5)%float; MsgPair 17 (-2)%float;
             MsgPair 18 (-0.25)%float;
             MsgPair 19 4%float; MsgPair 20 5%float; MsgPair 21 6%float;
             MsgNewline] mem_four).
Proof.
  refine (proj1 (C8_diff_two_blocks mem_four 3%N 1%N
                   (mkFeat 3%N 0%float 0%float 0 100 37 3 0)
                   (mkFeat 1%N 0%float 0%float 0 100 25 3 1)
                   [4; 5; 6]%float [1.5; 2; 0.25]%float 18 15 1
                   _ _ _ _ _ _ _ _ _ _ _ _ _ _ _ _ _ _));
    try reflexivity; try discriminate;
    try (rewrite run_offset; reflexivity);
    vm_compute; intuition discriminate.
Defined.

Lemma C9_copy_into_second_parameter_witness :
  exists m' g',
    SCIPfeatCopy 1%N 3%N mem_four = Some (tt, m') /\
    feats m' !! 3%N = Some g' /\
    maxdepth g' = 100 /\ depth g' = 25 /\ size g' = 3 /\
    boundtype g' = 1 /\ rootlpobj g' = 0%float /\
    sumobjcoeff g' = 0%float /\ nconstrs g' = 0 /\
    vals g' = 3%N /\
    reals m' !! 3%N = Some [1.5; 2; 0.25]%float /\
    feats m' !! 1%N = Some (mkFeat 1%N 0%float 0%float 0 100 25 3 1) /\
    reals m' !! 1%N = Some [1.5; 2; 0.25]%float /\
    (forall r, r <> 3%N -> feats m' !! r = feats mem_four !! r) /\
    (forall a, a <> 3%N -> reals m' !! a = reals mem_four !! a) /\
    out m' = [] /\
    (forall mu m'',
       mutate (E := sample_enumerators) mu 1%N m' = Some (tt, m'') ->
       feats m'' !! 3%N = Some g' /\
       reals m'' !! 3%N = Some [1.5; 2; 0.25]%float).
Proof.
  apply (C9_copy_into_second_parameter (E := sample_enumerators)
           mem_four 1%N 3%N
           (mkFeat 1%N 0%float 0%float 0 100 25 3 1)
           (mkFeat 3%N 0%float 0%float 0 100 37 3 0)
           [1.5; 2; 0.25]%float [4; 5; 6]%float);
    try reflexivity; discriminate.
Defined.

Lemma C10_calc_frame_witness :
  exists m' f',
    SCIPcalcNodeselFeat (E := sample_enumerators)
      sample_scip (sample_node 4) 1%N sample_mem = Some (tt, m') /\
    feats m' !! 1%N = Some f' /\
    rootlpobj f' = 0%float /\ sumobjcoeff f' = 0%float /\
    nconstrs f' = 0 /\ size f' = 13 /\
    maxdepth f' = 100 /\ vals f' = 1%N /\
    depth f' = 25 /\ boundtype f' = 1 /\
    (forall q, q <> 1%N -> feats m' !! q = feats sample_mem !! q) /\
    (forall a, a <> 1%N -> reals m' !! a = reals sample_mem !! a) /\
    out m' = [].
Proof.
  apply (C10_calc_frame (E := sample_enumerators)
           sample_scip (sample_node 4) (sample_boundchg 4) 1%N
           sample_feat (replicate 13 0%float) sample_mem).
  - reflexivity.
  - reflexivity.
  - reflexivity.
  - discriminate.
  - apply sample_node_valid.
  - apply sample_slots_fit.
Defined.

(** * Further properties of feat.c *)

(** ** Creation and release *)

Section CreateFree.

(** X1: when the allocator grants the block and the array, creating a
    vector of [sz >= 0] slots returns [SCIP_OKAY] and a non-null address
    that was not allocated, with an array of its own that was not
    allocated either.  Whatever the memory handed out held, all scalar
    fields are 0 except [size], which is [sz], and the array holds [sz]
    zeros; every vector and array allocated before and the stream are
    unchanged; [SCIPfeatGetSize] and [SCIPfeatGetVals] then return [sz]
    and the array. *)
Theorem X1_create_fresh_and_zeroed al junk junk' sz m :
  block_granted al = Some junk -> array_granted al = Some junk' ->
  0 <= sz <= Int.max_signed ->
  exists p a m',
    SCIPfeatCreate al sz m = Some ((SCIP_OKAY, p), m') /\
    nonnull p = true /\ feats m !! p = None /\
    nonnull a = true /\ reals m !! a = None /\
    feats m' !! p = Some (mkFeat a 0%float 0%float 0 0 0 sz 0) /\
    reals m' !! a = Some (replicate (Z.to_nat sz) 0%float) /\
    Z.of_nat (length (replicate (Z.to_nat sz) 0%float)) = sz /\
    (forall q f, feats m !! q = Some f -> feats m' !! q = Some f) /\
    (forall b xs, reals m !! b = Some xs -> reals m' !! b = Some xs) /\
    out m' = out m /\
    SCIPfeatGetSize p m' = Some (sz, m') /\
    SCIPfeatGetVals p m' = Some (a, m').
Proof.
  intros Hblk Harr [Hsz _].
  destruct (run_create al junk junk' sz m Hblk Harr Hsz)
    as (p & a & Hrun & Hp & Hfp & Ha & Hra).
  eexists p, a, _. split; [exact Hrun|].
  assert (Hlook : <[p := mkFeat a 0%float 0%float 0 0 0 sz 0]> (feats m) !! p
                  = Some (mkFeat a 0%float 0%float 0 0 0 sz 0))
    by apply lookup_insert_eq.
  do 4 (split; [assumption|]).
  split; [exact Hlook|].
  split; [cbn; apply lookup_insert_eq|].
  split; [rewrite length_replicate; lia|].
  split.
  { intros q f Hq. cbn. rewrite lookup_insert_ne by congruence. exact Hq. }
  split.
  { intros b xs Hb. cbn. rewrite lookup_insert_ne by congruence. exact Hb. }
  split; [reflexivity|].
  split.
  - apply (run_size p (mkFeat a 0%float 0%float 0 0 0 sz 0));
      [exact Hp|exact Hlook].
  - unfold SCIPfeatGetVals.
    rewrite (run_bind _ _ _ tt _ (run_assert _ _ Hp)).
    apply (run_get vals p (mkFeat a 0%float 0%float 0 0 0 sz 0));
      [exact Hp|exact Hlook].
Qed.

Lemma X1_create_fresh_and_zeroed_witness :
  exists p a m',
    SCIPfeatCreate sample_allocator 13 mem_four = Some ((SCIP_OKAY, p), m') /\
    nonnull p = true /\ feats mem_four !! p = None /\
    nonnull a = true /\ reals mem_four !! a = None /\
    feats m' !! p = Some (mkFeat a 0%float 0%float 0 0 0 13 0) /\
    reals m' !! a = Some (replicate (Z.to_nat 13) 0%float) /\
    Z.of_nat (length (replicate (Z.to_nat 13) 0%float)) = 13 /\
    (forall q f, feats mem_four !! q = Some f -> feats m' !! q = Some f) /\
    (forall b xs, reals mem_four !! b = Some xs -> reals m' !! b = Some xs) /\
    out m' = out mem_four /\
    SCIPfeatGetSize p m' = Some (13, m') /\
    SCIPfeatGetVals p m' = Some (a, m').
Proof.
  apply (X1_create_fresh_and_zeroed sample_allocator sample_junk
           (fun _ => 7.5%float) 13 mem_four);
    [reflexivity | reflexivity | unfold Int.max_signed; lia].
Defined.

(** The two ways [SCIPfeatCreate] returns without a vector. *)
Lemma run_create_no_block al sz m :
  block_granted al = None ->
  SCIPfeatCreate al sz m = Some ((SCIP_NOMEMORY, NULL), m).
Proof.
  intros Hblk. unfold SCIPfeatCreate.
  assert (Hb : SCIPallocBlockMemory al m = Some ((SCIP_NOMEMORY, NULL), m))
    by (unfold SCIPallocBlockMemory; rewrite Hblk; reflexivity).
  rewrite (run_bind _ _ _ _ _ Hb). reflexivity.
Qed.

Lemma run_create_no_array al junk sz m :
  block_granted al = Some junk -> array_granted al = None \/ sz < 0 ->
  SCIPfeatCreate al sz m
  = Some ((SCIP_NOMEMORY, fresh_addr (feats m)),
          with_feats (<[fresh_addr (feats m) := set_vals NULL junk]> (feats m)) m).
Proof.
  intros Hblk Hno.
  destruct (fresh_addr_spec (feats m)) as [Hp _].
  set (p := fresh_addr (feats m)) in *.
  unfold SCIPfeatCreate.
  assert (Hb : SCIPallocBlockMemory al m
               = Some ((SCIP_OKAY, p), with_feats (<[p := junk]> (feats m)) m))
    by (unfold SCIPallocBlockMemory; rewrite Hblk; reflexivity).
  rewrite (run_bind _ _ _ _ _ Hb).
  assert (Hv : BMSallocMemoryArray al p sz (with_feats (<[p := junk]> (feats m)) m)
               = Some (NULL, with_feats (<[p := set_vals NULL junk]> (feats m)) m)).
  { unfold BMSallocMemoryArray.
    replace (if sz <? 0 then None else array_granted al)
      with (@None (nat -> SCIP_Real))
      by (destruct (Z.ltb_spec sz 0); [reflexivity|];
          destruct Hno as [->|]; [reflexivity|lia]).
    unfold with_feats. cbn [feats reals out].
    rewrite (step_put set_vals (feats m) _ (out m) p junk NULL) by exact Hp.
    reflexivity. }
  rewrite (run_bind _ _ _ _ _ Hv). reflexivity.
Qed.

(** X28: [SCIPfeatCreate] always returns, and returns [SCIP_OKAY] exactly
    when the allocator grants both requests and the size is not
    negative.  When the block is refused it returns [SCIP_NOMEMORY] with
    a [NULL] pointer and the memory unchanged.  When the block is granted
    and the array is refused, or the size is negative, it returns
    [SCIP_NOMEMORY] without releasing the block: the structure stays
    allocated at a new address, with [vals] [NULL] and every other field
    as the block held it, and nothing else is changed. *)
Theorem X28_create_without_memory al sz m :
  Int.in_range sz ->
  (exists r m',
     SCIPfeatCreate al sz m = Some (r, m') /\
     (r.1 = SCIP_OKAY <->
      is_Some (block_granted al) /\ is_Some (array_granted al) /\ 0 <= sz)) /\
  (block_granted al = None ->
   SCIPfeatCreate al sz m = Some ((SCIP_NOMEMORY, NULL), m)) /\
  (forall junk,
     block_granted al = Some junk -> array_granted al = None \/ sz < 0 ->
     exists p,
       SCIPfeatCreate al sz m
       = Some ((SCIP_NOMEMORY, p),
               with_feats (<[p := set_vals NULL junk]> (feats m)) m) /\
       nonnull p = true /\ feats m !! p = None).
Proof.
  intros _. split; [|split].
  - destruct (block_granted al) as [junk|] eqn:Hblk.
    + destruct (array_granted al) as [junk'|] eqn:Harr.
      * destruct (Z.le_gt_cases 0 sz) as [Hsz|Hsz].
        -- destruct (run_create al junk junk' sz m Hblk Harr Hsz)
             as (p & a & Hrun & _).
           eexists _, _. split; [exact Hrun|]. cbn. split; [|reflexivity].
           intros _. repeat split; [eexists; reflexivity ..|exact Hsz].
        -- eexists _, _.
           split; [apply (run_create_no_array al junk sz m Hblk); right; lia|].
           cbn. split; [discriminate|]. intros (_ & _ & H). lia.
      * eexists _, _.
        split; [apply (run_create_no_array al junk sz m Hblk); left; exact Harr|].
        cbn. split; [discriminate|]. intros (_ & [x Hx] & _). discriminate.
    + eexists _, _. split; [apply run_create_no_block; exact Hblk|].
      cbn. split; [discriminate|]. intros ([x Hx] & _). discriminate.
  - apply run_create_no_block.
  - intros junk Hblk Hno. exists (fresh_addr (feats m)).
    split; [apply run_create_no_array; assumption|].
    apply fresh_addr_spec.
Qed.

Lemma X28_create_without_memory_witness :
  SCIPfeatCreate no_block_allocator 13 mem_four
  = Some ((SCIP_NOMEMORY, NULL), mem_four) /\
  exists p,
    SCIPfeatCreate no_array_allocator 13 mem_four
    = Some ((SCIP_NOMEMORY, p),
            with_feats (<[p := set_vals NULL sample_junk]> (feats mem_four))
              mem_four) /\
    nonnull p = true /\ feats mem_four !! p = None.
Proof.
  assert (Hr : Int.in_range 13)
    by (unfold Int.in_range, Int.min_signed, Int.max_signed; lia).
  split.
  - apply (proj1 (proj2 (X28_create_without_memory no_block_allocator 13
                           mem_four Hr))).
    reflexivity.
  - apply (proj2 (proj2 (X28_create_without_memory no_array_allocator 13
                           mem_four Hr)) sample_junk);
      [reflexivity | left; reflexivity].
Defined.

(** [SCIPfeatFree] on an allocated vector. *)
Lemma run_free p f m :
  nonnull p = true -> feats m !! p = Some f ->
  SCIPfeatFree p m
  = Some (tt, mkMem (delete p (feats m)) (delete (vals f) (reals m)) (out m)).
Proof.
  intros Hp Hf. unfold SCIPfeatFree.
  rewrite (run_bind _ _ _ tt _ (run_assert _ _ Hp)).
  rewrite (run_bind _ _ _ _ _ (run_get vals p f m Hp Hf)).
  reflexivity.
Qed.

(** X2: when the allocator grants both requests, creating a vector and
    freeing it at once gives back the memory as it was. *)
Theorem X2_create_free_round_trip al junk junk' sz m :
  block_granted al = Some junk -> array_granted al = Some junk' ->
  0 <= sz <= Int.max_signed ->
  (r ← SCIPfeatCreate al sz; SCIPfeatFree r.2) m = Some (tt, m).
Proof.
  intros Hblk Harr [Hsz _].
  destruct (run_create al junk junk' sz m Hblk Harr Hsz)
    as (p & a & Hrun & Hp & Hfp & Ha & Hra).
  rewrite (run_bind _ _ _ _ _ Hrun). cbn [snd].
  rewrite (run_free p (mkFeat a 0%float 0%float 0 0 0 sz 0))
    by (try assumption; cbn; apply lookup_insert_eq).
  cbn. rewrite !delete_insert_eq, !delete_id by assumption.
  destruct m; reflexivity.
Qed.

Lemma X2_create_free_round_trip_witness :
  (r ← SCIPfeatCreate sample_allocator 13; SCIPfeatFree r.2) mem_four
  = Some (tt, mem_four).
Proof.
  apply (X2_create_free_round_trip sample_allocator sample_junk
           (fun _ => 7.5%float) 13 mem_four);
    [reflexivity | reflexivity | unfold Int.max_signed; lia].
Defined.

(** X3: freeing an allocated vector removes its structure and its array
    and changes no other vector, no other array and not the stream;
    afterwards a second free of the address, a size or offset query and
    both writers fail. *)
Theorem X3_free_releases_one_vector p f m :
  nonnull p = true -> feats m !! p = Some f ->
  exists m',
    SCIPfeatFree p m = Some (tt, m') /\
    feats m' !! p = None /\ reals m' !! vals f = None /\
    (forall q, q <> p -> feats m' !! q = feats m !! q) /\
    (forall b, b <> vals f -> reals m' !! b = reals m !! b) /\
    out m' = out m /\
    SCIPfeatFree p m' = None /\
    SCIPfeatGetSize p m' = None /\
    SCIPfeatGetOffset p m' = None /\
    (forall label, SCIPfeatLIBSVMPrint p label m' = None) /\
    (forall q label negate,
       SCIPfeatDiffLIBSVMPrint p q label negate m' = None /\
       SCIPfeatDiffLIBSVMPrint q p label negate m' = None).
Proof.
  intros Hp Hf. eexists. split; [apply (run_free p f m Hp Hf)|].
  set (m' := mkMem _ _ _).
  assert (Hgone : feats m' !! p = None) by (cbn; apply lookup_delete_eq).
  assert (Hget : forall A (fld : SCIP_FEAT -> A), get fld p m' = None)
    by (intros A fld; unfold get; rewrite Hp, Hgone; reflexivity).
  split; [exact Hgone|].
  split; [cbn; apply lookup_delete_eq|].
  split; [intros q Hq; cbn; apply lookup_delete_ne; congruence|].
  split; [intros b Hb; cbn; apply lookup_delete_ne; congruence|].
  split; [reflexivity|].
  split.
  { unfold SCIPfeatFree.
    rewrite (run_bind _ _ _ tt _ (run_assert _ _ Hp)).
    apply run_bind_None, Hget. }
  split.
  { unfold SCIPfeatGetSize.
    rewrite (run_bind _ _ _ tt _ (run_assert _ _ Hp)). apply Hget. }
  split; [rewrite run_offset, Hp, Hgone; reflexivity|].
  split.
  { intros label. unfold SCIPfeatLIBSVMPrint.
    rewrite (run_bind _ _ _ tt _ (run_assert _ _ Hp)).
    apply run_bind_None, Hget. }
  intros q label negate. rewrite !diff_print_unfold.
  unfold diff_asserts. rewrite Hgone, Hp.
  destruct (nonnull q), (feats m' !! q); split; reflexivity.
Qed.

Lemma X3_free_releases_one_vector_witness :
  exists m',
    SCIPfeatFree 2%N mem_four = Some (tt, m') /\
    feats m' !! 2%N = None /\ reals m' !! 2%N = None /\
    (forall q, q <> 2%N -> feats m' !! q = feats mem_four !! q) /\
    (forall b, b <> 2%N -> reals m' !! b = reals mem_four !! b) /\
    out m' = out mem_four /\
    SCIPfeatFree 2%N m' = None /\
    SCIPfeatGetSize 2%N m' = None /\
    SCIPfeatGetOffset 2%N m' = None /\
    (forall label, SCIPfeatLIBSVMPrint 2%N label m' = None) /\
    (forall q label negate,
       SCIPfeatDiffLIBSVMPrint 2%N q label negate m' = None /\
       SCIPfeatDiffLIBSVMPrint q 2%N label negate m' = None).
Proof.
  apply (X3_free_releases_one_vector 2%N
           (mkFeat 2%N 0%float 0%float 0 100 29 3 1) mem_four);
    reflexivity.
Defined.

End CreateFree.

(** ** The slots of the calculation *)

Section CalcAllSlots.

Context {E : Enumerators}.

Ltac all_slot_facts Hd Hfit :=
  unfold slots_distinct, feat_slots in Hd;
  rewrite !NoDup_cons, !not_elem_of_cons in Hd;
  unfold slots_fit, feat_slots in Hfit;
  rewrite !Forall_cons in Hfit;
  destruct_and!.

Ltac other_slot := first [assumption | apply not_eq_sym; assumption].

Ltac skip_slots :=
  repeat first [rewrite upd_lookup_ne by other_slot
               |rewrite upd_if_lookup_ne by other_slot].

Ltac inside :=
  repeat first [rewrite upd_length | rewrite upd_if_length];
  split; assumption.

Ltac stored := skip_slots; apply upd_lookup_eq; inside.

Lemma upd_if_lookup c i x xs :
  0 <= i < Z.of_nat (length xs) ->
  upd_if c i x xs !! Z.to_nat i = if c then Some x else xs !! Z.to_nat i.
Proof. intros Hi. destruct c; [apply upd_lookup_eq; exact Hi|reflexivity]. Qed.

Ltac stored_if :=
  skip_slots; rewrite upd_if_lookup by inside;
  match goal with
  | |- (if ?c then _ else _) = _ =>
      destruct c; [reflexivity | skip_slots; reflexivity]
  end.

(** What the value array holds in the conditionally written slots and in
    the slots of the branching variable after the calculation. *)
Lemma calc_vals_slots scip node bc0 md xs :
  slots_distinct -> slots_fit (length xs) ->
  let ys := calc_vals scip node bc0 md xs in
  let ty := SCIPnodeGetType node in
  let v := bc_var bc0 in
  let dir := SCIPvarGetBranchDirection v in
  let varsol := SCIPvarGetSol v (SCIPtreeHasFocusNodeLP scip) in
  ys !! Z.to_nat SCIP_FEATNODESEL_TYPE_SIBLING
    = (if ty =? SCIP_NODETYPE_SIBLING then Some 1%float
       else xs !! Z.to_nat SCIP_FEATNODESEL_TYPE_SIBLING) /\
  ys !! Z.to_nat SCIP_FEATNODESEL_TYPE_CHILD
    = (if negb (ty =? SCIP_NODETYPE_SIBLING) && (ty =? SCIP_NODETYPE_CHILD)
       then Some 1%float
       else xs !! Z.to_nat SCIP_FEATNODESEL_TYPE_CHILD) /\
  ys !! Z.to_nat SCIP_FEATNODESEL_TYPE_LEAF
    = (if negb (ty =? SCIP_NODETYPE_SIBLING)
          && negb (ty =? SCIP_NODETYPE_CHILD) && (ty =? SCIP_NODETYPE_LEAF)
       then Some 1%float
       else xs !! Z.to_nat SCIP_FEATNODESEL_TYPE_LEAF) /\
  ys !! Z.to_nat SCIP_FEATNODESEL_BRANCHVAR_BOUNDLPDIFF
    = Some (bc_newbound bc0 - varsol)%float /\
  ys !! Z.to_nat SCIP_FEATNODESEL_BRANCHVAR_ROOTLPDIFF
    = Some (SCIPvarGetRootSol v - varsol)%float /\
  ys !! Z.to_nat SCIP_FEATNODESEL_BRANCHVAR_PRIO_DOWN
    = (if dir =? SCIP_BRANCHDIR_DOWNWARDS then Some 1%float
       else xs !! Z.to_nat SCIP_FEATNODESEL_BRANCHVAR_PRIO_DOWN) /\
  ys !! Z.to_nat SCIP_FEATNODESEL_BRANCHVAR_PRIO_UP
    = (if negb (dir =? SCIP_BRANCHDIR_DOWNWARDS)
          && (dir =? SCIP_BRANCHDIR_UPWARDS)
       then Some 1%float
       else xs !! Z.to_nat SCIP_FEATNODESEL_BRANCHVAR_PRIO_UP) /\
  ys !! Z.to_nat SCIP_FEATNODESEL_BRANCHVAR_PSEUDOCOST
    = Some (SCIPvarGetPseudocost v (bc_newbound bc0 - varsol)
            / ABS (SCIPcolGetObj (SCIPvarGetCol v)))%float /\
  ys !! Z.to_nat SCIP_FEATNODESEL_BRANCHVAR_INF
    = Some (if bc_boundtype bc0 =? SCIP_BOUNDTYPE_LOWER
            then (SCIPvarGetAvgInferences v SCIP_BRANCHDIR_UPWARDS
                  / double_of_int md)%float
            else (SCIPvarGetAvgInferences v SCIP_BRANCHDIR_DOWNWARDS
                  / double_of_int md)%float).
Proof.
  intros Hd Hfit. all_slot_facts Hd Hfit.
  cbv zeta. unfold calc_vals. cbv zeta.
  repeat split.
  - stored_if.
  - stored_if.
  - stored_if.
  - stored.
  - stored.
  - stored_if.
  - stored_if.
  - stored.
  - stored.
Qed.

End CalcAllSlots.

Section CalcExtras.

Context {E : Enumerators}.

(** X4: on a valid node and a vector whose three node type slots hold 0
    (as after creation), with pairwise different enumerators for sibling,
    child and leaf, the calculation leaves 1 in the slot of the node's
    type and 0 in the other two; for any other node type all three stay
    0. *)
Theorem X4_node_type_indicators scip node bc0 p f xs m :
  slots_distinct ->
  nonnull p = true -> feats m !! p = Some f -> reals m !! vals f = Some xs ->
  maxdepth f <> 0 -> node_valid node bc0 -> slots_fit (length xs) ->
  SCIP_NODETYPE_SIBLING <> SCIP_NODETYPE_CHILD ->
  SCIP_NODETYPE_SIBLING <> SCIP_NODETYPE_LEAF ->
  SCIP_NODETYPE_CHILD <> SCIP_NODETYPE_LEAF ->
  xs !! Z.to_nat SCIP_FEATNODESEL_TYPE_SIBLING = Some 0%float ->
  xs !! Z.to_nat SCIP_FEATNODESEL_TYPE_CHILD = Some 0%float ->
  xs !! Z.to_nat SCIP_FEATNODESEL_TYPE_LEAF = Some 0%float ->
  let ty := SCIPnodeGetType node in
  exists m' ys,
    SCIPcalcNodeselFeat scip node p m = Some (tt, m') /\
    reals m' !! vals f = Some ys /\
    ys !! Z.to_nat SCIP_FEATNODESEL_TYPE_SIBLING
      = Some (if ty =? SCIP_NODETYPE_SIBLING then 1%float else 0%float) /\
    ys !! Z.to_nat SCIP_FEATNODESEL_TYPE_CHILD
      = Some (if ty =? SCIP_NODETYPE_CHILD then 1%float else 0%float) /\
    ys !! Z.to_nat SCIP_FEATNODESEL_TYPE_LEAF
      = Some (if ty =? SCIP_NODETYPE_LEAF then 1%float else 0%float).
Proof.
  intros Hd Hp Hf Hxs Hmd Hnode Hfit Hsc Hsl Hcl H0s H0c H0l ty.
  eexists _, _. split; [apply (run_calc scip node bc0 p f xs m); assumption|].
  split; [cbn; apply lookup_insert_eq|].
  destruct (calc_vals_slots scip node bc0 (maxdepth f) xs Hd Hfit)
    as (Hs & Hc & Hl & _).
  rewrite Hs, Hc, Hl, H0s, H0c, H0l. fold ty.
  destruct (Z.eqb_spec ty SCIP_NODETYPE_SIBLING) as [Hs1|Hs1],
           (Z.eqb_spec ty SCIP_NODETYPE_CHILD) as [Hc1|Hc1],
           (Z.eqb_spec ty SCIP_NODETYPE_LEAF) as [Hl1|Hl1];
    try (exfalso; congruence); repeat split; reflexivity.
Qed.

(** X5: the calculation never clears a node type slot.  After a
    calculation for a sibling node and then one for a child node on the
    same vector, both the sibling slot and the child slot hold 1. *)
Theorem X5_node_type_indicators_accumulate
    scip1 node1 bc1 scip2 node2 bc2 p f xs m :
  slots_distinct ->
  nonnull p = true -> feats m !! p = Some f -> reals m !! vals f = Some xs ->
  maxdepth f <> 0 -> slots_fit (length xs) ->
  node_valid node1 bc1 -> node_valid node2 bc2 ->
  SCIP_NODETYPE_SIBLING <> SCIP_NODETYPE_CHILD ->
  SCIPnodeGetType node1 = SCIP_NODETYPE_SIBLING ->
  SCIPnodeGetType node2 = SCIP_NODETYPE_CHILD ->
  exists m' ys,
    (SCIPcalcNodeselFeat scip1 node1 p;; SCIPcalcNodeselFeat scip2 node2 p) m
    = Some (tt, m') /\
    reals m' !! vals f = Some ys /\
    ys !! Z.to_nat SCIP_FEATNODESEL_TYPE_SIBLING = Some 1%float /\
    ys !! Z.to_nat SCIP_FEATNODESEL_TYPE_CHILD = Some 1%float.
Proof.
  intros Hd Hp Hf Hxs Hmd Hfit Hn1 Hn2 Hsc Ht1 Ht2.
  rewrite (run_bind _ _ _ _ _ (run_calc scip1 node1 bc1 p f xs m
                                 Hp Hf Hxs Hmd Hn1 Hfit)).
  set (f1 := set_boundtype _ _).
  set (ys1 := calc_vals scip1 node1 bc1 (maxdepth f) xs).
  assert (Hfit1 : slots_fit (length ys1))
    by (unfold ys1; rewrite calc_vals_length; exact Hfit).
  destruct (calc_vals_slots scip2 node2 bc2 (maxdepth f1) ys1 Hd Hfit1)
    as (Hs2 & Hc2 & _).
  destruct (calc_vals_slots scip1 node1 bc1 (maxdepth f) xs Hd Hfit)
    as (Hs1 & _).
  fold ys1 in Hs1. rewrite Ht1, Z.eqb_refl in Hs1.
  rewrite Ht2, Hs1 in Hs2. rewrite Ht2, Z.eqb_refl in Hc2.
  destruct (Z.eqb_spec SCIP_NODETYPE_CHILD SCIP_NODETYPE_SIBLING);
    [exfalso; congruence|].
  eexists _, _. split.
  { apply (run_calc scip2 node2 bc2 p f1 ys1); try assumption.
    - cbn. apply lookup_insert_eq.
    - cbn. apply lookup_insert_eq. }
  split; [cbn [reals]; apply lookup_insert_eq|].
  split; [exact Hs2|exact Hc2].
Qed.

(** X6: on a valid node and a vector whose two branching priority slots
    hold 0, with different enumerators for downwards and upwards, the
    calculation leaves 1 in the downwards slot exactly when the variable's
    preferred direction is downwards and 1 in the upwards slot exactly
    when it is upwards; for any other direction both stay 0. *)
Theorem X6_branch_direction_indicators scip node bc0 p f xs m :
  slots_distinct ->
  nonnull p = true -> feats m !! p = Some f -> reals m !! vals f = Some xs ->
  maxdepth f <> 0 -> node_valid node bc0 -> slots_fit (length xs) ->
  SCIP_BRANCHDIR_DOWNWARDS <> SCIP_BRANCHDIR_UPWARDS ->
  xs !! Z.to_nat SCIP_FEATNODESEL_BRANCHVAR_PRIO_DOWN = Some 0%float ->
  xs !! Z.to_nat SCIP_FEATNODESEL_BRANCHVAR_PRIO_UP = Some 0%float ->
  let dir := SCIPvarGetBranchDirection (bc_var bc0) in
  exists m' ys,
    SCIPcalcNodeselFeat scip node p m = Some (tt, m') /\
    reals m' !! vals f = Some ys /\
    ys !! Z.to_nat SCIP_FEATNODESEL_BRANCHVAR_PRIO_DOWN
      = Some (if dir =? SCIP_BRANCHDIR_DOWNWARDS then 1%float else 0%float) /\
    ys !! Z.to_nat SCIP_FEATNODESEL_BRANCHVAR_PRIO_UP
      = Some (if dir =? SCIP_BRANCHDIR_UPWARDS then 1%float else 0%float).
Proof.
  intros Hd Hp Hf Hxs Hmd Hnode Hfit Hdu H0d H0u dir.
  eexists _, _. split; [apply (run_calc scip node bc0 p f xs m); assumption|].
  split; [cbn; apply lookup_insert_eq|].
  destruct (calc_vals_slots scip node bc0 (maxdepth f) xs Hd Hfit)
    as (_ & _ & _ & _ & _ & Hdown & Hup & _).
  rewrite Hdown, Hup, H0d, H0u. fold dir.
  destruct (Z.eqb_spec dir SCIP_BRANCHDIR_DOWNWARDS),
           (Z.eqb_spec dir SCIP_BRANCHDIR_UPWARDS);
    try (exfalso; congruence); split; reflexivity.
Qed.

(** X7: on a valid node the calculation stores the new bound minus the
    variable's solution value in the bound difference slot and the
    variable's root solution value minus its solution value in the root
    difference slot, the solution value being taken with the flag that
    tells whether the focus node has an LP. *)
Theorem X7_branching_differences scip node bc0 p f xs m :
  slots_distinct ->
  nonnull p = true -> feats m !! p = Some f -> reals m !! vals f = Some xs ->
  maxdepth f <> 0 -> node_valid node bc0 -> slots_fit (length xs) ->
  let v := bc_var bc0 in
  let varsol := SCIPvarGetSol v (SCIPtreeHasFocusNodeLP scip) in
  exists m' ys,
    SCIPcalcNodeselFeat scip node p m = Some (tt, m') /\
    reals m' !! vals f = Some ys /\
    ys !! Z.to_nat SCIP_FEATNODESEL_BRANCHVAR_BOUNDLPDIFF
      = Some (bc_newbound bc0 - varsol)%float /\
    ys !! Z.to_nat SCIP_FEATNODESEL_BRANCHVAR_ROOTLPDIFF
      = Some (SCIPvarGetRootSol v - varsol)%float.
Proof.
  intros Hd Hp Hf Hxs Hmd Hnode Hfit v varsol.
  eexists _, _. split; [apply (run_calc scip node bc0 p f xs m); assumption|].
  split; [cbn; apply lookup_insert_eq|].
  destruct (calc_vals_slots scip node bc0 (maxdepth f) xs Hd Hfit)
    as (_ & _ & _ & Hb & Hr & _).
  split; assumption.
Qed.

(** A [double] that compares equal to 0 is one of the two zeros, and
    [ABS] keeps the sign of a zero. *)
Lemma eqb_zero_cases (x : SCIP_Real) :
  (x =? 0)%float = true -> x = 0%float \/ x = (-0)%float.
Proof.
  rewrite FloatAxioms.eqb_spec. intros H.
  rewrite <- (FloatAxioms.SF2Prim_Prim2SF x).
  change (Prim2SF 0) with (S754_zero false) in H.
  destruct (Prim2SF x) as [s|s| |s mx e]; try destruct s;
    try discriminate H; [right|left]; reflexivity.
Qed.

Lemma ABS_zero (x : SCIP_Real) :
  x = 0%float \/ x = (-0)%float -> ABS x = x.
Proof. intros [->| ->]; reflexivity. Qed.

(** A quotient by a zero is never a finite number. *)
Lemma div_zero_cases (x z : SCIP_Real) :
  z = 0%float \/ z = (-0)%float ->
  (x / z)%float = nan \/ (x / z)%float = infinity \/
  (x / z)%float = neg_infinity.
Proof.
  intros Hz. rewrite <- (FloatAxioms.SF2Prim_Prim2SF (x / z)).
  rewrite FloatAxioms.div_spec. unfold FloatAxioms.SF64div, SFdiv.
  destruct Hz as [->| ->].
  - change (Prim2SF 0) with (S754_zero false).
    destruct (Prim2SF x) as [s|s| |s mx e]; try destruct s;
      first [left; reflexivity | right; left; reflexivity
            | right; right; reflexivity].
  - change (Prim2SF (-0)) with (S754_zero true).
    destruct (Prim2SF x) as [s|s| |s mx e]; try destruct s;
      first [left; reflexivity | right; left; reflexivity
            | right; right; reflexivity].
Qed.

(** The quotient of a positive number by a zero is the infinity of the
    zero's sign. *)
Lemma div_positive_zero (x : SCIP_Real) :
  (0 <? x)%float = true ->
  (x / 0)%float = infinity /\ (x / (-0))%float = neg_infinity.
Proof.
  rewrite FloatAxioms.ltb_spec. intros H.
  change (Prim2SF 0) with (S754_zero false) in H.
  rewrite <- (FloatAxioms.SF2Prim_Prim2SF (x / 0)).
  rewrite <- (FloatAxioms.SF2Prim_Prim2SF (x / (-0))).
  rewrite !FloatAxioms.div_spec. unfold FloatAxioms.SF64div, SFdiv.
  change (Prim2SF 0) with (S754_zero false).
  change (Prim2SF (-0)) with (S754_zero true).
  destruct (Prim2SF x) as [s|s| |s mx e]; try destruct s;
    try discriminate H; split; reflexivity.
Qed.

(** X8: on a valid node the pseudocost slot receives the variable's
    pseudocost for the bound difference divided by [ABS] of the objective
    coefficient; nothing guards the divisor.  When the objective
    coefficient compares equal to 0 it is one of the two zeros, [ABS]
    returns it with its sign, and the slot receives a quotient by zero,
    which is never a finite number: it is NaN or an infinity.  For a
    positive pseudocost the slot is infinity when the coefficient is 0 and
    minus infinity when it is -0. *)
Theorem X8_pseudocost_unguarded scip node bc0 p f xs m :
  slots_distinct ->
  nonnull p = true -> feats m !! p = Some f -> reals m !! vals f = Some xs ->
  maxdepth f <> 0 -> node_valid node bc0 -> slots_fit (length xs) ->
  let v := bc_var bc0 in
  let delta :=
    (bc_newbound bc0 - SCIPvarGetSol v (SCIPtreeHasFocusNodeLP scip))%float in
  let obj := SCIPcolGetObj (SCIPvarGetCol v) in
  let pc := SCIPvarGetPseudocost v delta in
  exists m' ys x,
    SCIPcalcNodeselFeat scip node p m = Some (tt, m') /\
    reals m' !! vals f = Some ys /\
    ys !! Z.to_nat SCIP_FEATNODESEL_BRANCHVAR_PSEUDOCOST = Some x /\
    x = (pc / ABS obj)%float /\
    ((obj =? 0)%float = true ->
     (obj = 0%float \/ obj = (-0)%float) /\
     ABS obj = obj /\
     (x = nan \/ x = infinity \/ x = neg_infinity) /\
     ((0 <? pc)%float = true ->
      (obj = 0%float -> x = infinity) /\
      (obj = (-0)%float -> x = neg_infinity))).
Proof.
  intros Hd Hp Hf Hxs Hmd Hnode Hfit v delta obj pc.
  eexists _, _, _.
  split; [apply (run_calc scip node bc0 p f xs m); assumption|].
  split; [cbn; apply lookup_insert_eq|].
  destruct (calc_vals_slots scip node bc0 (maxdepth f) xs Hd Hfit)
    as (_ & _ & _ & _ & _ & _ & _ & Hpc & _).
  split; [exact Hpc|].
  split; [reflexivity|].
  fold v delta obj pc.
  intros Hz. apply eqb_zero_cases in Hz.
  split; [exact Hz|].
  split; [apply ABS_zero; exact Hz|].
  rewrite (ABS_zero obj Hz).
  split; [apply div_zero_cases; exact Hz|].
  intros Hpos. destruct (div_positive_zero pc Hpos) as [Hplus Hminus].
  split; intros ->; assumption.
Qed.

(** X9: on a valid node the inference slot receives the variable's
    average inferences divided by the vector's [maxdepth]: those of the
    upwards direction when the bound change of the node is of the lower
    bound type, those of the downwards direction otherwise.  The bound
    type is the one the same call stores in the vector. *)
Theorem X9_average_inferences scip node bc0 p f xs m :
  slots_distinct ->
  nonnull p = true -> feats m !! p = Some f -> reals m !! vals f = Some xs ->
  maxdepth f <> 0 -> node_valid node bc0 -> slots_fit (length xs) ->
  let v := bc_var bc0 in
  exists m' f' ys,
    SCIPcalcNodeselFeat scip node p m = Some (tt, m') /\
    feats m' !! p = Some f' /\ boundtype f' = bc_boundtype bc0 /\
    reals m' !! vals f = Some ys /\
    ys !! Z.to_nat SCIP_FEATNODESEL_BRANCHVAR_INF
      = Some (if (boundtype f' =? SCIP_BOUNDTYPE_LOWER)%Z
              then (SCIPvarGetAvgInferences v SCIP_BRANCHDIR_UPWARDS
                    / double_of_int (maxdepth f))%float
              else (SCIPvarGetAvgInferences v SCIP_BRANCHDIR_DOWNWARDS
                    / double_of_int (maxdepth f))%float).
Proof.
  intros Hd Hp Hf Hxs Hmd Hnode Hfit v.
  eexists _, _, _.
  split; [apply (run_calc scip node bc0 p f xs m); assumption|].
  split; [cbn; apply lookup_insert_eq|].
  split; [reflexivity|].
  split; [cbn; apply lookup_insert_eq|].
  destruct (calc_vals_slots scip node bc0 (maxdepth f) xs Hd Hfit)
    as (_ & _ & _ & _ & _ & _ & _ & _ & Hinf).
  exact Hinf.
Qed.

(** X10: on a valid node whose branching column has a nonzero count of
    nonzero entries, the objective ratio slot receives the objective
    coefficient divided by that count. *)
Theorem X10_objconstr_nonzero_column scip node bc0 p f xs m :
  slots_distinct ->
  nonnull p = true -> feats m !! p = Some f -> reals m !! vals f = Some xs ->
  maxdepth f <> 0 -> node_valid node bc0 -> slots_fit (length xs) ->
  SCIPcolGetNNonz (SCIPvarGetCol (bc_var bc0)) <> 0 ->
  exists m' ys,
    SCIPcalcNodeselFeat scip node p m = Some (tt, m') /\
    reals m' !! vals f = Some ys /\
    ys !! Z.to_nat SCIP_FEATNODESEL_BRANCHVAR_OBJCONSTR
      = Some (SCIPcolGetObj (SCIPvarGetCol (bc_var bc0))
              / double_of_int (SCIPcolGetNNonz (SCIPvarGetCol (bc_var bc0))))%float.
Proof.
  intros Hd Hp Hf Hxs Hmd Hnode Hfit Hnz.
  eexists _, _. split; [apply (run_calc scip node bc0 p f xs m); assumption|].
  split; [cbn; apply lookup_insert_eq|].
  rewrite calc_vals_objconstr by assumption.
  unfold varcolsize_guarded.
  destruct (Z.eqb_spec (SCIPcolGetNNonz (SCIPvarGetCol (bc_var bc0))) 0);
    [contradiction|reflexivity].
Qed.

End CalcExtras.

(** ** The assertions of the calculation and the order of calls *)

Section CalcOrder.

Context {E : Enumerators}.

(** The calculation has no result when one of its assertions fails. *)
Lemma calc_rejects scip node p m :
  SCIPnodeGetDepth node = 0 \/ nonnull p = false \/
  (exists f, feats m !! p = Some f /\ maxdepth f = 0) \/
  boundchgs node = [] \/
  (exists bc l, boundchgs node = bc :: l /\
                bc_boundchgtype bc <> SCIP_BOUNDCHGTYPE_BRANCHING) ->
  SCIPcalcNodeselFeat scip node p m = None.
Proof.
  intros Hbad. unfold SCIPcalcNodeselFeat.
  destruct (Z.eqb_spec (SCIPnodeGetDepth node) 0) as [Hd|Hd];
    [apply run_bind_None; reflexivity|].
  rewrite (run_bind _ _ _ tt m) by reflexivity.
  destruct (nonnull p) eqn:Hp; [|apply run_bind_None; reflexivity].
  rewrite (run_bind _ _ _ tt m) by reflexivity.
  destruct (feats m !! p) as [f|] eqn:Hf;
    [|apply run_bind_None; unfold get; rewrite Hp, Hf; reflexivity].
  rewrite (run_bind _ _ _ _ _ (run_get maxdepth p f m Hp Hf)).
  destruct (Z.eqb_spec (maxdepth f) 0) as [Hmd|Hmd];
    [apply run_bind_None; reflexivity|].
  rewrite (run_bind _ _ _ tt m) by reflexivity.
  destruct (boundchgs node) as [|bc l] eqn:Hbc; [reflexivity|].
  destruct (Z.eqb_spec (bc_boundchgtype bc) SCIP_BOUNDCHGTYPE_BRANCHING)
    as [Hty|Hty]; [|apply run_bind_None; reflexivity].
  exfalso.
  destruct Hbad as [H|[H|[(f0 & Hf0 & H)|[H|(bc' & l' & H & Hne)]]]];
    try congruence.
Qed.

Lemma run_set_maxdepth p x f m :
  nonnull p = true -> feats m !! p = Some f ->
  SCIPfeatSetMaxDepth p x m
  = Some (tt, with_feats (<[p := set_maxdepth x f]> (feats m)) m).
Proof.
  intros Hp Hf. unfold SCIPfeatSetMaxDepth.
  rewrite (run_bind _ _ _ tt _ (run_assert _ _ Hp)).
  apply run_put; assumption.
Qed.

(** X11: the calculation has no result, and so writes nothing, for a node
    at depth 0, for the [NULL] vector, for a vector whose [maxdepth] is 0,
    for a node without bound changes and for a node whose first bound
    change is not a branching. *)
Theorem X11_calc_rejects_invalid_input scip node p m :
  SCIPnodeGetDepth node = 0 \/ nonnull p = false \/
  (exists f, feats m !! p = Some f /\ maxdepth f = 0) \/
  boundchgs node = [] \/
  (exists bc l, boundchgs node = bc :: l /\
                bc_boundchgtype bc <> SCIP_BOUNDCHGTYPE_BRANCHING) ->
  SCIPcalcNodeselFeat scip node p m = None.
Proof. apply calc_rejects. Qed.

(** X12: when the allocator grants both requests, a vector fresh from
    [SCIPfeatCreate] has [maxdepth] 0, so the calculation on it has no
    result; once [SCIPfeatSetMaxDepth] has stored a nonzero value, the
    calculation on a valid node succeeds for a vector with room for every
    slot, and the vector is then computed: its [depth] is the node's
    nonzero depth, and [size] and [maxdepth] are as set. *)
Theorem X12_create_set_maxdepth_calc al junk junk' scip node bc0 sz md m :
  block_granted al = Some junk -> array_granted al = Some junk' ->
  0 <= sz <= Int.max_signed ->
  md <> 0 -> node_valid node bc0 -> slots_fit (Z.to_nat sz) ->
  (r ← SCIPfeatCreate al sz; SCIPcalcNodeselFeat scip node r.2) m = None /\
  exists p m' f',
    (r ← SCIPfeatCreate al sz;
     SCIPfeatSetMaxDepth r.2 md;;
     SCIPcalcNodeselFeat scip node r.2;;
     mret r) m = Some ((SCIP_OKAY, p), m') /\
    feats m' !! p = Some f' /\
    depth f' = SCIPnodeGetDepth node /\ depth f' <> 0 /\
    size f' = sz /\ maxdepth f' = md.
Proof.
  intros Hblk Harr [Hsz _] Hmd Hnode Hfit.
  destruct (run_create al junk junk' sz m Hblk Harr Hsz)
    as (p & a & Hrun & Hp & Hfp & Ha & Hra).
  split.
  - rewrite (run_bind _ _ _ _ _ Hrun). cbn [snd].
    apply calc_rejects. right. right. left.
    eexists. split; [cbn; apply lookup_insert_eq|reflexivity].
  - exists p. eexists _, _.
    rewrite (run_bind _ _ _ _ _ Hrun). cbn [snd].
    set (f0 := mkFeat a 0%float 0%float 0 0 0 sz 0).
    set (m0 := mkMem (<[p := f0]> (feats m)) _ (out m)).
    assert (Hf0 : feats m0 !! p = Some f0) by (cbn; apply lookup_insert_eq).
    rewrite (run_bind _ _ _ _ _ (run_set_maxdepth p md f0 m0 Hp Hf0)).
    set (m1 := with_feats _ m0).
    assert (Hcalc := run_calc scip node bc0 p (set_maxdepth md f0)
                       (replicate (Z.to_nat sz) 0%float) m1 Hp
                       ltac:(cbn; apply lookup_insert_eq)
                       ltac:(cbn; apply lookup_insert_eq)
                       Hmd Hnode
                       ltac:(rewrite length_replicate; exact Hfit)).
    rewrite (run_bind _ _ _ _ _ Hcalc).
    split; [reflexivity|].
    split; [cbn; apply lookup_insert_eq|].
    destruct Hnode as (Hd & _). repeat split; assumption.
Qed.

(** X13: the calculation asserts only that [maxdepth] is not 0.  For a
    [maxdepth] strictly between -10 and 10 it succeeds on a valid node,
    and afterwards the offset of the vector has no result (the divisor
    [maxdepth / 10] is 0), so neither writer can write the vector. *)
Theorem X13_small_maxdepth_cannot_be_written scip node bc0 p f xs m :
  nonnull p = true -> feats m !! p = Some f -> reals m !! vals f = Some xs ->
  maxdepth f <> 0 -> -10 < maxdepth f < 10 ->
  node_valid node bc0 -> slots_fit (length xs) ->
  exists m',
    SCIPcalcNodeselFeat scip node p m = Some (tt, m') /\
    SCIPfeatGetOffset p m' = None /\
    (forall label, SCIPfeatLIBSVMPrint p label m' = None) /\
    (forall q label negate,
       SCIPfeatDiffLIBSVMPrint p q label negate m' = None /\
       SCIPfeatDiffLIBSVMPrint q p label negate m' = None).
Proof.
  intros Hp Hf Hxs Hmd Hsmall Hnode Hfit.
  eexists. split; [apply (run_calc scip node bc0 p f xs m); assumption|].
  set (m' := mkMem _ _ _).
  set (f' := set_boundtype (bc_boundtype bc0)
               (set_depth (SCIPnodeGetDepth node) f)).
  assert (Hf' : feats m' !! p = Some f') by (cbn; apply lookup_insert_eq).
  assert (Hoff : SCIPfeatGetOffset p m' = None).
  { rewrite run_offset, Hp, Hf'. unfold offset_of, Int.divs. cbn.
    rewrite andb_false_r. cbn.
    assert (Hq : maxdepth f ÷ 10 = 0) by (apply Z.quot_small_iff; lia).
    rewrite Hq. reflexivity. }
  split; [exact Hoff|].
  assert (Hsize : forall q, SCIPfeatGetSize q m' = None \/
                            exists s, SCIPfeatGetSize q m' = Some (s, m')).
  { intros q. unfold SCIPfeatGetSize.
    destruct (nonnull q) eqn:Hq; [|left; apply run_bind_None; reflexivity].
    rewrite (run_bind _ _ _ tt m') by reflexivity.
    unfold get. rewrite Hq. destruct (feats m' !! q); eauto. }
  assert (Hbody : forall q label,
            diff_body p q label m' = None /\ diff_body q p label m' = None).
  { intros q label. unfold diff_body. split.
    - destruct (Hsize p) as [Hs|(s & Hs)]; [apply run_bind_None, Hs|].
      rewrite (run_bind _ _ _ _ _ Hs). apply run_bind_None, Hoff.
    - destruct (Hsize q) as [Hs|(s & Hs)]; [apply run_bind_None, Hs|].
      rewrite (run_bind _ _ _ _ _ Hs).
      destruct (SCIPfeatGetOffset q m') as [[o m1]|] eqn:Hoq;
        [|apply run_bind_None, Hoq].
      assert (m1 = m').
      { rewrite run_offset in Hoq. destruct (nonnull q); [|discriminate].
        destruct (feats m' !! q) as [g|]; [|discriminate].
        destruct (offset_of g); congruence. }
      subst m1. rewrite (run_bind _ _ _ _ _ Hoq).
      apply run_bind_None, Hoff. }
  split.
  - intros label. unfold SCIPfeatLIBSVMPrint.
    rewrite (run_bind _ _ _ tt _ (run_assert _ _ Hp)).
    rewrite (run_bind _ _ _ _ _ (run_get depth p f' m' Hp Hf')).
    destruct (negb (depth f' =? 0));
      [rewrite (run_bind _ _ _ tt m') by reflexivity
      |apply run_bind_None; reflexivity].
    rewrite (run_bind _ _ _ _ _ (run_size p f' m' Hp Hf')).
    apply run_bind_None, Hoff.
  - intros q label negate. rewrite !diff_print_unfold.
    destruct (diff_asserts p q m'), (diff_asserts q p m'), negate;
      split; try reflexivity; apply Hbody.
Qed.

End CalcOrder.

(** ** Copies: aliasing, sizes and composition *)

Section CopyExtras.

Context {E : Enumerators}.

Lemma step_copy_field_same {A B : Type} (fld : SCIP_FEAT -> A)
    (u : A -> SCIP_FEAT -> SCIP_FEAT) F R O p g (k : unit -> M B) :
  nonnull p = true ->
  ((x ← get fld p; put u p x) ≫= k) (mkMem (<[p := g]> F) R O)
  = k tt (mkMem (<[p := u (fld g) g]> F) R O).
Proof.
  intros Hp. apply run_bind.
  rewrite (step_get fld (<[p := g]> F) R O p g)
    by (try assumption; apply lookup_insert_eq).
  rewrite (run_put u p (fld g) g) by (try assumption; cbn; apply lookup_insert_eq).
  unfold with_feats. cbn. rewrite insert_insert_eq. reflexivity.
Qed.

Lemma run_copy_loop_same p f xs F R O n :
  nonnull p = true -> F !! p = Some f ->
  forall i, (i + n <= length xs)%nat ->
  for_from (Z.of_nat i) n (fun j => x ← get_val p j; put_val p j x)
    (mkMem F (<[vals f := xs]> R) O)
  = Some (tt, mkMem F (<[vals f := xs]> R) O).
Proof.
  intros Hp Hf. induction n as [|n IH]; intros i Hi; cbn [for_from].
  - reflexivity.
  - destruct (lookup_lt_is_Some_2 xs i ltac:(lia)) as [x Hx].
    set (m := mkMem F (<[vals f := xs]> R) O).
    assert (Hbody : (x ← get_val p (Z.of_nat i); put_val p (Z.of_nat i) x) m
                    = Some (tt, m)).
    { rewrite (run_bind _ _ _ x m).
      - unfold m. rewrite (last_put_val F R O p f) by (try assumption; lia).
        unfold upd. rewrite Nat2Z.id, list_insert_id by exact Hx. reflexivity.
      - apply (run_get_val p (Z.of_nat i) f xs x m); try assumption.
        + cbn. apply lookup_insert_eq.
        + lia.
        + rewrite Nat2Z.id. exact Hx. }
    rewrite (run_bind _ _ _ _ _ Hbody).
    replace (Z.of_nat i + 1) with (Z.of_nat (S i)) by lia.
    apply IH. lia.
Qed.

(** X14: copying a vector into itself succeeds and changes nothing. *)
Theorem X14_copy_into_itself p f xs m :
  nonnull p = true -> feats m !! p = Some f -> nonnull (vals f) = true ->
  reals m !! vals f = Some xs -> size f <= Z.of_nat (length xs) ->
  SCIPfeatCopy p p m = Some (tt, m).
Proof.
  intros Hp Hf Hv Hxs Hlen. unfold SCIPfeatCopy.
  rewrite (run_bind _ _ _ _ _ (run_assert _ m Hp)).
  rewrite (run_bind _ _ _ _ _ (run_get vals p f m Hp Hf)).
  rewrite (run_bind _ _ _ _ _ (run_assert _ m Hv)).
  rewrite (run_bind _ _ _ _ _ (run_assert _ m Hp)).
  rewrite (run_bind _ _ _ _ _ (run_get vals p f m Hp Hf)).
  rewrite (run_bind _ _ _ _ _ (run_assert _ m Hv)).
  rewrite (mem_canonical m p f xs Hf Hxs) at 1 2.
  do 7 (rewrite step_copy_field_same by assumption).
  assert (Heta : set_nconstrs (nconstrs f)
            (set_sumobjcoeff (sumobjcoeff f)
               (set_rootlpobj (rootlpobj f)
                  (set_boundtype (boundtype f)
                     (set_size (size f)
                        (set_depth (depth f)
                           (set_maxdepth (maxdepth f) f)))))) = f)
    by (destruct f; reflexivity).
  cbn [set_maxdepth set_depth set_size set_boundtype set_rootlpobj
       set_sumobjcoeff set_nconstrs vals rootlpobj sumobjcoeff nconstrs
       maxdepth depth size boundtype] in *.
  rewrite Heta.
  rewrite (step_get size _ _ _ p f) by (try assumption; apply lookup_insert_eq).
  unfold for_loop.
  apply (run_copy_loop_same p f xs _ _ _ (Z.to_nat (size f)) Hp
           ltac:(apply lookup_insert_eq) 0%nat). lia.
Qed.

Lemma X14_copy_into_itself_witness :
  SCIPfeatCopy 1%N 1%N mem_four = Some (tt, mem_four).
Proof.
  apply (X14_copy_into_itself 1%N (mkFeat 1%N 0%float 0%float 0 100 25 3 1)
           [1.5; 2; 0.25]%float mem_four); reflexivity.
Defined.

(** A loop stops without result at the first body that has none. *)
Lemma for_from_fails (body : Z -> M unit) k n :
  forall i m m1,
  for_from i k body m = Some (tt, m1) ->
  body (i + Z.of_nat k) m1 = None ->
  for_from i (k + S n) body m = None.
Proof.
  induction k as [|k IH]; intros i m m1 Hk Hfail.
  - cbn in Hk. injection Hk as <-. cbn [Nat.add for_from].
    apply run_bind_None. rewrite Z.add_0_r in Hfail. exact Hfail.
  - cbn [Nat.add for_from] in *.
    destruct (body i m) as [[[] m2]|] eqn:Hb.
    + rewrite (run_bind _ _ _ _ _ Hb) in Hk.
      rewrite (run_bind _ _ _ _ _ Hb).
      apply (IH (i + 1) m2 m1 Hk).
      replace (i + 1 + Z.of_nat k) with (i + Z.of_nat (S k)) by lia.
      exact Hfail.
    + rewrite (run_bind_None _ _ _ Hb) in Hk. discriminate.
Qed.

(** X15: the copy loop runs over the [size] of its first parameter and
    checks no capacity: into a second parameter whose array is shorter
    than that [size] the copy stores past the end of the array and has no
    result. *)
Theorem X15_copy_overruns_shorter_destination m p q f g xs ys :
  nonnull p = true -> nonnull q = true -> p <> q ->
  feats m !! p = Some f -> feats m !! q = Some g ->
  nonnull (vals f) = true -> nonnull (vals g) = true -> vals f <> vals g ->
  reals m !! vals f = Some xs -> reals m !! vals g = Some ys ->
  size f <= Z.of_nat (length xs) -> Z.of_nat (length ys) < size f ->
  SCIPfeatCopy p q m = None.
Proof.
  intros Hp Hq Hpq Hf Hg Hvf Hvg Hne Hxs Hys Hl1 Hl2.
  unfold SCIPfeatCopy.
  rewrite (run_bind _ _ _ _ _ (run_assert _ m Hp)).
  rewrite (run_bind _ _ _ _ _ (run_get vals p f m Hp Hf)).
  rewrite (run_bind _ _ _ _ _ (run_assert _ m Hvf)).
  rewrite (run_bind _ _ _ _ _ (run_assert _ m Hq)).
  rewrite (run_bind _ _ _ _ _ (run_get vals q g m Hq Hg)).
  rewrite (run_bind _ _ _ _ _ (run_assert _ m Hvg)).
  replace m with (mkMem (<[q := g]> (feats m)) (reals m) (out m)) at 1
    by (rewrite insert_id by assumption; destruct m; reflexivity).
  do 7 (rewrite (step_copy_field _ _ _ _ _ p q f) by assumption).
  rewrite (step_get_other _ _ _ _ p q f) by assumption.
  unfold for_loop.
  rewrite <- (insert_id (reals m) (vals g) ys Hys) at 1.
  set (g' := mkFeat (vals g) (rootlpobj f) (sumobjcoeff f) (nconstrs f)
               (maxdepth f) (depth f) (size f) (boundtype f)).
  assert (Hf' : <[q := g']> (feats m) !! p = Some f)
    by (rewrite lookup_insert_ne by congruence; exact Hf).
  assert (Hg' : <[q := g']> (feats m) !! q = Some g')
    by apply lookup_insert_eq.
  set (k := length ys).
  replace (Z.to_nat (size f)) with (k + S (Z.to_nat (size f) - S k))%nat
    by (unfold k; lia).
  refine (for_from_fails _ k _ 0 _ _
            (run_copy_loop p q f g' xs ys (<[q := g']> (feats m)) (reals m)
               (out m) k Hp Hq Hf' Hg' Hne Hxs 0%nat
               ltac:(unfold k; lia) ltac:(unfold k; lia)) _).
  change (Z.of_nat 0) with 0. rewrite Z.add_0_l. cbn [Nat.add].
  set (m1 := mkMem _ _ _).
  destruct (lookup_lt_is_Some_2 xs k ltac:(unfold k; lia)) as [x Hx].
  rewrite (run_bind _ _ _ x m1).
  - unfold put_val.
    rewrite (run_bind _ _ _ _ _ (run_get vals q g' m1 Hq Hg')).
    unfold store_real. cbn [reals m1 vals g'].
    rewrite lookup_insert_eq.
    destruct (Z.ltb_spec (Z.of_nat k)
                (Z.of_nat (length (take k xs ++ drop k ys)))) as [Hlt|Hge].
    + rewrite length_app, length_take, length_drop in Hlt. unfold k in Hlt. lia.
    + destruct (0 <=? Z.of_nat k); reflexivity.
  - apply (run_get_val p (Z.of_nat k) f xs x m1); try assumption.
    + cbn. rewrite lookup_insert_ne by congruence. exact Hxs.
    + lia.
    + rewrite Nat2Z.id. exact Hx.
Qed.

Lemma X15_copy_overruns_shorter_destination_witness :
  SCIPfeatCopy 1%N 2%N
    (mkMem (feats mem_four) (<[2%N := [0.5; 2]%float]> (reals mem_four)) [])
  = None.
Proof.
  apply (X15_copy_overruns_shorter_destination _ 1%N 2%N
           (mkFeat 1%N 0%float 0%float 0 100 25 3 1)
           (mkFeat 2%N 0%float 0%float 0 100 29 3 1)
           [1.5; 2; 0.25]%float [0.5; 2]%float);
    try reflexivity; discriminate.
Defined.

(** X16: into a second parameter with at least as many slots as the
    [size] of the first, the copy overwrites the first [size] slots with
    the values of the first parameter, keeps the remaining slots and the
    length of the array, and stores the first parameter's [size] in the
    second. *)
Theorem X16_copy_into_longer_destination m p q f g xs ys :
  nonnull p = true -> nonnull q = true -> p <> q ->
  feats m !! p = Some f -> feats m !! q = Some g ->
  nonnull (vals f) = true -> nonnull (vals g) = true -> vals f <> vals g ->
  reals m !! vals f = Some xs -> reals m !! vals g = Some ys ->
  0 <= size f ->
  size f <= Z.of_nat (length xs) -> size f <= Z.of_nat (length ys) ->
  exists m' g' zs,
    SCIPfeatCopy p q m = Some (tt, m') /\
    feats m' !! q = Some g' /\ size g' = size f /\ vals g' = vals g /\
    reals m' !! vals g = Some zs /\ length zs = length ys /\
    (forall i, Z.of_nat i < size f -> zs !! i = xs !! i) /\
    (forall i, size f <= Z.of_nat i -> zs !! i = ys !! i).
Proof.
  intros Hp Hq Hpq Hf Hg Hvf Hvg Hne Hxs Hys H0 Hl1 Hl2.
  eexists _, _, _.
  split; [apply (run_copy m p q f g xs ys); assumption|].
  split; [cbn; apply lookup_insert_eq|].
  split; [reflexivity|]. split; [reflexivity|].
  split; [cbn; apply lookup_insert_eq|].
  assert (Hlt : length (take (Z.to_nat (size f)) xs) = Z.to_nat (size f))
    by (apply length_take_le; lia).
  split; [rewrite length_app, Hlt, length_drop; lia|].
  split.
  - intros i Hi. rewrite lookup_app_l by lia. apply lookup_take_lt. lia.
  - intros i Hi. rewrite lookup_app_r by lia.
    rewrite Hlt, lookup_drop. f_equal. lia.
Qed.

Lemma X16_copy_into_longer_destination_witness :
  exists m',
    SCIPfeatCopy 1%N 2%N
      (mkMem (feats mem_four)
             (<[2%N := [0.5; 2; 1; 7; 8]%float]> (reals mem_four)) [])
    = Some (tt, m') /\
    reals m' !! 2%N = Some [1.5; 2; 0.25; 7; 8]%float.
Proof.
  destruct (X16_copy_into_longer_destination
              (mkMem (feats mem_four)
                     (<[2%N := [0.5; 2; 1; 7; 8]%float]> (reals mem_four)) [])
              1%N 2%N
              (mkFeat 1%N 0%float 0%float 0 100 25 3 1)
              (mkFeat 2%N 0%float 0%float 0 100 29 3 1)
              [1.5; 2; 0.25]%float [0.5; 2; 1; 7; 8]%float)
    as (m' & g' & zs & Hrun & _);
    try reflexivity; try discriminate.
  exists m'. split; [exact Hrun|].
  vm_compute in Hrun. injection Hrun as <-. reflexivity.
Defined.

(** X17: after a copy of one vector into another of the same size,
    copying back changes nothing. *)
Theorem X17_copy_back_changes_nothing m p q f g xs ys :
  nonnull p = true -> nonnull q = true -> p <> q ->
  feats m !! p = Some f -> feats m !! q = Some g ->
  nonnull (vals f) = true -> nonnull (vals g) = true -> vals f <> vals g ->
  reals m !! vals f = Some xs -> reals m !! vals g = Some ys ->
  Z.of_nat (length xs) = size f -> Z.of_nat (length ys) = size g ->
  size f = size g ->
  exists m',
    SCIPfeatCopy p q m = Some (tt, m') /\
    SCIPfeatCopy q p m' = Some (tt, m').
Proof.
  intros Hp Hq Hpq Hf Hg Hvf Hvg Hne Hxs Hys Hlx Hly Hs.
  pose proof (run_copy m p q f g xs ys Hp Hq Hpq Hf Hg Hvf Hvg Hne
                Hxs Hys ltac:(lia) ltac:(lia)) as Hrun.
  rewrite take_ge, drop_ge, app_nil_r in Hrun by lia.
  eexists. split; [exact Hrun|].
  set (g' := mkFeat (vals g) (rootlpobj f) (sumobjcoeff f) (nconstrs f)
               (maxdepth f) (depth f) (size f) (boundtype f)).
  set (m' := mkMem (<[q := g']> (feats m)) (<[vals g := xs]> (reals m)) (out m)).
  assert (Hf' : feats m' !! p = Some f)
    by (cbn; rewrite lookup_insert_ne by congruence; exact Hf).
  assert (Hg' : feats m' !! q = Some g') by (cbn; apply lookup_insert_eq).
  assert (Hxs' : reals m' !! vals f = Some xs)
    by (cbn; rewrite lookup_insert_ne by congruence; exact Hxs).
  assert (Hxg' : reals m' !! vals g' = Some xs) by (cbn; apply lookup_insert_eq).
  rewrite (run_copy m' q p g' f xs xs); try assumption; try (cbn; lia);
    try congruence.
  rewrite take_drop.
  assert (Heta : mkFeat (vals f) (rootlpobj g') (sumobjcoeff g') (nconstrs g')
                   (maxdepth g') (depth g') (size g') (boundtype g') = f)
    by (destruct f; reflexivity).
  rewrite Heta, !insert_id by assumption. reflexivity.
Qed.

Lemma X17_copy_back_changes_nothing_witness :
  exists m',
    SCIPfeatCopy 1%N 3%N mem_four = Some (tt, m') /\
    SCIPfeatCopy 3%N 1%N m' = Some (tt, m').
Proof.
  apply (X17_copy_back_changes_nothing mem_four 1%N 3%N
           (mkFeat 1%N 0%float 0%float 0 100 25 3 1)
           (mkFeat 3%N 0%float 0%float 0 100 37 3 0)
           [1.5; 2; 0.25]%float [4; 5; 6]%float);
    try reflexivity; discriminate.
Defined.

(** X18: after a copy of a computed vector into another of the same size,
    the copy has the offset of the original, and the single writer
    appends the same line for the copy as for the original. *)
Theorem X18_copy_is_written_like_the_original m p q f g xs ys o label :
  nonnull p = true -> nonnull q = true -> p <> q ->
  feats m !! p = Some f -> feats m !! q = Some g ->
  nonnull (vals f) = true -> nonnull (vals g) = true -> vals f <> vals g ->
  reals m !! vals f = Some xs -> reals m !! vals g = Some ys ->
  Z.of_nat (length xs) = size f -> Z.of_nat (length ys) = size g ->
  size f = size g ->
  depth f <> 0 -> SCIPfeatGetOffset p m = Some (o, m) ->
  o + size f <= Int.max_signed ->
  exists m' line,
    SCIPfeatCopy p q m = Some (tt, m') /\
    SCIPfeatGetOffset q m' = Some (o, m') /\
    SCIPfeatLIBSVMPrint p label m' = Some (tt, with_out (out m' ++ line) m') /\
    SCIPfeatLIBSVMPrint q label m' = Some (tt, with_out (out m' ++ line) m').
Proof.
  intros Hp Hq Hpq Hf Hg Hvf Hvg Hne Hxs Hys Hlx Hly Hs Hd Ho Hmax.
  apply (offset_of_run p m f o Hp Hf) in Ho.
  pose proof (run_copy m p q f g xs ys Hp Hq Hpq Hf Hg Hvf Hvg Hne
                Hxs Hys ltac:(lia) ltac:(lia)) as Hrun.
  rewrite take_ge, drop_ge, app_nil_r in Hrun by lia.
  eexists _, _. split; [exact Hrun|].
  set (g' := mkFeat (vals g) (rootlpobj f) (sumobjcoeff f) (nconstrs f)
               (maxdepth f) (depth f) (size f) (boundtype f)).
  set (m' := mkMem (<[q := g']> (feats m)) (<[vals g := xs]> (reals m)) (out m)).
  assert (Hf' : feats m' !! p = Some f)
    by (cbn; rewrite lookup_insert_ne by congruence; exact Hf).
  assert (Hg' : feats m' !! q = Some g') by (cbn; apply lookup_insert_eq).
  assert (Hxs' : reals m' !! vals f = Some xs)
    by (cbn; rewrite lookup_insert_ne by congruence; exact Hxs).
  assert (Hxg' : reals m' !! vals g' = Some xs) by (cbn; apply lookup_insert_eq).
  assert (Ho' : offset_of g' = Some o) by exact Ho.
  split; [apply (run_offset_Some q m' g' o Hq Hg' Ho')|].
  split.
  - apply (run_print_single m' p f xs o label); try assumption. lia.
  - apply (run_print_single m' q g' xs o label); try assumption.
    cbn. lia.
Qed.

Lemma X18_copy_is_written_like_the_original_witness :
  exists m' line,
    SCIPfeatCopy 1%N 3%N mem_four = Some (tt, m') /\
    SCIPfeatGetOffset 3%N m' = Some (15, m') /\
    SCIPfeatLIBSVMPrint 1%N 1 m' = Some (tt, with_out (out m' ++ line) m') /\
    SCIPfeatLIBSVMPrint 3%N 1 m' = Some (tt, with_out (out m' ++ line) m').
Proof.
  apply (X18_copy_is_written_like_the_original mem_four 1%N 3%N
           (mkFeat 1%N 0%float 0%float 0 100 25 3 1)
           (mkFeat 3%N 0%float 0%float 0 100 37 3 0)
           [1.5; 2; 0.25]%float [4; 5; 6]%float 15 1);
    try reflexivity; try discriminate;
    try (rewrite run_offset; reflexivity).
Defined.

(** X19: after a copy, no later mutation of the second parameter (the
    copy) changes the structure or the values of the first. *)
Theorem X19_mutating_the_copy_keeps_the_original m p q f g xs ys :
  nonnull p = true -> nonnull q = true -> p <> q ->
  feats m !! p = Some f -> feats m !! q = Some g ->
  nonnull (vals f) = true -> nonnull (vals g) = true -> vals f <> vals g ->
  reals m !! vals f = Some xs -> reals m !! vals g = Some ys ->
  size f <= Z.of_nat (length xs) -> size f <= Z.of_nat (length ys) ->
  exists m',
    SCIPfeatCopy p q m = Some (tt, m') /\
    forall mu m'', mutate mu q m' = Some (tt, m'') ->
      feats m'' !! p = Some f /\ reals m'' !! vals f = Some xs.
Proof.
  intros Hp Hq Hpq Hf Hg Hvf Hvg Hne Hxs Hys Hl1 Hl2.
  eexists. split; [apply (run_copy m p q f g xs ys); assumption|].
  intros mu m'' Hmu.
  eapply (mutate_preserves q p (vals g) (vals f) _ _ mu) in Hmu;
    [|congruence|congruence|].
  - destruct Hmu as (H1 & H2 & _). split; [exact H1|exact H2].
  - split; [cbn; rewrite lookup_insert_ne by congruence; exact Hf|].
    split; [cbn; rewrite lookup_insert_ne by congruence; exact Hxs|].
    eexists. split; [cbn; apply lookup_insert_eq|reflexivity].
Qed.

End CopyExtras.

Lemma X19_mutating_the_copy_keeps_the_original_witness :
  exists m',
    SCIPfeatCopy 1%N 3%N mem_four = Some (tt, m') /\
    forall mu m'', mutate (E := sample_enumerators) mu 3%N m' = Some (tt, m'') ->
      feats m'' !! 1%N = Some (mkFeat 1%N 0%float 0%float 0 100 25 3 1) /\
      reals m'' !! 1%N = Some [1.5; 2; 0.25]%float.
Proof.
  apply (X19_mutating_the_copy_keeps_the_original (E := sample_enumerators)
           mem_four 1%N 3%N
           (mkFeat 1%N 0%float 0%float 0 100 25 3 1)
           (mkFeat 3%N 0%float 0%float 0 100 37 3 0)
           [1.5; 2; 0.25]%float [4; 5; 6]%float);
    try reflexivity; discriminate.
Defined.

(** ** Offsets *)

Section OffsetExtras.

Lemma offset_of_exact f o :
  offset_of f = Some o -> Int.in_range (offset_trunc f) -> o = offset_trunc f.
Proof.
  intros Ho Hr. unfold offset_of in Ho.
  destruct (Int.divs (maxdepth f) 10) as [t|] eqn:Ht; [cbn in Ho|discriminate].
  destruct (Int.divs (depth f) t) as [q|] eqn:Hq; [cbn in Ho|discriminate].
  pose proof (offset_of_wrap f t q Ht Hq) as Hw.
  unfold offset_of in Hw. rewrite Ht in Hw. cbn in Hw. rewrite Hq in Hw.
  cbn in Hw. rewrite Ho in Hw. injection Hw as ->.
  apply wrap_id. exact Hr.
Qed.

(** X20: for two vectors of one nonzero size with bound types 0 or 1,
    whose offsets are computed without overflow, the offsets are equal
    exactly when the depth buckets [depth / (maxdepth / 10)] are equal
    and the bound types are equal. *)
Theorem X20_offset_separates_bucket_and_bound_type m p1 p2 f1 f2 o1 o2 :
  nonnull p1 = true -> feats m !! p1 = Some f1 ->
  nonnull p2 = true -> feats m !! p2 = Some f2 ->
  SCIPfeatGetOffset p1 m = Some (o1, m) ->
  SCIPfeatGetOffset p2 m = Some (o2, m) ->
  Int.in_range (offset_trunc f1) -> Int.in_range (offset_trunc f2) ->
  size f1 = size f2 -> size f1 <> 0 ->
  0 <= boundtype f1 <= 1 -> 0 <= boundtype f2 <= 1 ->
  (o1 = o2 <->
   depth f1 ÷ (maxdepth f1 ÷ 10) = depth f2 ÷ (maxdepth f2 ÷ 10) /\
   boundtype f1 = boundtype f2).
Proof.
  intros Hp1 Hf1 Hp2 Hf2 Ho1 Ho2 Hr1 Hr2 Hs Hnz Hb1 Hb2.
  apply (offset_of_run p1 m f1 o1 Hp1 Hf1) in Ho1.
  apply (offset_of_run p2 m f2 o2 Hp2 Hf2) in Ho2.
  rewrite (offset_of_exact f1 o1 Ho1 Hr1), (offset_of_exact f2 o2 Ho2 Hr2).
  unfold offset_trunc. rewrite <- Hs.
  set (q1 := depth f1 ÷ (maxdepth f1 ÷ 10)).
  set (q2 := depth f2 ÷ (maxdepth f2 ÷ 10)).
  replace (size f1 * 2 * q1 + size f1 * boundtype f1)
    with (size f1 * (2 * q1 + boundtype f1)) by lia.
  replace (size f1 * 2 * q2 + size f1 * boundtype f2)
    with (size f1 * (2 * q2 + boundtype f2)) by lia.
  split.
  - intros Heq. apply Z.mul_reg_l in Heq; [lia|exact Hnz].
  - intros [-> ->]. reflexivity.
Qed.

Lemma X20_offset_separates_bucket_and_bound_type_witness :
  15 = 18 <-> 25 ÷ (100 ÷ 10) = 37 ÷ (100 ÷ 10) /\ 1 = 0.
Proof.
  apply (X20_offset_separates_bucket_and_bound_type mem_four 1%N 3%N
           (mkFeat 1%N 0%float 0%float 0 100 25 3 1)
           (mkFeat 3%N 0%float 0%float 0 100 37 3 0) 15 18);
    try reflexivity; try discriminate;
    try (rewrite run_offset; reflexivity);
    vm_compute; intuition discriminate.
Defined.

(** The depth bucket of a depth up to [maxdepth] and the offset value. *)
Lemma offset_floor_bound f :
  10 <= maxdepth f -> 0 <= depth f <= maxdepth f ->
  0 <= boundtype f <= 1 -> 0 <= size f ->
  0 <= depth f / (maxdepth f / 10) <= 19 /\
  0 <= offset_floor f /\ offset_floor f <= 39 * size f.
Proof.
  intros Hmd Hd Hbt Hsz.
  set (k := maxdepth f / 10).
  assert (Hk : 1 <= k) by (unfold k; apply Z.div_le_lower_bound; lia).
  assert (Hmdk : maxdepth f < 10 * (k + 1))
    by (unfold k; pose proof (Z.mul_succ_div_gt (maxdepth f) 10); lia).
  set (q := depth f / k).
  assert (Hq0 : 0 <= q) by (unfold q; apply Z.div_pos; lia).
  assert (Hq : q <= 19).
  { assert (q < 20); [|lia]. unfold q. apply Z.div_lt_upper_bound; lia. }
  assert (Hval : offset_floor f = size f * (2 * q + boundtype f))
    by (unfold offset_floor; fold k; fold q; lia).
  split; [lia|]. rewrite Hval. split.
  - apply Z.mul_nonneg_nonneg; lia.
  - rewrite (Z.mul_comm 39). apply Z.mul_le_mono_nonneg_l; lia.
Qed.

(** X21: for a vector with [maxdepth >= 10], [0 <= depth <= maxdepth],
    a bound type 0 or 1 and a size [n >= 0] with [40 * n] inside the
    [int] range, the depth bucket is at most 19, the offset exists and
    lies between 0 and [39 * n], so every index a writer prints for the
    vector lies between 1 and [40 * n]. *)
Theorem X21_offset_bound m p f :
  nonnull p = true -> feats m !! p = Some f ->
  10 <= maxdepth f -> 0 <= depth f <= maxdepth f ->
  0 <= boundtype f <= 1 -> 0 <= size f -> 40 * size f <= Int.max_signed ->
  exists o,
    SCIPfeatGetOffset p m = Some (o, m) /\
    0 <= depth f / (maxdepth f / 10) <= 19 /\
    0 <= o <= 39 * size f /\
    forall i, 0 <= i < size f ->
      libsvm_index i o = i + o + 1 /\ 1 <= libsvm_index i o <= 40 * size f.
Proof.
  intros Hp Hf Hmd Hd Hbt Hsz Hmax.
  destruct (offset_floor_bound f Hmd Hd Hbt Hsz) as (Hq & Hlo & Hhi).
  assert (Hr : Int.in_range (offset_floor f))
    by (unfold Int.in_range, Int.min_signed, Int.max_signed in *; lia).
  exists (offset_floor f).
  split.
  { rewrite run_offset, Hp, Hf, offset_of_floor by (try assumption; lia).
    reflexivity. }
  split; [exact Hq|].
  split; [lia|].
  intros i Hi.
  rewrite libsvm_index_exact
    by (unfold Int.in_range, Int.min_signed, Int.max_signed in *; lia).
  lia.
Qed.

Lemma X21_offset_bound_witness :
  exists o,
    SCIPfeatGetOffset 1%N mem_four = Some (o, mem_four) /\
    0 <= 25 / (100 / 10) <= 19 /\
    0 <= o <= 39 * 3 /\
    forall i, 0 <= i < 3 ->
      libsvm_index i o = i + o + 1 /\ 1 <= libsvm_index i o <= 40 * 3.
Proof.
  apply (X21_offset_bound mem_four 1%N
           (mkFeat 1%N 0%float 0%float 0 100 25 3 1));
    try reflexivity; cbn; unfold Int.max_signed; lia.
Defined.

End OffsetExtras.

(** ** What the writers refuse and what they leave alone *)

Section WriterExtras.

Lemma appends_ret {A : Type} (x : A) : appends (mret x).
Proof.
  intros m r m' [= _ <-]. repeat split. exists []. symmetry. apply app_nil_r.
Qed.

Lemma appends_fail {A : Type} : appends (@fail A).
Proof. intros m r m' [=]. Qed.

Lemma appends_assert c : appends (assert c).
Proof. destruct c; [apply appends_ret|apply appends_fail]. Qed.

Lemma appends_bind {A B : Type} (c : M A) (k : A -> M B) :
  appends c -> (forall x, appends (k x)) -> appends (c ≫= k).
Proof.
  intros Hc Hk m r m'. unfold mbind, M_bind.
  destruct (c m) as [[x m1]|] eqn:Hcm; [|discriminate].
  intros Hr. destruct (Hc _ _ _ Hcm) as (Hf1 & Hr1 & l1 & Ho1).
  destruct (Hk x _ _ _ Hr) as (Hf2 & Hr2 & l2 & Ho2).
  split; [congruence|]. split; [congruence|].
  exists (l1 ++ l2). rewrite Ho2, Ho1, app_assoc. reflexivity.
Qed.

Lemma appends_get {A : Type} (fld : SCIP_FEAT -> A) p : appends (get fld p).
Proof.
  intros m r m'. unfold get.
  destruct (nonnull p); [|discriminate].
  destruct (feats m !! p); [|discriminate].
  intros [= _ <-]. repeat split. exists []. symmetry. apply app_nil_r.
Qed.

Lemma appends_lift {A : Type} (o : option A) : appends (lift o).
Proof.
  intros m r m'. destruct o; intros [= _ <-].
  repeat split. exists []. symmetry. apply app_nil_r.
Qed.

Lemma appends_get_val p i : appends (get_val p i).
Proof.
  apply appends_bind; [apply appends_get|]. intros a m r m'.
  unfold load_real.
  destruct (reals m !! a) as [xs|]; [|discriminate].
  destruct (0 <=? i); [|discriminate].
  destruct (xs !! Z.to_nat i); [|discriminate].
  intros [= _ <-]. repeat split. exists []. symmetry. apply app_nil_r.
Qed.

Lemma appends_info e : appends (SCIPinfoMessage e).
Proof. intros m r m' [= _ <-]. repeat split. exists [e]. reflexivity. Qed.

Lemma appends_for_from (body : Z -> M unit) n :
  (forall i, appends (body i)) -> forall i, appends (for_from i n body).
Proof.
  intros Hbody. induction n as [|n IH]; intros i; cbn [for_from].
  - apply appends_ret.
  - apply appends_bind; [apply Hbody|]. intros _. apply IH.
Qed.

Ltac appending :=
  repeat first
    [ apply appends_ret
    | apply appends_fail
    | apply appends_assert
    | apply appends_get
    | apply appends_lift
    | apply appends_get_val
    | apply appends_info
    | apply appends_bind; [|intros ?]
    | apply appends_for_from; intros ?
    | match goal with
      | |- appends (if ?c then _ else _) => destruct c
      | |- appends (let '(_, _) := ?x in _) => destruct x as [[? ?] ?]
      end ].

(** X22: whenever a writer returns, it has changed no vector and no
    array, and the stream is the stream before it with text appended;
    the same holds of the size and offset queries. *)
Theorem X22_writers_only_append :
  (forall p label, appends (SCIPfeatLIBSVMPrint p label)) /\
  (forall p q label negate, appends (SCIPfeatDiffLIBSVMPrint p q label negate)) /\
  (forall p, appends (SCIPfeatGetOffset p)) /\
  (forall p, appends (SCIPfeatGetSize p)).
Proof.
  split; [|split; [|split]].
  - intros p label. unfold SCIPfeatLIBSVMPrint, SCIPfeatGetSize,
      SCIPfeatGetOffset, for_loop. appending.
  - intros p q label negate. unfold SCIPfeatDiffLIBSVMPrint.
    do 7 (apply appends_bind; [appending|intros ?]).
    destruct negate; unfold SCIPfeatGetSize, SCIPfeatGetOffset, for_loop;
      appending.
  - intros p. unfold SCIPfeatGetOffset. appending.
  - intros p. unfold SCIPfeatGetSize. appending.
Qed.

(** X23: the writers refuse a vector that is not computed: for a vector
    whose [depth] is 0, as after creation, the single writer and the
    difference writer in either argument position have no result. *)
Theorem X23_writers_refuse_uncomputed_vector p f m :
  nonnull p = true -> feats m !! p = Some f -> depth f = 0 ->
  (forall label, SCIPfeatLIBSVMPrint p label m = None) /\
  (forall q label negate,
     SCIPfeatDiffLIBSVMPrint p q label negate m = None /\
     SCIPfeatDiffLIBSVMPrint q p label negate m = None).
Proof.
  intros Hp Hf Hd. split.
  - intros label. unfold SCIPfeatLIBSVMPrint.
    rewrite (run_bind _ _ _ tt _ (run_assert _ _ Hp)).
    rewrite (run_bind _ _ _ _ _ (run_get depth p f m Hp Hf)).
    rewrite Hd. apply run_bind_None. reflexivity.
  - intros q label negate. rewrite !diff_print_unfold.
    unfold diff_asserts. rewrite Hp, Hf, Hd. cbn.
    destruct (nonnull q), (feats m !! q) as [g|]; cbn;
      rewrite ?andb_false_r; split; reflexivity.
Qed.

Lemma X23_writers_refuse_uncomputed_vector_witness :
  (forall label, SCIPfeatLIBSVMPrint 1%N label sample_mem = None) /\
  (forall q label negate,
     SCIPfeatDiffLIBSVMPrint 1%N q label negate sample_mem = None /\
     SCIPfeatDiffLIBSVMPrint q 1%N label negate sample_mem = None).
Proof.
  apply (X23_writers_refuse_uncomputed_vector 1%N sample_feat sample_mem);
    reflexivity.
Defined.

(** X24: the difference writer refuses two vectors of different [size],
    with [negate] set or clear. *)
Theorem X24_diff_refuses_different_sizes p1 p2 f1 f2 label negate m :
  feats m !! p1 = Some f1 -> feats m !! p2 = Some f2 -> size f1 <> size f2 ->
  SCIPfeatDiffLIBSVMPrint p1 p2 label negate m = None.
Proof.
  intros Hf1 Hf2 Hs. rewrite diff_print_unfold.
  unfold diff_asserts. rewrite Hf1, Hf2.
  destruct (Z.eqb_spec (size f1) (size f2)); [contradiction|].
  rewrite !andb_false_r. reflexivity.
Qed.

Lemma X24_diff_refuses_different_sizes_witness :
  SCIPfeatDiffLIBSVMPrint 1%N 2%N 1 false
    (mkMem (<[2%N := mkFeat 2%N 0%float 0%float 0 100 29 2 1]> (feats mem_four))
           (reals mem_four) [])
  = None.
Proof.
  apply (X24_diff_refuses_different_sizes 1%N 2%N
           (mkFeat 1%N 0%float 0%float 0 100 25 3 1)
           (mkFeat 2%N 0%float 0%float 0 100 29 2 1));
    try reflexivity; discriminate.
Defined.

End WriterExtras.

(** ** Witnesses of the calculation properties on the sample inputs *)

Lemma X4_node_type_indicators_witness :
  exists m' ys,
    SCIPcalcNodeselFeat (E := sample_enumerators)
      sample_scip (sample_node 4) 1%N sample_mem = Some (tt, m') /\
    reals m' !! 1%N = Some ys /\
    ys !! 3%nat = Some 0%float /\
    ys !! 4%nat = Some 1%float /\
    ys !! 5%nat = Some 0%float.
Proof.
  apply (X4_node_type_indicators (E := sample_enumerators)
           sample_scip (sample_node 4) (sample_boundchg 4) 1%N
           sample_feat (replicate 13 0%float) sample_mem);
    try reflexivity; try discriminate.
  - apply sample_slots_distinct.
  - apply sample_node_valid.
  - apply sample_slots_fit.
Defined.

Lemma X5_node_type_indicators_accumulate_witness :
  exists m' ys,
    (SCIPcalcNodeselFeat (E := sample_enumerators) sample_scip
       (mkNode 2 25 12%float 14%float [sample_boundchg 4]) 1%N;;
     SCIPcalcNodeselFeat (E := sample_enumerators) sample_scip
       (sample_node 4) 1%N) sample_mem
    = Some (tt, m') /\
    reals m' !! 1%N = Some ys /\
    ys !! 3%nat = Some 1%float /\
    ys !! 4%nat = Some 1%float.
Proof.
  apply (X5_node_type_indicators_accumulate (E := sample_enumerators)
           sample_scip (mkNode 2 25 12%float 14%float [sample_boundchg 4])
           (sample_boundchg 4)
           sample_scip (sample_node 4) (sample_boundchg 4) 1%N
           sample_feat (replicate 13 0%float) sample_mem);
    try reflexivity; try discriminate.
  - apply sample_slots_distinct.
  - apply sample_slots_fit.
  - repeat split. discriminate.
  - apply sample_node_valid.
Defined.

Lemma X6_branch_direction_indicators_witness :
  exists m' ys,
    SCIPcalcNodeselFeat (E := sample_enumerators)
      sample_scip (sample_node 4) 1%N sample_mem = Some (tt, m') /\
    reals m' !! 1%N = Some ys /\
    ys !! 9%nat = Some 1%float /\
    ys !! 10%nat = Some 0%float.
Proof.
  apply (X6_branch_direction_indicators (E := sample_enumerators)
           sample_scip (sample_node 4) (sample_boundchg 4) 1%N
           sample_feat (replicate 13 0%float) sample_mem);
    try reflexivity; try discriminate.
  - apply sample_slots_distinct.
  - apply sample_node_valid.
  - apply sample_slots_fit.
Defined.

Lemma X7_branching_differences_witness :
  exists m' ys,
    SCIPcalcNodeselFeat (E := sample_enumerators)
      sample_scip (sample_node 4) 1%N sample_mem = Some (tt, m') /\
    reals m' !! 1%N = Some ys /\
    ys !! 7%nat = Some 0.5%float /\
    ys !! 8%nat = Some (-0.25)%float.
Proof.
  apply (X7_branching_differences (E := sample_enumerators)
           sample_scip (sample_node 4) (sample_boundchg 4) 1%N
           sample_feat (replicate 13 0%float) sample_mem);
    try reflexivity; try discriminate.
  - apply sample_slots_distinct.
  - apply sample_node_valid.
  - apply sample_slots_fit.
Defined.

Lemma X8_pseudocost_unguarded_witness :
  (exists m' ys,
     SCIPcalcNodeselFeat (E := sample_enumerators) sample_scip
       (mkNode 3 25 12%float 14%float [zero_objective_boundchg]) 1%N sample_mem
     = Some (tt, m') /\
     reals m' !! 1%N = Some ys /\
     ys !! 11%nat = Some infinity) /\
  (exists m' ys,
     SCIPcalcNodeselFeat (E := sample_enumerators) sample_scip
       (mkNode 3 25 12%float 14%float [negative_zero_objective_boundchg])
       1%N sample_mem
     = Some (tt, m') /\
     reals m' !! 1%N = Some ys /\
     ys !! 11%nat = Some neg_infinity).
Proof.
  split.
  - destruct (X8_pseudocost_unguarded (E := sample_enumerators) sample_scip
                (mkNode 3 25 12%float 14%float [zero_objective_boundchg])
                zero_objective_boundchg 1%N
                sample_feat (replicate 13 0%float) sample_mem)
      as (m' & ys & x & Hrun & Hys & Hx & _ & Hzero);
      try reflexivity; try discriminate.
    + apply sample_slots_distinct.
    + repeat split. discriminate.
    + apply sample_slots_fit.
    + exists m', ys. split; [exact Hrun|]. split; [exact Hys|].
      destruct (Hzero eq_refl) as (_ & _ & _ & Hpos).
      refine (eq_trans Hx _). f_equal.
      apply (proj1 (Hpos eq_refl)). reflexivity.
  - destruct (X8_pseudocost_unguarded (E := sample_enumerators) sample_scip
                (mkNode 3 25 12%float 14%float
                   [negative_zero_objective_boundchg])
                negative_zero_objective_boundchg 1%N
                sample_feat (replicate 13 0%float) sample_mem)
      as (m' & ys & x & Hrun & Hys & Hx & _ & Hzero);
      try reflexivity; try discriminate.
    + apply sample_slots_distinct.
    + repeat split. discriminate.
    + apply sample_slots_fit.
    + exists m', ys. split; [exact Hrun|]. split; [exact Hys|].
      destruct (Hzero eq_refl) as (_ & _ & _ & Hpos).
      refine (eq_trans Hx _). f_equal.
      apply (proj2 (Hpos eq_refl)). reflexivity.
Defined.

Lemma X9_average_inferences_witness :
  exists m' f' ys,
    SCIPcalcNodeselFeat (E := sample_enumerators)
      sample_scip (sample_node 4) 1%N sample_mem = Some (tt, m') /\
    feats m' !! 1%N = Some f' /\ boundtype f' = 1 /\
    reals m' !! 1%N = Some ys /\
    ys !! 12%nat
      = Some (if boundtype f' =? 1 then (3 / 100)%float else (3 / 100)%float).
Proof.
  apply (X9_average_inferences (E := sample_enumerators)
           sample_scip (sample_node 4) (sample_boundchg 4) 1%N
           sample_feat (replicate 13 0%float) sample_mem);
    try reflexivity; try discriminate.
  - apply sample_slots_distinct.
  - apply sample_node_valid.
  - apply sample_slots_fit.
Defined.

Lemma X10_objconstr_nonzero_column_witness :
  exists m' ys,
    SCIPcalcNodeselFeat (E := sample_enumerators)
      sample_scip (sample_node 4) 1%N sample_mem = Some (tt, m') /\
    reals m' !! 1%N = Some ys /\
    ys !! 6%nat = Some 0.25%float.
Proof.
  apply (X10_objconstr_nonzero_column (E := sample_enumerators)
           sample_scip (sample_node 4) (sample_boundchg 4) 1%N
           sample_feat (replicate 13 0%float) sample_mem);
    try reflexivity; try discriminate.
  - apply sample_slots_distinct.
  - apply sample_node_valid.
  - apply sample_slots_fit.
Defined.

Lemma X11_calc_rejects_invalid_input_witness :
  SCIPcalcNodeselFeat (E := sample_enumerators) sample_scip
    (mkNode 3 0 12%float 14%float [sample_boundchg 4]) 1%N sample_mem = None.
Proof.
  apply (X11_calc_rejects_invalid_input (E := sample_enumerators)).
  left. reflexivity.
Defined.

Lemma X12_create_set_maxdepth_calc_witness :
  (r ← SCIPfeatCreate sample_allocator 13;
   SCIPcalcNodeselFeat (E := sample_enumerators) sample_scip (sample_node 4) r.2)
    (mkMem ∅ ∅ []) = None /\
  exists p m' f',
    (r ← SCIPfeatCreate sample_allocator 13;
     SCIPfeatSetMaxDepth r.2 100;;
     SCIPcalcNodeselFeat (E := sample_enumerators) sample_scip (sample_node 4) r.2;;
     mret r) (mkMem ∅ ∅ []) = Some ((SCIP_OKAY, p), m') /\
    feats m' !! p = Some f' /\
    depth f' = 25 /\ depth f' <> 0 /\ size f' = 13 /\ maxdepth f' = 100.
Proof.
  apply (X12_create_set_maxdepth_calc (E := sample_enumerators)
           sample_allocator sample_junk (fun _ => 7.5%float)
           sample_scip (sample_node 4) (sample_boundchg 4) 13 100
           (mkMem ∅ ∅ [])).
  - reflexivity.
  - reflexivity.
  - unfold Int.max_signed. lia.
  - discriminate.
  - apply sample_node_valid.
  - apply sample_slots_fit.
Defined.

Lemma X13_small_maxdepth_cannot_be_written_witness :
  exists m',
    SCIPcalcNodeselFeat (E := sample_enumerators) sample_scip (sample_node 4)
      1%N (mem_of (mkFeat 1%N 0%float 0%float 0 5 0 13 0)
                  (replicate 13 0%float))
    = Some (tt, m') /\
    SCIPfeatGetOffset 1%N m' = None /\
    (forall label, SCIPfeatLIBSVMPrint 1%N label m' = None) /\
    (forall q label negate,
       SCIPfeatDiffLIBSVMPrint 1%N q label negate m' = None /\
       SCIPfeatDiffLIBSVMPrint q 1%N label negate m' = None).
Proof.
  apply (X13_small_maxdepth_cannot_be_written (E := sample_enumerators)
           sample_scip (sample_node 4) (sample_boundchg 4) 1%N
           (mkFeat 1%N 0%float 0%float 0 5 0 13 0)
           (replicate 13 0%float));
    try reflexivity; try discriminate.
  - cbn. lia.
  - apply sample_node_valid.
  - apply sample_slots_fit.
Defined.

(** ** Setters, well-formed vectors and the whole pipeline *)

Section Pipeline.

Context {E : Enumerators}.

(** X25: the offset follows [SCIPfeatSetMaxDepth]: after storing a
    [maxdepth >= 10] in a vector of non-negative depth, the offset is the
    formula value for the new [maxdepth] (when it fits an [int]); the
    setters of [rootlpobj], [sumobjcoeff] and [nconstrs] leave the offset
    as it was. *)
Theorem X25_offset_after_setters p f md m :
  nonnull p = true -> feats m !! p = Some f ->
  10 <= md -> 0 <= depth f ->
  Int.in_range (offset_floor (set_maxdepth md f)) ->
  (exists m',
     SCIPfeatSetMaxDepth p md m = Some (tt, m') /\
     SCIPfeatGetOffset p m'
     = Some (size f * 2 * (depth f / (md / 10)) + size f * boundtype f, m')) /\
  (forall x y n m1 m2 m3,
     SCIPfeatSetRootlpObj p x m = Some (tt, m1) ->
     SCIPfeatSetSumObjCoeff p y m1 = Some (tt, m2) ->
     SCIPfeatSetNConstrs p n m2 = Some (tt, m3) ->
     fst <$> SCIPfeatGetOffset p m3 = fst <$> SCIPfeatGetOffset p m).
Proof.
  intros Hp Hf Hmd Hd Hr. split.
  - eexists. split; [apply (run_set_maxdepth p md f m Hp Hf)|].
    rewrite run_offset, Hp. cbn [feats with_feats].
    rewrite lookup_insert_eq, offset_of_floor by assumption. reflexivity.
  - intros x y n m1 m2 m3 H1 H2 H3.
    unfold SCIPfeatSetRootlpObj in H1.
    rewrite (run_bind _ _ _ tt _ (run_assert _ _ Hp)) in H1.
    rewrite (run_put set_rootlpobj p x f m Hp Hf) in H1.
    injection H1 as <-.
    unfold SCIPfeatSetSumObjCoeff in H2.
    rewrite (run_bind _ _ _ tt _ (run_assert _ _ Hp)) in H2.
    rewrite (run_put set_sumobjcoeff p y (set_rootlpobj x f))
      in H2 by (try assumption; cbn; apply lookup_insert_eq).
    injection H2 as <-.
    unfold SCIPfeatSetNConstrs in H3.
    rewrite (run_bind _ _ _ tt _ (run_assert _ _ Hp)) in H3.
    rewrite (run_put set_nconstrs p n (set_sumobjcoeff y (set_rootlpobj x f)))
      in H3 by (try assumption; cbn; apply lookup_insert_eq).
    injection H3 as <-.
    rewrite !run_offset, Hp, Hf. cbn [feats with_feats].
    rewrite lookup_insert_eq.
    change (offset_of (set_nconstrs n (set_sumobjcoeff y (set_rootlpobj x f))))
      with (offset_of f).
    destruct (offset_of f); reflexivity.
Qed.

Lemma upd_lookup_other i j x xs :
  0 <= i -> Z.of_nat j <> i -> upd i x xs !! j = xs !! j.
Proof. intros Hi Hne. apply list_lookup_insert_ne. lia. Qed.

Lemma upd_if_lookup_other c i j x xs :
  0 <= i -> Z.of_nat j <> i -> upd_if c i x xs !! j = xs !! j.
Proof. destruct c; [apply upd_lookup_other|reflexivity]. Qed.

(** X26: the calculation keeps a vector well formed: the value array has
    the length it had, so an array of [size] values stays one, and the
    slots of the array that are no feature slot keep their values. *)
Theorem X26_calc_keeps_array_shape scip node bc0 p f xs m :
  nonnull p = true -> feats m !! p = Some f -> reals m !! vals f = Some xs ->
  maxdepth f <> 0 -> node_valid node bc0 -> slots_fit (length xs) ->
  exists m' f' ys,
    SCIPcalcNodeselFeat scip node p m = Some (tt, m') /\
    feats m' !! p = Some f' /\ reals m' !! vals f' = Some ys /\
    length ys = length xs /\ size f' = size f /\
    (Z.of_nat (length xs) = size f -> Z.of_nat (length ys) = size f') /\
    (forall j, Z.of_nat j ∉ feat_slots -> ys !! j = xs !! j).
Proof.
  intros Hp Hf Hxs Hmd Hnode Hfit.
  eexists _, _, _.
  split; [apply (run_calc scip node bc0 p f xs m); assumption|].
  split; [cbn; apply lookup_insert_eq|].
  split; [cbn; apply lookup_insert_eq|].
  split; [apply calc_vals_length|].
  split; [reflexivity|].
  split; [intros Hwf; rewrite calc_vals_length; exact Hwf|].
  intros j Hj. unfold feat_slots in Hj.
  rewrite !not_elem_of_cons in Hj.
  unfold slots_fit, feat_slots in Hfit. rewrite !Forall_cons in Hfit.
  destruct_and!.
  unfold calc_vals. cbv zeta.
  repeat first [rewrite upd_lookup_other by assumption
               |rewrite upd_if_lookup_other by assumption].
  reflexivity.
Qed.

(** X27: the calculation followed by the single writer.  For a valid
    node at a depth up to [maxdepth >= 10], a bound type 0 or 1 and a
    well-formed vector with room for every slot, the calculation makes
    the vector computed and the writer then appends one line: the label,
    a pair for each of the [size] slots of the calculated array with the
    indices [offset+1 ..], and the newline, where the offset is
    [size*2*(nodedepth / (maxdepth/10)) + size*boundtype] for the depth
    and bound type of the node. *)
Theorem X27_calc_then_write scip node bc0 p f xs m label :
  nonnull p = true -> feats m !! p = Some f -> reals m !! vals f = Some xs ->
  node_valid node bc0 -> slots_fit (length xs) ->
  Z.of_nat (length xs) = size f ->
  10 <= maxdepth f -> 0 <= SCIPnodeGetDepth node <= maxdepth f ->
  0 <= bc_boundtype bc0 <= 1 -> 40 * size f <= Int.max_signed ->
  let o := size f * 2 * (SCIPnodeGetDepth node / (maxdepth f / 10))
           + size f * bc_boundtype bc0 in
  exists m' ys pairs,
    (SCIPcalcNodeselFeat scip node p;; SCIPfeatLIBSVMPrint p label) m
    = Some (tt, m') /\
    reals m' !! vals f = Some ys /\
    out m' = out m ++ MsgLabel label :: pairs ++ [MsgNewline] /\
    length pairs = Z.to_nat (size f) /\
    (forall i x, Z.of_nat i < size f -> ys !! i = Some x ->
       pairs !! i = Some (MsgPair (Z.of_nat i + o + 1) x)).
Proof.
  intros Hp Hf Hxs Hnode Hfit Hwf Hmd Hd Hbt Hmax o.
  assert (Hmd0 : maxdepth f <> 0) by lia.
  rewrite (run_bind _ _ _ _ _ (run_calc scip node bc0 p f xs m
                                 Hp Hf Hxs Hmd0 Hnode Hfit)).
  set (f' := set_boundtype (bc_boundtype bc0)
               (set_depth (SCIPnodeGetDepth node) f)).
  set (ys := calc_vals scip node bc0 (maxdepth f) xs).
  set (m1 := mkMem _ _ _).
  assert (Hsz : 0 <= size f) by lia.
  destruct (offset_floor_bound f' Hmd Hd Hbt Hsz) as (_ & Hlo & Hhi).
  assert (Ho : offset_of f' = Some o).
  { apply (offset_of_floor f'); try assumption; [apply Hd|].
    unfold Int.in_range, Int.min_signed, Int.max_signed in *.
    change (size f') with (size f) in *. lia. }
  change (offset_floor f') with o in *. change (size f') with (size f) in *.
  destruct Hnode as (Hdepth & _).
  exists (with_out (out m1 ++ MsgLabel label :: block o (size f) ys
                      ++ [MsgNewline]) m1), ys, (block o (size f) ys).
  split.
  { apply (run_print_single m1 p f' ys o label); try assumption.
    - cbn. apply lookup_insert_eq.
    - cbn. apply lookup_insert_eq.
    - unfold ys. rewrite calc_vals_length. cbn. lia.
    - unfold Int.max_signed in *. cbn. lia. }
  split; [cbn; apply lookup_insert_eq|].
  split; [reflexivity|].
  split.
  - apply block_length. unfold ys. rewrite calc_vals_length. lia.
  - intros i x Hi Hx. apply block_lookup; assumption.
Qed.

End Pipeline.

Lemma X25_offset_after_setters_witness :
  exists m',
    SCIPfeatSetMaxDepth 1%N 50 mem_four = Some (tt, m') /\
    SCIPfeatGetOffset 1%N m' = Some (33, m').
Proof.
  apply (X25_offset_after_setters 1%N
           (mkFeat 1%N 0%float 0%float 0 100 25 3 1) 50 mem_four);
    try reflexivity; try discriminate; vm_compute; intuition discriminate.
Defined.

Lemma X26_calc_keeps_array_shape_witness :
  exists m' f' ys,
    SCIPcalcNodeselFeat (E := sample_enumerators)
      sample_scip (sample_node 4) 1%N
      (mem_of (mkFeat 1%N 0%float 0%float 0 100 0 15 0)
              (replicate 15 7%float)) = Some (tt, m') /\
    feats m' !! 1%N = Some f' /\ reals m' !! vals f' = Some ys /\
    length ys = 15%nat /\ size f' = 15 /\
    (15 = 15 -> Z.of_nat (length ys) = size f') /\
    (forall j, Z.of_nat j ∉ feat_slots (E := sample_enumerators) ->
               ys !! j = replicate 15 7%float !! j).
Proof.
  apply (X26_calc_keeps_array_shape (E := sample_enumerators)
           sample_scip (sample_node 4) (sample_boundchg 4) 1%N
           (mkFeat 1%N 0%float 0%float 0 100 0 15 0) (replicate 15 7%float));
    try reflexivity; try discriminate.
  - apply sample_node_valid.
  - unfold slots_fit, feat_slots. cbn.
    repeat (apply Forall_cons; split; [lia|]). apply Forall_nil_2.
Defined.

Lemma X27_calc_then_write_witness :
  exists m' ys pairs,
    (SCIPcalcNodeselFeat (E := sample_enumerators)
       sample_scip (sample_node 4) 1%N;;
     SCIPfeatLIBSVMPrint 1%N 1) sample_mem = Some (tt, m') /\
    reals m' !! 1%N = Some ys /\
    out m' = [] ++ MsgLabel 1 :: pairs ++ [MsgNewline] /\
    length pairs = 13%nat /\
    (forall i x, Z.of_nat i < 13 -> ys !! i = Some x ->
       pairs !! i = Some (MsgPair (Z.of_nat i + 65 + 1) x)).
Proof.
  apply (X27_calc_then_write (E := sample_enumerators)
           sample_scip (sample_node 4) (sample_boundchg 4) 1%N
           sample_feat (replicate 13 0%float) sample_mem 1);
    try reflexivity; try discriminate;
    try apply sample_node_valid; try apply sample_slots_fit;
    cbn; unfold Int.max_signed; lia.
Defined.
